(** * Heronix-Scheduler: greedy LPT assignment with local search

    A shallow embedding of [TaskScheduler] from [schedulingtask.py]:
    the constructor, [lpt_schedule], [local_search_optimization] and
    [calculate_statistics], followed by the properties of the
    specification that concern them.

    Conventions of the embedding.
    - Python integers are [Z]; list positions, task identifiers and
      machine identifiers are [nat].
    - The object [self] is a record that every method receives and
      returns; a method call ends in [Return st v] or in [Raise st e],
      both carrying the object as the call leaves it, since a Python
      exception does not undo earlier field updates.
    - [time.time()] is an input of [lpt_schedule] (the two readings it
      takes), as a rational number of seconds.
    - A Python [float] is a binary64 number ([spec_float] with 53 bits
      of mantissa): true division, multiplication and the [statistics]
      module round as CPython does, and a conversion or a quotient of
      integers that leaves the range of the floats raises
      [OverflowError]. *)

From Stdlib Require Import List ZArith Lia Bool Arith Permutation Sorted.
From Stdlib Require Import QArith Lqa SpecFloat.
Import ListNotations.

Set Implicit Arguments.
Local Open Scope Z_scope.

(** ** Python built-ins used by the scheduler *)

Inductive exn : Type :=
| ValueError          (* max() or min() of an empty sequence, list.index miss *)
| IndexError          (* list index out of range, heappop from an empty heap *)
| ZeroDivisionError
| OverflowError       (* an integer or a quotient too large for a float *)
| StatisticsError.

(** [sum(l)] *)
Definition py_sum (l : list Z) : Z := fold_right Z.add 0 l.

(** [max(l)] on a list of integers; [None] stands for [ValueError]. *)
Definition py_max (l : list Z) : option Z :=
  match l with
  | [] => None
  | x :: t => Some (fold_left Z.max t x)
  end.

(** [min(l)]; [None] stands for [ValueError]. *)
Definition py_min (l : list Z) : option Z :=
  match l with
  | [] => None
  | x :: t => Some (fold_left Z.min t x)
  end.

(** [l.index(v)]: the first position holding [v]. *)
Fixpoint py_index (v : Z) (l : list Z) : option nat :=
  match l with
  | [] => None
  | x :: t => if x =? v then Some O else option_map S (py_index v t)
  end.

(** [l[k] = x] for a position already known to be in range; out of range
    the list is left as it is (callers test the range first and raise). *)
Fixpoint update {A : Type} (l : list A) (k : nat) (x : A) : list A :=
  match l, k with
  | [], _ => []
  | _ :: t, O => x :: t
  | y :: t, S k' => y :: update t k' x
  end.

(** [l.pop(k)] as far as the list is concerned. *)
Fixpoint remove_nth {A : Type} (l : list A) (k : nat) : list A :=
  match l, k with
  | [], _ => []
  | _ :: t, O => t
  | y :: t, S k' => y :: remove_nth t k'
  end.

(** [range(n)]: empty when [n <= 0]. *)
Definition py_range (n : Z) : list nat := seq 0 (Z.to_nat n).

(** A task as the schedule stores it: [(task_id, task_duration)]. *)
Definition task : Type := (nat * Z)%type.

Definition duration (t : task) : Z := snd t.

(** [enumerate(l)] *)
Fixpoint enumerate_from (k : nat) (l : list Z) : list task :=
  match l with
  | [] => []
  | d :: t => (k, d) :: enumerate_from (S k) t
  end.

Definition enumerate (l : list Z) : list task := enumerate_from 0 l.

(** [sorted(ts, key=lambda x: x[1], reverse=True)].  Python's sort is
    stable and stays so under [reverse=True]: items with equal keys keep
    their input order.  A stable sort has one possible result, computed
    here by insertion from the right. *)
Fixpoint insert_desc (x : task) (l : list task) : list task :=
  match l with
  | [] => [x]
  | y :: t => if duration y <=? duration x then x :: y :: t
              else y :: insert_desc x t
  end.

Fixpoint sorted_desc (l : list task) : list task :=
  match l with
  | [] => []
  | x :: t => insert_desc x (sorted_desc t)
  end.

(** *** [heapq] on [(load, machine_id)] tuples

    The heap is used through [heapify], [heappop] and [heappush] only,
    and [heappop] returns the smallest item in tuple order whatever the
    internal layout; the heap is kept here as the list of its items. *)
Definition entry : Type := (Z * nat)%type.

(** Tuple comparison [a <= b]. *)
Definition entry_leb (a b : entry) : bool :=
  (fst a <? fst b) || ((fst a =? fst b) && (snd a <=? snd b)%nat).

Definition entry_eqb (a b : entry) : bool :=
  (fst a =? fst b) && (snd a =? snd b)%nat.

Fixpoint heap_min (x : entry) (h : list entry) : entry :=
  match h with
  | [] => x
  | y :: t => heap_min (if entry_leb x y then x else y) t
  end.

Fixpoint heap_remove (x : entry) (h : list entry) : list entry :=
  match h with
  | [] => []
  | y :: t => if entry_eqb x y then t else y :: heap_remove x t
  end.

Definition heapify (h : list entry) : list entry := h.

(** [None] stands for [IndexError] (pop from an empty heap). *)
Definition heappop (h : list entry) : option (entry * list entry) :=
  match h with
  | [] => None
  | x :: t => let m := heap_min x t in Some (m, heap_remove m h)
  end.

Definition heappush (h : list entry) (x : entry) : list entry := x :: h.

(** ** The scheduler object *)

Record TaskScheduler : Type := mkScheduler {
  tasks : list Z;
  num_machines : Z;
  schedule : list (list task);
  machine_loads : list Z;
  makespan : Z;
  execution_time : Q
}.

Definition set_schedule (st : TaskScheduler) (s : list (list task)) :=
  mkScheduler (tasks st) (num_machines st) s (machine_loads st)
              (makespan st) (execution_time st).

Definition set_machine_loads (st : TaskScheduler) (l : list Z) :=
  mkScheduler (tasks st) (num_machines st) (schedule st) l
              (makespan st) (execution_time st).

Definition set_makespan (st : TaskScheduler) (m : Z) :=
  mkScheduler (tasks st) (num_machines st) (schedule st) (machine_loads st)
              m (execution_time st).

Definition set_execution_time (st : TaskScheduler) (t : Q) :=
  mkScheduler (tasks st) (num_machines st) (schedule st) (machine_loads st)
              (makespan st) t.

(** How a method call ends. *)
Inductive outcome (A : Type) : Type :=
| Return (st : TaskScheduler) (v : A)
| Raise (st : TaskScheduler) (e : exn).

Arguments Return {A} st v.
Arguments Raise {A} st e.

Definition final_state {A : Type} (o : outcome A) : TaskScheduler :=
  match o with
  | Return st _ => st
  | Raise st _ => st
  end.

(** [TaskScheduler(tasks, num_machines)].  The constructor has no test
    and no [raise]; [[[] for _ in range(n)]] and [[0] * n] are empty for
    [n <= 0]. *)
Definition init (ts : list Z) (m : Z) : exn + TaskScheduler :=
  inr (mkScheduler ts m
         (map (fun _ => []) (py_range m))
         (repeat 0 (Z.to_nat m))
         0 0%Q).

(** ** [lpt_schedule] *)

(** The [for task_id, task_duration in sorted_tasks] loop. *)
Fixpoint lpt_loop (sorted_tasks : list task) (machine_heap : list entry)
         (st : TaskScheduler)
  : (TaskScheduler * exn) + (TaskScheduler * list entry) :=
  match sorted_tasks with
  | [] => inr (st, machine_heap)
  | (task_id, task_duration) :: rest =>
    match heappop machine_heap with
    | None => inl (st, IndexError)
    | Some ((min_load, machine_id), h1) =>
      match nth_error (schedule st) machine_id with
      | None => inl (st, IndexError)
      | Some seq_m =>
        let st1 := set_schedule st
            (update (schedule st) machine_id
                    (seq_m ++ [(task_id, task_duration)])) in
        match nth_error (machine_loads st1) machine_id with
        | None => inl (st1, IndexError)
        | Some _ =>
          let st2 := set_machine_loads st1
              (update (machine_loads st1) machine_id
                      (min_load + task_duration)) in
          lpt_loop rest
                   (heappush h1 (min_load + task_duration, machine_id)) st2
        end
      end
    end
  end.

Definition lpt_schedule (t_start t_end : Q) (st : TaskScheduler)
  : outcome (list (list task) * Z * Q) :=
  let sorted_tasks := sorted_desc (enumerate (tasks st)) in
  let machine_heap :=
      heapify (map (fun i => (0, i)) (py_range (num_machines st))) in
  let st0 := set_machine_loads
               (set_schedule st
                  (map (fun _ => []) (py_range (num_machines st))))
               (repeat 0 (Z.to_nat (num_machines st))) in
  match lpt_loop sorted_tasks machine_heap st0 with
  | inl (st1, e) => Raise st1 e
  | inr (st1, _) =>
    match py_max (machine_loads st1) with
    | None => Raise st1 ValueError
    | Some mx =>
      let st2 := set_execution_time (set_makespan st1 mx)
                                    (t_end - t_start)%Q in
      Return st2 (schedule st2, makespan st2, execution_time st2)
    end
  end.

(** ** [local_search_optimization] *)

(** [max(range(len(s)), key=lambda i: s[i][1])]: [max] keeps the first
    item among those with the greatest key. *)
Fixpoint argmax_from (best_i : nat) (best_d : Z) (i : nat) (s : list task)
  : nat :=
  match s with
  | [] => best_i
  | t :: rest => if best_d <? duration t
                 then argmax_from i (duration t) (S i) rest
                 else argmax_from best_i best_d (S i) rest
  end.

Definition largest_task_index (s : list task) : option nat :=
  match s with
  | [] => None
  | t :: rest => Some (argmax_from 0 (duration t) 1 rest)
  end.

(** The generator
    [self.machine_loads[i] for i in range(self.num_machines)
       if i != max_machine and i != min_machine]
    as [max] consumes it: a position out of range raises [IndexError]
    when it is reached. *)
Fixpoint other_loads (loads : list Z) (max_machine min_machine : nat)
         (idx : list nat) : exn + list Z :=
  match idx with
  | [] => inr []
  | i :: rest =>
    if negb (i =? max_machine)%nat && negb (i =? min_machine)%nat then
      match nth_error loads i with
      | None => inl IndexError
      | Some l =>
        match other_loads loads max_machine min_machine rest with
        | inl e => inl e
        | inr ls => inr (l :: ls)
        end
      end
    else other_loads loads max_machine min_machine rest
  end.

(** One pass through the body of the [while] loop. *)
Inductive step_result : Type :=
| Raised (st : TaskScheduler) (e : exn)
| Stopped                     (* [break], or [improved] left [False] *)
| Moved (st : TaskScheduler). (* the move was made, [iterations += 1] *)

Definition ls_step (st : TaskScheduler) : step_result :=
  let loads := machine_loads st in
  match py_max loads with
  | None => Raised st ValueError
  | Some hi =>
  match py_index hi loads with
  | None => Raised st ValueError
  | Some max_machine =>
  match nth_error (schedule st) max_machine with
  | None => Raised st IndexError
  | Some seq_max =>
  match largest_task_index seq_max with
  | None => Stopped
  | Some largest_task_idx =>
  match nth_error seq_max largest_task_idx with
  | None => Raised st IndexError
  | Some task_to_move =>
  match py_min loads with
  | None => Raised st ValueError
  | Some lo =>
  match py_index lo loads with
  | None => Raised st ValueError
  | Some min_machine =>
  match nth_error loads max_machine, nth_error loads min_machine with
  | Some load_max, Some load_min =>
    let new_max_load := load_max - duration task_to_move in
    let new_min_load := load_min + duration task_to_move in
    match other_loads loads max_machine min_machine
                      (py_range (num_machines st)) with
    | inl e => Raised st e
    | inr others =>
      match py_max others with
      | None => Raised st ValueError
      | Some others_max =>
        let new_makespan :=
            Z.max (Z.max others_max new_max_load) new_min_load in
        if new_makespan <? makespan st then
          let st1 := set_schedule st
              (update (schedule st) max_machine
                      (remove_nth seq_max largest_task_idx)) in
          match nth_error (schedule st1) min_machine with
          | None => Raised st1 IndexError
          | Some seq_min =>
            let st2 := set_schedule st1
                (update (schedule st1) min_machine
                        (seq_min ++ [task_to_move])) in
            let st3 := set_machine_loads st2
                (update (machine_loads st2) max_machine new_max_load) in
            let st4 := set_machine_loads st3
                (update (machine_loads st3) min_machine new_min_load) in
            Moved (set_makespan st4 new_makespan)
          end
        else Stopped
      end
    end
  | _, _ => Raised st IndexError
  end end end end end end end end.

(** The [while improved and iterations < max_iterations] loop.
    [improved] is [True] on entry and after each move, and [iterations]
    counts the moves from [0], so the guard holds exactly while
    [remaining = max_iterations - iterations] is positive; the loop is
    written by recursion on that number. *)
Fixpoint ls_loop (remaining : nat) (iterations : Z) (st : TaskScheduler)
  : outcome (Z * Z) :=
  match remaining with
  | O => Return st (makespan st, iterations)
  | S r =>
    match ls_step st with
    | Raised st' e => Raise st' e
    | Stopped => Return st (makespan st, iterations)
    | Moved st' => ls_loop r (iterations + 1) st'
    end
  end.

Definition local_search_optimization (max_iterations : Z)
           (st : TaskScheduler) : outcome (Z * Z) :=
  ls_loop (Z.to_nat max_iterations) 0 st.

(** ** Python numbers in [calculate_statistics] *)

(** A call that returns a value or raises. *)
Definition result (A : Type) : Type := (exn + A)%type.

Definition bind {A B : Type} (r : result A) (k : A -> result B) : result B :=
  match r with
  | inl e => inl e
  | inr a => k a
  end.

Notation "x <- r ;; k" := (bind r (fun x => k))
  (at level 61, r at next level, right associativity).

(** A built-in that raises [e] where the model has [None]. *)
Definition or_raise {A : Type} (e : exn) (o : option A) : result A :=
  match o with
  | Some a => inr a
  | None => inl e
  end.

(** A list comprehension: the items are computed from left to right,
    and the first one that raises ends the evaluation. *)
Fixpoint traverse {A B : Type} (f : A -> result B) (l : list A)
  : result (list B) :=
  match l with
  | [] => inr []
  | a :: t => b <- f a ;; bs <- traverse f t ;; inr (b :: bs)
  end.

(** A Python [float] is an IEEE 754 binary64 number: 53 bits of
    mantissa, infinities at exponent 1024, results rounded to nearest
    with ties to even. *)
Definition float : Type := spec_float.
Definition mant_dig : Z := 53.
Definition max_exp : Z := 1024.

(** What the statistics hold: an [int] or a [float]. *)
Inductive number : Type :=
| PyInt (z : Z)
| PyFloat (x : float).

(** The integer [z] as a binary number before any rounding. *)
Definition unrounded (z : Z) : spec_float :=
  match z with
  | Z0 => S754_zero false
  | Zpos p => S754_finite false p 0
  | Zneg p => S754_finite true p 0
  end.

(** Conversions from [int] and [int / int] raise [OverflowError] where
    rounding leaves the range of the finite floats. *)
Definition finite_or_overflow (x : spec_float) : result float :=
  match x with
  | S754_infinity _ => inl OverflowError
  | _ => inr x
  end.

(** [float(z)] *)
Definition float_of_int (z : Z) : result float :=
  finite_or_overflow (binary_normalize mant_dig max_exp z 0 false).

(** [a / b] on two [int]: the quotient of the two integers, rounded
    once. *)
Definition int_truediv (a b : Z) : result float :=
  if b =? 0 then inl ZeroDivisionError
  else finite_or_overflow (SFdiv mant_dig max_exp (unrounded a) (unrounded b)).

(** [x / y] on two [float]: no [OverflowError], the quotient may be
    infinite. *)
Definition float_truediv (x y : float) : result float :=
  match y with
  | S754_zero _ => inl ZeroDivisionError
  | _ => inr (SFdiv mant_dig max_exp x y)
  end.

Definition to_float (a : number) : result float :=
  match a with
  | PyInt z => float_of_int z
  | PyFloat x => inr x
  end.

(** [a / b]: an [int] operand next to a [float] is converted first. *)
Definition truediv (a b : number) : result float :=
  match a, b with
  | PyInt x, PyInt y => int_truediv x y
  | _, _ => x <- to_float a ;; y <- to_float b ;; float_truediv x y
  end.

(** [x * z] for a [float] and an [int]. *)
Definition float_mul_int (x : float) (z : Z) : result float :=
  y <- float_of_int z ;; inr (SFmul mant_dig max_exp x y).

(** [x.as_integer_ratio()]: the exact value of a finite float; [None]
    for an infinity or a NaN. *)
Definition as_integer_ratio (x : float) : option Q :=
  match x with
  | S754_zero _ => Some (0 # 1)
  | S754_finite s m e =>
    let n := if s then Zneg m else Zpos m in
    Some (match e with
          | Zneg k => n # (2 ^ k)
          | _ => (n * 2 ^ e) # 1
          end)
  | _ => None
  end.

(** [x > z] and [z > x] for a [float] and an [int] compare the exact
    values. *)
Definition float_gt_int (x : float) (z : Z) : bool :=
  match x with
  | S754_nan => false
  | S754_infinity s => negb s
  | _ => match as_integer_ratio x with
         | Some q => match (q ?= z # 1)%Q with Gt => true | _ => false end
         | None => false
         end
  end.

Definition int_gt_float (z : Z) (x : float) : bool :=
  match x with
  | S754_nan => false
  | S754_infinity s => s
  | _ => match as_integer_ratio x with
         | Some q => match (z # 1 ?= q)%Q with Gt => true | _ => false end
         | None => false
         end
  end.

(** [a > b] *)
Definition number_gt (a b : number) : bool :=
  match a, b with
  | PyInt x, PyInt y => y <? x
  | PyInt x, PyFloat y => int_gt_float x y
  | PyFloat x, PyInt y => float_gt_int x y
  | PyFloat x, PyFloat y => SFltb y x
  end.

(** [max(a, b)]: the first argument unless the second is greater. *)
Definition max_of_two (a b : number) : number :=
  if number_gt b a then b else a.

(** The positive float [m * 2 ^ e]. *)
Definition binary64 (m : positive) (e : Z) : float := S754_finite false m e.

(** [1.0] *)
Definition float_one : float := binary64 4503599627370496 (-52).

(** A finite float below [2 ^ k] in absolute value; nothing is asked of
    zeros, infinities and NaNs. *)
Definition below (k : Z) (x : float) : Prop :=
  match x with
  | S754_finite _ m e => Zpos (digits2_pos m) + e <= k
  | _ => True
  end.

(** [100.0] *)
Definition float_hundred : float := binary64 7036874417766400 (-46).

(** ** The [statistics] module

    [variance], [stdev] and [mean] as CPython 3.11 has them: the data
    are summed as exact fractions and the result is rounded once. *)

(** Numerator and denominator of a [Fraction], which is kept in lowest
    terms. *)
Definition numerator (q : Q) : Z := Qnum (Qred q).
Definition denominator (q : Q) : Z := Zpos (Qden (Qred q)).

(** [float(q)] for a [Fraction]: its numerator over its denominator. *)
Definition float_of_fraction (q : Q) : result float :=
  int_truediv (numerator q) (denominator q).

(** [z.bit_length()] *)
Definition bit_length (z : Z) : Z :=
  if z =? 0 then 0 else Z.log2 (Z.abs z) + 1.

(** [_integer_sqrt_of_frac_rto(n, m)]: the square root of [n / m] as an
    integer, rounded to odd. *)
Definition integer_sqrt_of_frac_rto (n m : Z) : Z :=
  let a := Z.sqrt (n / m) in
  Z.lor a (if a * a * m =? n then 0 else 1).

Definition sqrt_bit_width : Z := 2 * mant_dig + 3.

(** [_float_sqrt_of_frac(n, m)] *)
Definition float_sqrt_of_frac (n m : Z) : result float :=
  let q := (bit_length n - bit_length m - sqrt_bit_width) / 2 in
  if 0 <=? q
  then int_truediv
         (Z.shiftl (integer_sqrt_of_frac_rto n (Z.shiftl m (2 * q))) q) 1
  else int_truediv
         (integer_sqrt_of_frac_rto (Z.shiftl n (- 2 * q)) m)
         (Z.shiftl 1 (- q)).

(** The sum of the squared deviations from the mean that [_ss(data)]
    returns for integers: [(count * sxx - sx * sx) / count]. *)
Definition ss (data : list Z) : Q :=
  let count := Z.of_nat (length data) in
  let sx := py_sum data in
  let sxx := py_sum (map (fun x => x * x) data) in
  match count with
  | Zpos c => (count * sxx - sx * sx) # c
  | _ => 0
  end.

(** [statistics.variance(data)] on integers: an [int] when the sample
    variance is one, else the nearest [float]. *)
Definition variance (data : list Z) : result number :=
  let n := Z.of_nat (length data) in
  if n <? 2 then inl StatisticsError else
  let value := (ss data / ((n - 1) # 1))%Q in
  if denominator value =? 1 then inr (PyInt (numerator value))
  else x <- float_of_fraction value ;; inr (PyFloat x).

(** [statistics.stdev(data)] on integers *)
Definition stdev (data : list Z) : result float :=
  let n := Z.of_nat (length data) in
  if n <? 2 then inl StatisticsError else
  let mss := (ss data / ((n - 1) # 1))%Q in
  float_sqrt_of_frac (numerator mss) (denominator mss).

Definition is_float (a : number) : bool :=
  match a with
  | PyFloat _ => true
  | PyInt _ => false
  end.

Definition exact_ratio (a : number) : option Q :=
  match a with
  | PyInt z => Some (z # 1)
  | PyFloat x => as_integer_ratio x
  end.

(** The sums that [_sum(data)] keeps: the exact sum of the finite
    items, and the float sum of the infinities and NaNs, if any. *)
Fixpoint partials (data : list number) (finite : Q) (special : option float)
  : Q * option float :=
  match data with
  | [] => (finite, special)
  | a :: t =>
    match exact_ratio a, a with
    | Some q, _ => partials t (finite + q)%Q special
    | None, PyFloat x =>
      partials t finite
               (Some (match special with
                      | None => x
                      | Some y => SFadd mant_dig max_exp y x
                      end))
    | None, PyInt _ => partials t finite special
    end
  end.

(** [statistics.mean(data)]: an [int] when every item is one and so is
    the mean, else a [float]. *)
Definition mean (data : list number) : result number :=
  let n := Z.of_nat (length data) in
  if n <? 1 then inl StatisticsError else
  match partials data 0 None with
  | (_, Some total) =>
    d <- float_of_int n ;; x <- float_truediv total d ;; inr (PyFloat x)
  | (total, None) =>
    let value := (total / (n # 1))%Q in
    if existsb is_float data || negb (denominator value =? 1)
    then x <- float_of_fraction value ;; inr (PyFloat x)
    else inr (PyInt (numerator value))
  end.

(** ** Sizes of the items of a mean *)

(** A rational number between [- 2 ^ k] and [2 ^ k]. *)
Definition within (k : Z) (q : Q) : Prop :=
  (- inject_Z (2 ^ k) <= q /\ q <= inject_Z (2 ^ k))%Q.

(** An item whose exact value, if it has one, is within [2 ^ k]. *)
Definition item_within (k : Z) (a : number) : Prop :=
  match a with
  | PyInt z => Z.abs z <= 2 ^ k
  | PyFloat x => below k x
  end.

(** ** [calculate_statistics] *)

(** The dictionary that the method returns. *)
Record Statistics : Type := mkStatistics {
  total_tasks : nat;
  stat_num_machines : Z;
  total_work : Z;
  stat_makespan : Z;
  average_load : float;
  load_std_dev : number;
  load_variance : number;
  min_load : Z;
  max_load : Z;
  utilizations : list number;
  average_utilization : number;
  efficiency : number;
  lower_bound : number;
  approximation_ratio : float;
  stat_execution_time : Q
}.

(** [x / makespan * 100] *)
Definition percentage (x : number) (makespan : Z) : result number :=
  r <- truediv x (PyInt makespan) ;;
  p <- float_mul_int r 100 ;;
  inr (PyFloat p).

Definition calculate_statistics (st : TaskScheduler) : outcome Statistics :=
  let total_work := py_sum (tasks st) in
  let statistics :=
    average_load <- int_truediv total_work (num_machines st) ;;
    load_variance <-
      (if (1 <? length (machine_loads st))%nat
       then variance (machine_loads st) else inr (PyInt 0)) ;;
    load_std_dev <-
      (if (1 <? length (machine_loads st))%nat
       then x <- stdev (machine_loads st) ;; inr (PyFloat x)
       else inr (PyInt 0)) ;;
    utilizations <-
      traverse (fun load => if 0 <? makespan st
                            then percentage (PyInt load) (makespan st)
                            else inr (PyInt 0))
               (machine_loads st) ;;
    efficiency <-
      (if 0 <? makespan st
       then percentage (PyFloat average_load) (makespan st)
       else inr (PyInt 0)) ;;
    longest <- or_raise ValueError (py_max (tasks st)) ;;
    let lower_bound := max_of_two (PyFloat average_load) (PyInt longest) in
    approximation_ratio <-
      (if number_gt lower_bound (PyInt 0)
       then truediv (PyInt (makespan st)) lower_bound
       else inr float_one) ;;
    lo <- or_raise ValueError (py_min (machine_loads st)) ;;
    hi <- or_raise ValueError (py_max (machine_loads st)) ;;
    average_utilization <- mean utilizations ;;
    inr (mkStatistics
           (length (tasks st)) (num_machines st) total_work
           (makespan st) average_load load_std_dev load_variance
           lo hi utilizations average_utilization efficiency
           lower_bound approximation_ratio (execution_time st)) in
  match statistics with
  | inr s => Return st s
  | inl e => Raise st e
  end.

(** ** Building schedulers and tasks for concrete runs *)

(** The task [(task_id, task_duration)]. *)
Definition tk (task_id : nat) (task_duration : Z) : task :=
  (task_id, task_duration).

(** The object that the constructor builds. *)
Definition fresh (ts : list Z) (m : Z) : TaskScheduler :=
  mkScheduler ts m (map (fun _ => []) (py_range m))
              (repeat 0 (Z.to_nat m)) 0 0%Q.

(** ** Orders and invariants used in the statements *)

(** [a] is processed before [b]: longer first, and among tasks of one
    duration the one that comes first in the input. *)
Definition lpt_before (a b : task) : Prop :=
  duration b < duration a
  \/ (duration a = duration b /\ (fst a < fst b)%nat).

(** Tuple order on heap items, as a proposition. *)
Definition entry_le (a b : entry) : Prop :=
  fst a < fst b \/ (fst a = fst b /\ (snd a <= snd b)%nat).

(** The heap holds one tuple per machine, with that machine's load. *)
Definition heap_tracks (h : list entry) (loads : list Z) : Prop :=
  NoDup h /\ forall l k, In (l, k) h <-> nth_error loads k = Some l.

(** Machine [k] carries the minimum load, and no machine with a lower
    identifier carries the same load. *)
Definition least_loaded (loads : list Z) (k : nat) : Prop :=
  exists l, nth_error loads k = Some l
    /\ forall i li, nth_error loads i = Some li ->
                    l < li \/ (l = li /\ (k <= i)%nat).

(** Machine [k] carries the maximum load, and no machine with a lower
    identifier carries the same load. *)
Definition bottleneck (loads : list Z) (k : nat) : Prop :=
  exists l, nth_error loads k = Some l
    /\ forall i li, nth_error loads i = Some li ->
                    li < l \/ (li = l /\ (k <= i)%nat).

(** The task sequences and the loads, machine by machine. *)
Definition assignment : Type := (list (list task) * list Z)%type.

(** [greedy_assign ts a a']: placing the tasks [ts] one after the other,
    each on the least loaded machine of the moment (the lowest
    identifier among equals), appended to that machine's sequence and
    added to its load, leads from [a] to [a']. *)
Inductive greedy_assign : list task -> assignment -> assignment -> Prop :=
| greedy_done : forall a, greedy_assign [] a a
| greedy_place : forall t rest sched loads k seq_k l a',
    least_loaded loads k ->
    nth_error sched k = Some seq_k ->
    nth_error loads k = Some l ->
    greedy_assign rest
                  (update sched k (seq_k ++ [t]),
                   update loads k (l + duration t)) a' ->
    greedy_assign (t :: rest) (sched, loads) a'.

(** One sequence and one load per machine, and [makespan] is the
    maximum load. *)
Record consistent (st : TaskScheduler) : Prop := {
  c_schedule : length (schedule st) = length (machine_loads st);
  c_count : Z.to_nat (num_machines st) = length (machine_loads st);
  c_makespan : py_max (machine_loads st) = Some (makespan st)
}.

(** The move that [ls_step] makes, with every value it computes on the
    way. *)
Inductive move (st st' : TaskScheduler) : Prop :=
| move_made (max_machine min_machine largest_task_idx : nat)
    (task_to_move : task) (seq_max seq_min : list task)
    (load_max load_min : Z) (others : list Z) (others_max : Z)
    (mv_hi : py_max (machine_loads st) = Some load_max)
    (mv_hi_at : py_index load_max (machine_loads st) = Some max_machine)
    (mv_lo : py_min (machine_loads st) = Some load_min)
    (mv_lo_at : py_index load_min (machine_loads st) = Some min_machine)
    (mv_seq : nth_error (schedule st) max_machine = Some seq_max)
    (mv_largest : largest_task_index seq_max = Some largest_task_idx)
    (mv_moved : nth_error seq_max largest_task_idx = Some task_to_move)
    (mv_rest : other_loads (machine_loads st) max_machine min_machine
                           (py_range (num_machines st)) = inr others)
    (mv_rest_max : py_max others = Some others_max)
    (mv_target :
       nth_error (update (schedule st) max_machine
                         (remove_nth seq_max largest_task_idx)) min_machine
       = Some seq_min)
    (mv_new_makespan :
       makespan st'
       = Z.max (Z.max others_max (load_max - duration task_to_move))
               (load_min + duration task_to_move))
    (mv_improves : makespan st' < makespan st)
    (mv_schedule :
       schedule st'
       = update (update (schedule st) max_machine
                        (remove_nth seq_max largest_task_idx))
                min_machine (seq_min ++ [task_to_move]))
    (mv_loads :
       machine_loads st'
       = update (update (machine_loads st) max_machine
                        (load_max - duration task_to_move))
                min_machine (load_min + duration task_to_move))
    (mv_tasks : tasks st' = tasks st)
    (mv_num_machines : num_machines st' = num_machines st)
    (mv_execution_time : execution_time st' = execution_time st).

(** Position [idx] of [s] holds a task of the greatest duration, and no
    earlier position holds one as long. *)
Definition first_largest (s : list task) (idx : nat) : Prop :=
  exists t, nth_error s idx = Some t
    /\ forall j u, nth_error s j = Some u ->
                   duration u < duration t
                   \/ (duration u = duration t /\ (idx <= j)%nat).

(** ** The move policy as the specification words it *)

(** The hypothetical makespan as the specification has it: the maximum
    of the unchanged loads of the other machines, of the bottleneck's
    load less the task and of the target's load plus the task.  It is
    defined also when there is no other machine. *)
Definition hypothetical_makespan (others : list Z)
           (new_max_load new_min_load : Z) : Z :=
  fold_left Z.max others (Z.max new_max_load new_min_load).

(** One iteration as the specification words it: the selection of
    [ls_step], the hypothetical makespan above, and the move made
    exactly when that value is below the current makespan. *)
Definition policy_step (st : TaskScheduler) : step_result :=
  let loads := machine_loads st in
  match py_max loads with
  | None => Raised st ValueError
  | Some hi =>
  match py_index hi loads with
  | None => Raised st ValueError
  | Some max_machine =>
  match nth_error (schedule st) max_machine with
  | None => Raised st IndexError
  | Some seq_max =>
  match largest_task_index seq_max with
  | None => Stopped
  | Some largest_task_idx =>
  match nth_error seq_max largest_task_idx with
  | None => Raised st IndexError
  | Some task_to_move =>
  match py_min loads with
  | None => Raised st ValueError
  | Some lo =>
  match py_index lo loads with
  | None => Raised st ValueError
  | Some min_machine =>
  match nth_error loads max_machine, nth_error loads min_machine with
  | Some load_max, Some load_min =>
    let new_max_load := load_max - duration task_to_move in
    let new_min_load := load_min + duration task_to_move in
    match other_loads loads max_machine min_machine
                      (py_range (num_machines st)) with
    | inl e => Raised st e
    | inr others =>
      let new_makespan :=
          hypothetical_makespan others new_max_load new_min_load in
      if new_makespan <? makespan st then
        let st1 := set_schedule st
            (update (schedule st) max_machine
                    (remove_nth seq_max largest_task_idx)) in
        match nth_error (schedule st1) min_machine with
        | None => Raised st1 IndexError
        | Some seq_min =>
          let st2 := set_schedule st1
              (update (schedule st1) min_machine
                      (seq_min ++ [task_to_move])) in
          let st3 := set_machine_loads st2
              (update (machine_loads st2) max_machine new_max_load) in
          let st4 := set_machine_loads st3
              (update (machine_loads st3) min_machine new_min_load) in
          Moved (set_makespan st4 new_makespan)
        end
      else Stopped
    end
  | _, _ => Raised st IndexError
  end end end end end end end end.

(** ** A whole run and what it shows *)

(** [lpt_schedule] followed, when it returns, by
    [local_search_optimization]. *)
Definition run (t_start t_end : Q) (max_iterations : Z)
           (st : TaskScheduler) : outcome (Z * Z) :=
  match lpt_schedule t_start t_end st with
  | Return st1 _ => local_search_optimization max_iterations st1
  | Raise st1 e => Raise st1 e
  end.

(** What a run shows: the schedule, the loads and the makespan it leaves
    in the object, and the value returned or the exception raised. *)
Definition observe (o : outcome (Z * Z))
  : list (list task) * list Z * Z * (Z * Z + exn) :=
  (schedule (final_state o), machine_loads (final_state o),
   makespan (final_state o),
   match o with
   | Return _ v => inl v
   | Raise _ e => inr e
   end).

(** A change of the object carried through a step or a call. *)
Definition map_step (f : TaskScheduler -> TaskScheduler) (r : step_result)
  : step_result :=
  match r with
  | Raised st e => Raised (f st) e
  | Stopped => Stopped
  | Moved st => Moved (f st)
  end.

Definition map_outcome {A : Type} (f : TaskScheduler -> TaskScheduler)
           (o : outcome A) : outcome A :=
  match o with
  | Return st v => Return (f st) v
  | Raise st e => Raise (f st) e
  end.

(** ** Schedulers met in the examples *)

(** The scheduler after [lpt_schedule] on the worked trace of the
    specification. *)
Definition worked_trace_state : TaskScheduler :=
  mkScheduler [10; 5; 8; 7; 12; 15; 6; 9; 11; 4] 3
              [[tk 5 15; tk 2 8; tk 1 5];
               [tk 4 12; tk 7 9; tk 3 7];
               [tk 8 11; tk 0 10; tk 6 6; tk 9 4]]
              [28; 28; 31] 31 1.

(** The balanced case: four tasks of duration 5 on two machines. *)
Definition balanced_state : TaskScheduler :=
  mkScheduler [5; 5; 5; 5] 2 [[tk 0 5; tk 2 5]; [tk 1 5; tk 3 5]]
              [10; 10] 10 1.

(** A state in which a step does move a task: the sequences
    [[2; 2; 2]], [[1]] and [[3]] with loads [6], [1] and [3]. *)
Definition unbalanced : TaskScheduler :=
  mkScheduler [2; 2; 2; 1; 3] 3
              [[tk 0 2; tk 1 2; tk 2 2]; [tk 3 1]; [tk 4 3]]
              [6; 1; 3] 6 0.

(** The scheduler after [lpt_schedule] on the single task [[3]] and two
    machines. *)
Definition one_task_two_machines : TaskScheduler :=
  mkScheduler [3] 2 [[tk 0 3]; []] [3; 0] 3 1.

(** The scheduler after [lpt_schedule] on the tasks [[5; 3]] and two
    machines. *)
Definition two_tasks_two_machines : TaskScheduler :=
  mkScheduler [5; 3] 2 [[tk 0 5]; [tk 1 3]] [5; 3] 5 1.

(** The scheduler after [lpt_schedule] on the tasks [[4; 2; 7]] and one
    machine. *)
Definition three_tasks_one_machine : TaskScheduler :=
  mkScheduler [4; 2; 7] 1 [[tk 2 7; tk 0 4; tk 1 2]] [13] 13 1.

(** The scheduler after [lpt_schedule] on no task and three machines. *)
Definition no_task_three_machines : TaskScheduler :=
  mkScheduler [] 3 [[]; []; []] [0; 0; 0] 0 1.

(** The scheduler after [lpt_schedule] on the tasks [[2; 2; 2; 1]] and
    two machines. *)
Definition four_tasks_two_machines : TaskScheduler :=
  mkScheduler [2; 2; 2; 1] 2 [[tk 0 2; tk 2 2]; [tk 1 2; tk 3 1]]
              [4; 3] 4 1.

(** The scheduler after [lpt_schedule] on seven tasks of duration 1 and
    three machines. *)
Definition seven_unit_tasks : TaskScheduler :=
  mkScheduler [1; 1; 1; 1; 1; 1; 1] 3
              [[tk 0 1; tk 3 1; tk 6 1]; [tk 1 1; tk 4 1]; [tk 2 1; tk 5 1]]
              [3; 2; 2] 3 1.

(** The scheduler after [lpt_schedule] on one task of duration
    [10 ^ 400] and one machine. *)
Definition one_huge_task : TaskScheduler :=
  mkScheduler [10 ^ 400] 1 [[tk 0 (10 ^ 400)]] [10 ^ 400] (10 ^ 400) 1.

(** A second object that has already been through a run with other
    tasks' leftovers in its fields. *)
Definition used (ts : list Z) (m : Z) : TaskScheduler :=
  mkScheduler ts m [[tk 7 9]] [9; 9; 9; 9] 42 5.

(** ** What a schedule should keep true of tasks and loads *)

(** The load that a sequence of tasks puts on its machine. *)
Definition seq_load (s : list task) : Z := py_sum (map duration s).

(** Every machine's load is the sum of the durations in its sequence. *)
Definition loads_match (st : TaskScheduler) : Prop :=
  machine_loads st = map seq_load (schedule st).

(** The sequences hold every task of the input once, under its input
    position. *)
Definition partitions (st : TaskScheduler) : Prop :=
  Permutation (concat (schedule st)) (enumerate (tasks st)).

(** No machine would fall below another one by giving up the task it
    received last. *)
Definition settled (sched : list (list task)) (loads : list Z) : Prop :=
  forall i seq_i t l,
    nth_error sched i = Some (seq_i ++ [t]) ->
    nth_error loads i = Some l ->
    forall x, In x loads -> l - duration t <= x.

(** * Lemmas on the embedding *)

(** The constructor returns the fresh object. *)
Example init_fresh : forall ts m, init ts m = inr (fresh ts m).
Proof. reflexivity. Qed.

(** ** Lists: positions, updates, sums, extrema *)

Section ListFacts.
Context {A : Type}.

Lemma update_length (l : list A) k x : length (update l k x) = length l.
Proof.
  revert k; induction l as [|y l IH]; intros [|k]; simpl; auto.
Qed.

Lemma nth_error_update_eq (l : list A) k x :
  (k < length l)%nat -> nth_error (update l k x) k = Some x.
Proof.
  revert k; induction l as [|y l IH]; intros [|k] H; simpl in *;
    try lia; auto.
  apply IH; lia.
Qed.

Lemma nth_error_update_neq (l : list A) k i x :
  i <> k -> nth_error (update l k x) i = nth_error l i.
Proof.
  revert k i; induction l as [|y l IH]; intros [|k] [|i] H; simpl;
    auto; try congruence.
Qed.

Lemma nth_error_in_range (l : list A) k y :
  nth_error l k = Some y -> (k < length l)%nat.
Proof.
  intros H; apply nth_error_Some; congruence.
Qed.

Lemma nth_error_of_range (l : list A) k :
  (k < length l)%nat -> exists y, nth_error l k = Some y.
Proof.
  intros H; destruct (nth_error l k) eqn:E; eauto.
  apply nth_error_None in E; lia.
Qed.

Lemma remove_nth_length (l : list A) k :
  (k < length l)%nat -> S (length (remove_nth l k)) = length l.
Proof.
  revert k; induction l as [|y l IH]; intros [|k] H; simpl in *;
    try lia.
  rewrite IH; lia.
Qed.
End ListFacts.

Lemma py_sum_app l1 l2 : py_sum (l1 ++ l2) = py_sum l1 + py_sum l2.
Proof.
  induction l1 as [|x l1 IH]; simpl; lia.
Qed.

Lemma py_sum_update l k old x :
  nth_error l k = Some old -> py_sum (update l k x) = py_sum l - old + x.
Proof.
  revert k; induction l as [|y l IH]; intros [|k] H; simpl in *;
    try discriminate.
  - injection H as ->; lia.
  - rewrite (IH _ H); lia.
Qed.

Lemma py_sum_repeat_zero n : py_sum (repeat 0 n) = 0.
Proof.
  induction n; simpl; lia.
Qed.

Lemma py_sum_perm l1 l2 : Permutation l1 l2 -> py_sum l1 = py_sum l2.
Proof.
  induction 1; simpl; lia.
Qed.

Lemma fold_max_spec t x :
  (fold_left Z.max t x = x \/ In (fold_left Z.max t x) t)
  /\ x <= fold_left Z.max t x
  /\ (forall y, In y t -> y <= fold_left Z.max t x).
Proof.
  revert x; induction t as [|z t IH]; intros x; simpl.
  - repeat split; auto; try lia; intros y [].
  - destruct (IH (Z.max x z)) as (Hin & Hx & Hall).
    repeat split.
    + destruct Hin as [E|Hin]; [|auto].
      rewrite E. destruct (Z.max_spec x z) as [[_ ->]|[_ ->]]; auto.
    + lia.
    + intros y [<-|Hy]; [lia|auto].
Qed.

Lemma fold_min_spec t x :
  (fold_left Z.min t x = x \/ In (fold_left Z.min t x) t)
  /\ fold_left Z.min t x <= x
  /\ (forall y, In y t -> fold_left Z.min t x <= y).
Proof.
  revert x; induction t as [|z t IH]; intros x; simpl.
  - repeat split; auto; try lia; intros y [].
  - destruct (IH (Z.min x z)) as (Hin & Hx & Hall).
    repeat split.
    + destruct Hin as [E|Hin]; [|auto].
      rewrite E. destruct (Z.min_spec x z) as [[_ ->]|[_ ->]]; auto.
    + lia.
    + intros y [<-|Hy]; [lia|auto].
Qed.

(** [max(l)] is an item of [l] that bounds every item. *)
Lemma py_max_spec l m :
  py_max l = Some m <-> In m l /\ forall y, In y l -> y <= m.
Proof.
  destruct l as [|x t]; simpl.
  - split; [discriminate | intros [[] _]].
  - destruct (fold_max_spec t x) as (Hin & Hx & Hall). split.
    + intros [= <-]. split; [destruct Hin as [->|Hin]; auto|].
      intros y [<-|Hy]; auto.
    + intros [Hm Hub]. f_equal.
      assert (fold_left Z.max t x <= m)
        by (apply Hub; destruct Hin as [->|]; auto).
      assert (m <= fold_left Z.max t x)
        by (destruct Hm as [<-|Hm]; auto).
      lia.
Qed.

Lemma py_min_spec l m :
  py_min l = Some m <-> In m l /\ forall y, In y l -> m <= y.
Proof.
  destruct l as [|x t]; simpl.
  - split; [discriminate | intros [[] _]].
  - destruct (fold_min_spec t x) as (Hin & Hx & Hall). split.
    + intros [= <-]. split; [destruct Hin as [->|Hin]; auto|].
      intros y [<-|Hy]; auto.
    + intros [Hm Hlb]. f_equal.
      assert (m <= fold_left Z.min t x)
        by (apply Hlb; destruct Hin as [->|]; auto).
      assert (fold_left Z.min t x <= m)
        by (destruct Hm as [<-|Hm]; auto).
      lia.
Qed.

Lemma py_max_nonempty l : l <> [] -> exists m, py_max l = Some m.
Proof.
  destruct l; [congruence | simpl; eauto].
Qed.

Lemma py_min_nonempty l : l <> [] -> exists m, py_min l = Some m.
Proof.
  destruct l; [congruence | simpl; eauto].
Qed.

(** [l.index(v)] is the first position of [v]. *)
Lemma py_index_spec v l k :
  py_index v l = Some k <->
  nth_error l k = Some v
  /\ forall j, (j < k)%nat -> nth_error l j <> Some v.
Proof.
  revert k; induction l as [|x t IH]; intros k; simpl.
  - split; [discriminate|]. intros [H _]. destruct k; discriminate.
  - destruct (Z.eqb_spec x v) as [->|Hne].
    + split.
      * intros [= <-]. split; auto. intros j Hj; lia.
      * intros [Hk Hfirst]. destruct k as [|k]; auto.
        exfalso. apply (Hfirst O); [lia | reflexivity].
    + destruct (py_index v t) as [k'|] eqn:E; simpl.
      * split.
        -- intros [= <-]. destruct (proj1 (IH k') eq_refl) as [H1 H2].
           split; auto. intros [|j] Hj; simpl; [congruence|].
           apply H2; lia.
        -- intros [Hk Hfirst]. destruct k as [|k]; simpl in Hk;
             [congruence|].
           f_equal. symmetry.
           assert (Some k' = Some k) as [= ->]; auto.
           apply IH. split; auto.
           intros j Hj. apply (Hfirst (S j)); lia.
      * split; [discriminate|].
        intros [Hk Hfirst]. destruct k as [|k]; simpl in Hk;
          [congruence|].
        assert (None = Some k); [|discriminate].
        apply IH. split; auto.
        intros j Hj. apply (Hfirst (S j)); lia.
Qed.

Lemma py_index_of_member v l : In v l -> exists k, py_index v l = Some k.
Proof.
  induction l as [|x t IH]; simpl; [intros []|].
  intros H. destruct (Z.eqb_spec x v); eauto.
  destruct H as [->|H]; [congruence|].
  destruct (IH H) as [k ->]; simpl; eauto.
Qed.

(** ** The processing order of [lpt_schedule] *)

Lemma insert_desc_perm x l : Permutation (x :: l) (insert_desc x l).
Proof.
  induction l as [|y t IH]; simpl; auto.
  destruct (duration y <=? duration x); auto.
  rewrite perm_swap. constructor. exact IH.
Qed.

Lemma sorted_desc_perm l : Permutation l (sorted_desc l).
Proof.
  induction l as [|x t IH]; simpl; auto.
  rewrite <- insert_desc_perm. constructor. exact IH.
Qed.

Lemma insert_desc_sorted x l :
  StronglySorted lpt_before l ->
  Forall (fun y => (fst x < fst y)%nat) l ->
  StronglySorted lpt_before (insert_desc x l).
Proof.
  induction l as [|y t IH]; intros Hs Hid; simpl.
  - repeat constructor.
  - inversion Hs as [|? ? Hst Hy]; subst.
    inversion Hid as [|? ? Hxy Hxt]; subst.
    destruct (Z.leb_spec (duration y) (duration x)) as [Hle|Hgt].
    + constructor; auto. constructor.
      * unfold lpt_before. lia.
      * rewrite Forall_forall in *. intros z Hz.
        specialize (Hy z Hz). specialize (Hxt z Hz).
        unfold lpt_before in *. lia.
    + constructor; auto.
      rewrite Forall_forall in *. intros z Hz.
      apply (Permutation_in _ (Permutation_sym (insert_desc_perm x t)))
        in Hz.
      destruct Hz as [<-|Hz]; auto.
      unfold lpt_before. lia.
Qed.

Lemma enumerate_from_ids k l :
  Forall (fun y => (k <= fst y)%nat) (enumerate_from k l).
Proof.
  revert k; induction l as [|d t IH]; intros k; simpl; constructor;
    simpl; auto.
  eapply Forall_impl; [|apply (IH (S k))]. simpl; intros; lia.
Qed.

Lemma sorted_desc_enumerate_from k l :
  StronglySorted lpt_before (sorted_desc (enumerate_from k l)).
Proof.
  revert k; induction l as [|d t IH]; intros k; simpl.
  - constructor.
  - apply insert_desc_sorted; auto.
    rewrite Forall_forall. intros y Hy.
    apply (Permutation_in _ (Permutation_sym (sorted_desc_perm _))) in Hy.
    pose proof (enumerate_from_ids (S k) t) as Hids.
    rewrite Forall_forall in Hids. specialize (Hids y Hy). simpl; lia.
Qed.

Lemma enumerate_from_durations k l : map duration (enumerate_from k l) = l.
Proof.
  revert k; induction l as [|d t IH]; intros k; simpl; f_equal; auto.
Qed.

Lemma enumerate_from_nth_error k l i :
  nth_error (enumerate_from k l) i
  = option_map (fun d => ((k + i)%nat, d)) (nth_error l i).
Proof.
  revert k i; induction l as [|x t IH]; intros k [|i]; simpl; auto.
  - rewrite Nat.add_0_r. reflexivity.
  - rewrite IH. replace (S k + i)%nat with (k + S i)%nat by lia.
    reflexivity.
Qed.

(** [enumerate] pairs every duration with its position in the input. *)
Lemma enumerate_in l i d :
  In (i, d) (enumerate l) <-> nth_error l i = Some d.
Proof.
  unfold enumerate. split.
  - intros H. apply In_nth_error in H. destruct H as [j Hj].
    rewrite enumerate_from_nth_error in Hj.
    destruct (nth_error l j) eqn:E; simpl in Hj; [|discriminate].
    injection Hj as <- <-. exact E.
  - intros H. apply nth_error_In with (n := i).
    rewrite enumerate_from_nth_error, H. reflexivity.
Qed.

Lemma sorted_desc_durations l :
  py_sum (map duration (sorted_desc (enumerate l))) = py_sum l.
Proof.
  rewrite <- (enumerate_from_durations 0 l) at 2.
  apply py_sum_perm, Permutation_map, Permutation_sym, sorted_desc_perm.
Qed.

Lemma map_const_repeat {A B : Type} (x : B) (l : list A) :
  map (fun _ => x) l = repeat x (length l).
Proof.
  induction l; simpl; f_equal; auto.
Qed.

(** ** The heap of [(load, machine_id)] tuples *)

Lemma entry_leb_le a b : entry_leb a b = true <-> entry_le a b.
Proof.
  unfold entry_leb, entry_le.
  rewrite orb_true_iff, andb_true_iff, Z.ltb_lt, Z.eqb_eq, Nat.leb_le.
  tauto.
Qed.

Lemma entry_eqb_eq a b : entry_eqb a b = true <-> a = b.
Proof.
  unfold entry_eqb. destruct a as [la ka], b as [lb kb]; simpl.
  rewrite andb_true_iff, Z.eqb_eq, Nat.eqb_eq.
  split; [intros [-> ->]; auto | intros [= -> ->]; auto].
Qed.

Lemma heap_min_spec h x :
  (heap_min x h = x \/ In (heap_min x h) h)
  /\ entry_le (heap_min x h) x
  /\ forall y, In y h -> entry_le (heap_min x h) y.
Proof.
  revert x; induction h as [|y t IH]; intros x; simpl.
  - repeat split; auto; [unfold entry_le; lia | intros y []].
  - destruct (IH (if entry_leb x y then x else y)) as (Hin & Hle & Hall).
    destruct (entry_leb x y) eqn:E.
    + apply entry_leb_le in E. repeat split; auto.
      * tauto.
      * intros z [<-|Hz]; auto. unfold entry_le in *; lia.
    + assert (entry_le y x).
      { destruct (entry_leb y x) eqn:E'; [apply entry_leb_le; auto|].
        unfold entry_leb in E, E'.
        rewrite orb_false_iff, andb_false_iff, Z.ltb_ge, Z.eqb_neq,
          Nat.leb_gt in E, E'.
        unfold entry_le; lia. }
      repeat split.
      * destruct Hin as [->|Hin]; auto.
      * unfold entry_le in *; lia.
      * intros z [<-|Hz]; auto.
Qed.

(** [heappop] returns an item of the heap that is least in tuple
    order. *)
Lemma heappop_least h m h' :
  heappop h = Some (m, h') ->
  In m h /\ (forall y, In y h -> entry_le m y) /\ h' = heap_remove m h.
Proof.
  destruct h as [|x t]; [discriminate|].
  unfold heappop. intros [= <- <-].
  destruct (heap_min_spec t x) as (Hin & Hle & Hall).
  repeat split.
  - destruct Hin as [->|Hin]; simpl; auto.
  - intros y [<-|Hy]; auto.
Qed.

Lemma heappop_nonempty h : h <> [] -> exists m h', heappop h = Some (m, h').
Proof.
  destruct h; [congruence|]. unfold heappop; eauto.
Qed.

Lemma heap_remove_in x h y :
  NoDup h -> (In y (heap_remove x h) <-> In y h /\ y <> x).
Proof.
  induction h as [|z t IH]; intros Hnd; simpl; [tauto|].
  inversion Hnd as [|? ? Hz Ht]; subst.
  destruct (entry_eqb x z) eqn:E.
  - apply entry_eqb_eq in E; subst z. split.
    + intros Hy. split; auto. intros ->. contradiction.
    + intros [[<-|Hy] Hne]; [congruence | auto].
  - assert (x <> z) by (intros ->; rewrite (proj2 (entry_eqb_eq z z))
                          in E; [discriminate | auto]).
    simpl. rewrite (IH Ht). split.
    + intros [<-|[Hy Hne]]; auto.
    + intros [[<-|Hy] Hne]; auto.
Qed.

Lemma heap_remove_nodup x h : NoDup h -> NoDup (heap_remove x h).
Proof.
  induction h as [|z t IH]; intros Hnd; simpl; auto.
  inversion Hnd as [|? ? Hz Ht]; subst.
  destruct (entry_eqb x z); auto.
  constructor; auto.
  rewrite (heap_remove_in x z Ht). tauto.
Qed.

Lemma heap_tracks_initial n :
  heap_tracks (map (fun i => (0, i)) (seq 0 n)) (repeat 0 n).
Proof.
  split.
  - apply Finite.Injective_map_NoDup; [|apply seq_NoDup].
    intros i j [= ->]; auto.
  - intros l k. rewrite in_map_iff. split.
    + intros (i & [= <- <-] & Hi). apply in_seq in Hi.
      rewrite nth_error_repeat; auto. lia.
    + intros H. pose proof (nth_error_in_range _ _ H) as Hk.
      rewrite repeat_length in Hk.
      rewrite nth_error_repeat in H by auto. injection H as <-.
      exists k. split; auto. apply in_seq; lia.
Qed.

Lemma heap_tracks_pop_push h loads l k d h' :
  heap_tracks h loads ->
  heappop h = Some ((l, k), h') ->
  heap_tracks (heappush h' (l + d, k)) (update loads k (l + d)).
Proof.
  intros [Hnd Hiff] Hpop.
  destruct (heappop_least _ Hpop) as (Hin & _ & ->).
  pose proof (proj1 (Hiff l k) Hin) as Hk.
  pose proof (nth_error_in_range _ _ Hk) as Hlt.
  unfold heappush. split.
  - constructor; [|apply heap_remove_nodup; auto].
    rewrite (heap_remove_in _ _ Hnd). intros [H1 H2].
    apply Hiff in H1. congruence.
  - intros l' k'. simpl. rewrite (heap_remove_in _ _ Hnd).
    destruct (Nat.eq_dec k' k) as [->|Hne].
    + rewrite nth_error_update_eq by auto. split.
      * intros [[= <-]|[H1 H2]]; auto.
        apply Hiff in H1. congruence.
      * intros [= <-]; auto.
    + rewrite nth_error_update_neq by auto. rewrite <- Hiff. split.
      * intros [[= _ E]|[H1 _]]; [congruence | auto].
      * intros H1. right. split; auto. congruence.
Qed.

(** ** Greedy assignment, stated on the loads *)

Lemma greedy_assign_lengths ts a a' :
  greedy_assign ts a a' ->
  length (fst a') = length (fst a) /\ length (snd a') = length (snd a).
Proof.
  induction 1 as [|t rest sched loads k seq_k l a' _ _ _ _ IH]; auto.
  simpl in *. rewrite !update_length in IH. exact IH.
Qed.

Lemma greedy_assign_sum ts a a' :
  greedy_assign ts a a' ->
  py_sum (snd a') = py_sum (snd a) + py_sum (map duration ts).
Proof.
  induction 1 as [|t rest sched loads k seq_k l a' _ _ Hl _ IH]; simpl.
  - lia.
  - simpl in IH. rewrite IH, (py_sum_update _ _ _ Hl). lia.
Qed.

(** The relation leaves no choice: the assignment reached is unique. *)
Lemma least_loaded_unique loads k1 k2 :
  least_loaded loads k1 -> least_loaded loads k2 -> k1 = k2.
Proof.
  intros (l1 & H1 & M1) (l2 & H2 & M2).
  specialize (M1 _ _ H2). specialize (M2 _ _ H1). lia.
Qed.

Lemma greedy_assign_functional ts a a1 a2 :
  greedy_assign ts a a1 -> greedy_assign ts a a2 -> a1 = a2.
Proof.
  intros H1; revert a2.
  induction H1 as [|t rest sched loads k seq_k l a' Hk Hs Hl _ IH];
    intros a2 H2; inversion H2; subst; auto.
  match goal with
  | [ H : least_loaded loads ?k' |- _ ] =>
    assert (k' = k) by (eapply least_loaded_unique; eauto); subst k'
  end.
  apply IH. congruence.
Qed.

(** The loop of [lpt_schedule] performs the greedy assignment: popping
    the heap picks the least loaded machine. *)
Lemma lpt_loop_greedy sorted_tasks :
  forall h st,
    heap_tracks h (machine_loads st) ->
    length (schedule st) = length (machine_loads st) ->
    machine_loads st <> [] ->
    exists st' h',
      lpt_loop sorted_tasks h st = inr (st', h')
      /\ greedy_assign sorted_tasks (schedule st, machine_loads st)
                       (schedule st', machine_loads st')
      /\ tasks st' = tasks st
      /\ num_machines st' = num_machines st
      /\ makespan st' = makespan st
      /\ execution_time st' = execution_time st.
Proof.
  induction sorted_tasks as [|[task_id d] rest IH]; intros h st Hh Hlen Hne.
  - exists st, h. simpl. repeat split; auto. constructor.
  - assert (h <> []) as Hhne.
    { destruct (machine_loads st) as [|l0 ls] eqn:E; [congruence|].
      destruct Hh as [_ Hiff]. specialize (Hiff l0 O).
      intros ->. apply Hiff; reflexivity. }
    destruct (heappop_nonempty Hhne) as ([l k] & h' & Hpop).
    destruct (heappop_least _ Hpop) as (Hin & Hmin & _).
    pose proof Hh as [_ Hiff].
    pose proof (proj1 (Hiff l k) Hin) as Hl.
    pose proof (nth_error_in_range _ _ Hl) as Hk.
    destruct (@nth_error_of_range _ (schedule st) k) as [seq_k Hs];
      [lia|].
    set (st2 := set_machine_loads
                  (set_schedule st (update (schedule st) k
                                           (seq_k ++ [(task_id, d)])))
                  (update (machine_loads st) k (l + d))).
    destruct (IH (heappush h' (l + d, k)) st2) as (st' & hf & Hrun & Hg & Hrest).
    + apply heap_tracks_pop_push with (h := h); auto.
    + simpl. rewrite !update_length. exact Hlen.
    + simpl. intros E. apply (f_equal (@length Z)) in E.
      rewrite update_length in E. simpl in E. lia.
    + exists st', hf. simpl lpt_loop. rewrite Hpop, Hs. simpl. rewrite Hl.
      split; [exact Hrun|]. split; [|exact Hrest].
      eapply greedy_place with (k := k) (l := l); eauto.
      exists l. split; auto. intros i li Hi.
      apply Hiff in Hi. specialize (Hmin _ Hi).
      unfold entry_le in Hmin; simpl in Hmin. exact Hmin.
Qed.

(** The state in which [lpt_schedule] leaves the object. *)
Lemma lpt_schedule_returns t_start t_end st :
  1 <= num_machines st ->
  exists st',
    lpt_schedule t_start t_end st
    = Return st' (schedule st', makespan st', execution_time st')
    /\ greedy_assign (sorted_desc (enumerate (tasks st)))
                     (map (fun _ => []) (py_range (num_machines st)),
                      repeat 0 (Z.to_nat (num_machines st)))
                     (schedule st', machine_loads st')
    /\ py_max (machine_loads st') = Some (makespan st')
    /\ tasks st' = tasks st
    /\ num_machines st' = num_machines st
    /\ execution_time st' = (t_end - t_start)%Q.
Proof.
  intros Hm. unfold lpt_schedule.
  set (st0 := set_machine_loads _ _).
  destruct (@lpt_loop_greedy (sorted_desc (enumerate (tasks st)))
              (heapify (map (fun i => (0, i)) (py_range (num_machines st))))
              st0) as (st1 & hf & Hrun & Hg & Ht & Hn & _ & _).
  - apply heap_tracks_initial.
  - simpl. unfold py_range. rewrite length_map, length_seq, repeat_length.
    reflexivity.
  - simpl. destruct (Z.to_nat (num_machines st)) eqn:E; [lia|].
    simpl; discriminate.
  - rewrite Hrun.
    destruct (py_max_nonempty (l := machine_loads st1)) as [mx Hmx].
    { destruct (greedy_assign_lengths Hg) as [_ Hlen]. simpl in Hlen.
      rewrite repeat_length in Hlen. intros E. rewrite E in Hlen.
      simpl in Hlen. lia. }
    rewrite Hmx.
    eexists. split; [reflexivity|]. simpl.
    repeat split; auto.
Qed.

(** ** What the methods keep true of the object *)

Lemma lpt_schedule_consistent t_start t_end st st' v :
  1 <= num_machines st ->
  lpt_schedule t_start t_end st = Return st' v ->
  consistent st'.
Proof.
  intros Hm Hrun.
  destruct (lpt_schedule_returns t_start t_end st Hm)
    as (st1 & Hret & Hg & Hmx & _ & Hn & _).
  rewrite Hret in Hrun. injection Hrun as <- _.
  destruct (greedy_assign_lengths Hg) as [Hs Hl]. simpl in Hs, Hl.
  unfold py_range in Hs. rewrite length_map, length_seq in Hs.
  rewrite repeat_length in Hl.
  constructor; auto; congruence.
Qed.

Lemma other_loads_spec loads a b idx os :
  other_loads loads a b idx = inr os ->
  forall x, In x os <->
            exists i, In i idx /\ i <> a /\ i <> b
                      /\ nth_error loads i = Some x.
Proof.
  revert os; induction idx as [|i rest IH]; intros os; simpl.
  - intros [= <-] x. simpl. split; [intros [] | intros (_ & [] & _)].
  - destruct (Nat.eqb_spec i a) as [->|Ha]; simpl.
    + intros H x. rewrite (IH _ H x). split.
      * intros (j & Hj & Hrest); eauto.
      * intros (j & [<-|Hj] & Hja & Hrest); [congruence | eauto].
    + destruct (Nat.eqb_spec i b) as [->|Hb]; simpl.
      * intros H x. rewrite (IH _ H x). split.
        -- intros (j & Hj & Hrest); eauto.
        -- intros (j & [<-|Hj] & Hja & Hjb & Hrest);
             [congruence | eauto].
      * destruct (nth_error loads i) as [l|] eqn:El; [|discriminate].
        destruct (other_loads loads a b rest) as [e|ls]; [discriminate|].
        intros [= <-] x. simpl. rewrite (IH _ eq_refl x). split.
        -- intros [<-|(j & Hj & Hrest)]; eauto 6.
        -- intros (j & [<-|Hj] & Hja & Hjb & Hx).
           ++ left; congruence.
           ++ right; eauto.
Qed.

Lemma other_loads_defined loads a b idx :
  (forall i, In i idx -> (i < length loads)%nat) ->
  exists os, other_loads loads a b idx = inr os.
Proof.
  induction idx as [|i rest IH]; intros Hidx; simpl; eauto.
  destruct IH as [os Hos]; [intros j Hj; apply Hidx; simpl; auto|].
  destruct (negb (i =? a)%nat && negb (i =? b)%nat); eauto.
  destruct (@nth_error_of_range _ loads i) as [l ->];
    [apply Hidx; simpl; auto|].
  rewrite Hos. eauto.
Qed.

Lemma py_index_found v l k : py_index v l = Some k -> nth_error l k = Some v.
Proof.
  intros H. apply py_index_spec in H. tauto.
Qed.

Lemma ls_step_moved st st' : ls_step st = Moved st' -> move st st'.
Proof.
  unfold ls_step.
  destruct (py_max (machine_loads st)) as [hi|] eqn:Ehi; [|discriminate].
  destruct (py_index hi (machine_loads st)) as [kmax|] eqn:Ekmax;
    [|discriminate].
  destruct (nth_error (schedule st) kmax) as [seq_max|] eqn:Eseq;
    [|discriminate].
  destruct (largest_task_index seq_max) as [idx|] eqn:Eidx; [|discriminate].
  destruct (nth_error seq_max idx) as [t|] eqn:Et; [|discriminate].
  destruct (py_min (machine_loads st)) as [lo|] eqn:Elo; [|discriminate].
  destruct (py_index lo (machine_loads st)) as [kmin|] eqn:Ekmin;
    [|discriminate].
  rewrite (py_index_found _ _ Ekmax), (py_index_found _ _ Ekmin).
  destruct (other_loads _ _ _ _) as [e|others] eqn:Eothers; [discriminate|].
  destruct (py_max others) as [om|] eqn:Eom; [|discriminate].
  destruct (Z.ltb_spec (Z.max (Z.max om (hi - duration t))
                              (lo + duration t)) (makespan st))
    as [Hlt|Hge]; [|discriminate].
  simpl.
  destruct (nth_error (update (schedule st) kmax (remove_nth seq_max idx))
                      kmin) as [seq_min|] eqn:Emin; [|discriminate].
  intros [= <-].
  econstructor; simpl; eauto.
Qed.

(** A move makes the stored makespan strictly smaller. *)
Lemma ls_step_moved_decreases st st' :
  ls_step st = Moved st' -> makespan st' < makespan st.
Proof.
  intros H. apply ls_step_moved in H. destruct H; auto.
Qed.

(** A step that raises leaves loads and makespan as they were. *)
Lemma ls_step_raised st st' e :
  ls_step st = Raised st' e ->
  machine_loads st' = machine_loads st /\ makespan st' = makespan st
  /\ tasks st' = tasks st /\ num_machines st' = num_machines st.
Proof.
  unfold ls_step.
  repeat match goal with
         | |- context [match ?x with _ => _ end] => destruct x
         end;
    intros H; inversion H; subst; simpl; auto.
Qed.

(** A move keeps the object consistent and the total load unchanged. *)
Lemma move_consistent st st' :
  consistent st -> move st st' ->
  consistent st'
  /\ py_sum (machine_loads st') = py_sum (machine_loads st).
Proof.
  intros [Hs Hc Hmk] [].
  pose proof (py_index_found _ _ mv_hi_at) as Hmax.
  pose proof (py_index_found _ _ mv_lo_at) as Hmin.
  pose proof (nth_error_in_range _ _ Hmax) as Hmax_lt.
  pose proof (nth_error_in_range _ _ Hmin) as Hmin_lt.
  pose proof (other_loads_spec _ _ _ _ mv_rest) as Hothers.
  rewrite mv_hi in Hmk. injection Hmk as Hmk.
  destruct (proj1 (py_max_spec _ _) mv_hi) as [_ Hub].
  destruct (proj1 (py_min_spec _ _) mv_lo) as [_ Hlb].
  destruct (proj1 (py_max_spec _ _) mv_rest_max) as [Hom_in Hom_ub].
  destruct (Nat.eq_dec max_machine min_machine) as [E|Hne].
  - (* no move is made from a machine to itself *)
    exfalso. subst min_machine.
    assert (load_min = load_max) by congruence. subst load_min.
    apply Hothers in Hom_in. destruct Hom_in as (i & _ & _ & _ & Hi).
    apply nth_error_In in Hi.
    specialize (Hub _ Hi). specialize (Hlb _ Hi). lia.
  - assert (nth_error (update (machine_loads st) max_machine
                              (load_max - duration task_to_move))
                      min_machine = Some load_min) as Hmin'
        by (rewrite nth_error_update_neq; auto).
    split; [constructor|].
    + rewrite mv_schedule, mv_loads, !update_length. exact Hs.
    + rewrite mv_num_machines, mv_loads, !update_length. exact Hc.
    + rewrite mv_new_makespan, mv_loads. apply py_max_spec. split.
      * set (a := load_max - duration task_to_move) in *.
        set (b := load_min + duration task_to_move) in *.
        assert (Z.max (Z.max others_max a) b = others_max
                \/ Z.max (Z.max others_max a) b = a
                \/ Z.max (Z.max others_max a) b = b) as [->|[->| ->]]
            by lia.
        -- apply Hothers in Hom_in.
           destruct Hom_in as (i & _ & Hi1 & Hi2 & Hi).
           apply nth_error_In with (n := i).
           rewrite !nth_error_update_neq; auto.
        -- apply nth_error_In with (n := max_machine).
           rewrite nth_error_update_neq by auto.
           apply nth_error_update_eq; auto.
        -- apply nth_error_In with (n := min_machine).
           apply nth_error_update_eq. rewrite update_length; auto.
      * intros y Hy. apply In_nth_error in Hy. destruct Hy as [i Hi].
        destruct (Nat.eq_dec i min_machine) as [->|Hi_min].
        { rewrite nth_error_update_eq in Hi
            by (rewrite update_length; auto).
          injection Hi as <-. lia. }
        rewrite nth_error_update_neq in Hi by auto.
        destruct (Nat.eq_dec i max_machine) as [->|Hi_max].
        { rewrite nth_error_update_eq in Hi by auto.
          injection Hi as <-. lia. }
        rewrite nth_error_update_neq in Hi by auto.
        assert (y <= others_max); [|lia].
        apply Hom_ub. apply Hothers. exists i. repeat split; auto.
        unfold py_range. apply in_seq.
        pose proof (nth_error_in_range _ _ Hi). lia.
    + rewrite mv_loads, (py_sum_update _ _ _ Hmin'),
        (py_sum_update _ _ _ Hmax). lia.
Qed.

(** What the loop of [local_search_optimization] guarantees, however it
    ends. *)
Lemma ls_loop_invariant remaining :
  forall iterations st,
    consistent st ->
    let o := ls_loop remaining iterations st in
    py_sum (machine_loads (final_state o)) = py_sum (machine_loads st)
    /\ makespan (final_state o) <= makespan st
    /\ tasks (final_state o) = tasks st
    /\ num_machines (final_state o) = num_machines st
    /\ length (machine_loads (final_state o)) = length (machine_loads st)
    /\ (forall st' mk k, o = Return st' (mk, k) ->
                         mk = makespan st' /\ consistent st'
                         /\ iterations <= k
                            <= iterations + Z.of_nat remaining).
Proof.
  induction remaining as [|r IH]; intros iterations st Hc; simpl.
  - repeat (split; [solve [auto | lia]|]).
    intros st' mk k [= <- <- <-]. split; [|split]; auto; lia.
  - destruct (ls_step st) as [st1 e| |st1] eqn:Estep; simpl.
    + destruct (ls_step_raised _ Estep) as (Hl & Hm & Ht & Hn).
      rewrite Hl, Hm.
      repeat (split; [solve [auto | lia]|]). discriminate.
    + repeat (split; [solve [auto | lia]|]).
      intros st' mk k [= <- <- <-]. split; [|split]; auto; lia.
    + pose proof (ls_step_moved _ Estep) as Hmove.
      destruct (move_consistent Hc Hmove) as [Hc1 Hsum].
      pose proof (ls_step_moved_decreases _ Estep) as Hdec.
      destruct Hmove.
      destruct (IH (iterations + 1) st1 Hc1)
        as (H1 & H2 & H3 & H4 & H5 & H6).
      repeat (split; [solve [congruence | lia]|]).
      split.
      * rewrite H5, mv_loads, !update_length. reflexivity.
      * intros st' mk k Hret.
        destruct (H6 _ _ _ Hret) as (? & ? & ?).
        split; [|split]; auto; lia.
Qed.

Lemma argmax_from_range s :
  forall best_i best_d i,
    argmax_from best_i best_d i s = best_i
    \/ (i <= argmax_from best_i best_d i s < i + length s)%nat.
Proof.
  induction s as [|t rest IH]; intros best_i best_d i; simpl; auto.
  destruct (best_d <? duration t).
  - destruct (IH i (duration t) (S i)) as [->|H]; right; lia.
  - destruct (IH best_i best_d (S i)) as [->|H]; [auto | right; lia].
Qed.

Lemma largest_task_index_range s idx :
  largest_task_index s = Some idx -> (idx < length s)%nat.
Proof.
  destruct s as [|t rest]; [discriminate|]. simpl. intros [= <-].
  destruct (argmax_from_range rest 0 (duration t) 1) as [->|H]; lia.
Qed.

(** With three machines or more, some machine is neither the bottleneck
    nor the target, and no step of the local search raises. *)
Lemma ls_step_no_raise st :
  consistent st -> 3 <= num_machines st ->
  forall st' e, ls_step st <> Raised st' e.
Proof.
  intros [Hs Hc Hmk] Hm st' e. unfold ls_step. rewrite Hmk.
  destruct (proj1 (py_max_spec _ _) Hmk) as [Hin _].
  destruct (py_index_of_member _ _ Hin) as [kmax Ekmax]. rewrite Ekmax.
  pose proof (py_index_found _ _ Ekmax) as Hmax.
  pose proof (nth_error_in_range _ _ Hmax) as Hmax_lt.
  destruct (@nth_error_of_range _ (schedule st) kmax) as [seq_max Eseq];
    [lia|]. rewrite Eseq.
  destruct (largest_task_index seq_max) as [idx|] eqn:Eidx; [|discriminate].
  destruct (@nth_error_of_range _ seq_max idx) as [t Et];
    [eapply largest_task_index_range; eauto|]. rewrite Et.
  destruct (py_min_nonempty (l := machine_loads st)) as [lo Elo].
  { intros E. rewrite E in Hin. exact Hin. }
  rewrite Elo.
  destruct (proj1 (py_min_spec _ _) Elo) as [Hin_lo _].
  destruct (py_index_of_member _ _ Hin_lo) as [kmin Ekmin]. rewrite Ekmin.
  pose proof (py_index_found _ _ Ekmin) as Hmin.
  pose proof (nth_error_in_range _ _ Hmin) as Hmin_lt.
  rewrite Hmax, Hmin.
  destruct (other_loads_defined (machine_loads st) kmax kmin
                                (py_range (num_machines st)))
    as [os Eos].
  { intros i Hi. unfold py_range in Hi. apply in_seq in Hi. lia. }
  rewrite Eos.
  destruct (py_max_nonempty (l := os)) as [om Eom].
  { assert (exists i, (i < 3)%nat /\ i <> kmax /\ i <> kmin)
      as (i & Hi & Hi1 & Hi2).
    { destruct (Nat.eq_dec 0 kmax), (Nat.eq_dec 0 kmin),
        (Nat.eq_dec 1 kmax), (Nat.eq_dec 1 kmin);
        try (exists 0%nat; lia); try (exists 1%nat; lia);
          exists 2%nat; lia. }
    destruct (@nth_error_of_range _ (machine_loads st) i) as [li Eli];
      [lia|].
    assert (In li os) as Hli.
    { apply (other_loads_spec _ _ _ _ Eos). exists i.
      repeat split; auto. unfold py_range. apply in_seq. lia. }
    intros E. rewrite E in Hli. exact Hli. }
  rewrite Eom.
  destruct (_ <? _); [|discriminate]. simpl.
  destruct (@nth_error_of_range _
              (update (schedule st) kmax (remove_nth seq_max idx)) kmin)
    as [seq_min Emin]; [rewrite update_length; lia|].
  rewrite Emin. discriminate.
Qed.

Lemma ls_loop_returns remaining :
  forall iterations st,
    consistent st -> 3 <= num_machines st ->
    exists st' mk k, ls_loop remaining iterations st = Return st' (mk, k).
Proof.
  induction remaining as [|r IH]; intros iterations st Hc Hm; simpl; eauto.
  destruct (ls_step st) as [st1 e| |st1] eqn:Estep; eauto.
  - exfalso. exact (ls_step_no_raise Hc Hm Estep).
  - pose proof (ls_step_moved _ Estep) as Hmove.
    destruct (move_consistent Hc Hmove) as [Hc1 _].
    apply IH; auto. destruct Hmove. congruence.
Qed.

(** * Properties of the specification *)

(** ** Conservation of work *)

(** C1. Whatever the durations, with at least one machine [lpt_schedule]
    returns, and the loads of the [m] machines then add up to the sum of
    the task durations; they still do in the state in which
    [local_search_optimization] leaves the object, for every iteration
    cap, whether the call returns or raises. *)
Theorem conservation (ts : list Z) (m cap : Z) (t_start t_end : Q)
        (st : TaskScheduler) :
  1 <= m -> tasks st = ts -> num_machines st = m ->
  exists st1 v,
    lpt_schedule t_start t_end st = Return st1 v
    /\ length (machine_loads st1) = Z.to_nat m
    /\ py_sum (machine_loads st1) = py_sum ts
    /\ length (machine_loads
                 (final_state (local_search_optimization cap st1)))
       = Z.to_nat m
    /\ py_sum (machine_loads
                 (final_state (local_search_optimization cap st1)))
       = py_sum ts.
Proof.
  intros Hm Hts Hnm. subst ts m.
  destruct (lpt_schedule_returns t_start t_end st Hm)
    as (st1 & Hret & Hg & Hmx & Ht & Hn & _).
  pose proof (lpt_schedule_consistent _ _ _ Hm Hret) as Hc.
  exists st1, (schedule st1, makespan st1, execution_time st1).
  pose proof (greedy_assign_sum Hg) as Hsum. simpl in Hsum.
  rewrite py_sum_repeat_zero, sorted_desc_durations in Hsum.
  destruct (ls_loop_invariant (Z.to_nat cap) 0 Hc)
    as (H1 & _ & _ & _ & H5 & _).
  pose proof (c_count Hc) as Hlen. rewrite Hn in Hlen.
  unfold local_search_optimization.
  split; [exact Hret|]. split; [lia|]. split; [lia|]. split; lia.
Qed.

Lemma conservation_witness :
  exists st1 v,
    lpt_schedule 0 1 (fresh [10; 5; 8; 7; 12; 15; 6; 9; 11; 4] 3)
    = Return st1 v
    /\ length (machine_loads st1) = 3%nat
    /\ py_sum (machine_loads st1) = 87
    /\ length (machine_loads
                 (final_state (local_search_optimization 100 st1)))
       = 3%nat
    /\ py_sum (machine_loads
                 (final_state (local_search_optimization 100 st1)))
       = 87.
Proof.
  apply (@conservation [10; 5; 8; 7; 12; 15; 6; 9; 11; 4] 3 100 0 1
                       (fresh [10; 5; 8; 7; 12; 15; 6; 9; 11; 4] 3));
    [lia | reflexivity | reflexivity].
Defined.

(** ** The greedy assignment *)

(** C2. With at least one machine, [lpt_schedule] takes the tasks in
    descending order of duration, equal durations in ascending order of
    input position (the order lists every input task once); it places
    them one after the other on the machine of minimum load at that
    moment, the lowest machine identifier among equal loads; the
    makespan it stores and returns is the maximum load, and the schedule
    has [m] sequences. *)
Theorem lpt_schedule_greedy (ts : list Z) (m : Z) (t_start t_end : Q)
        (st : TaskScheduler) :
  1 <= m -> tasks st = ts -> num_machines st = m ->
  StronglySorted lpt_before (sorted_desc (enumerate ts))
  /\ (forall i d, In (i, d) (sorted_desc (enumerate ts))
                  <-> nth_error ts i = Some d)
  /\ length (sorted_desc (enumerate ts)) = length ts
  /\ exists st',
      lpt_schedule t_start t_end st
      = Return st' (schedule st', makespan st', execution_time st')
      /\ greedy_assign (sorted_desc (enumerate ts))
                       (repeat [] (Z.to_nat m), repeat 0 (Z.to_nat m))
                       (schedule st', machine_loads st')
      /\ py_max (machine_loads st') = Some (makespan st')
      /\ length (schedule st') = Z.to_nat m
      /\ length (machine_loads st') = Z.to_nat m.
Proof.
  intros Hm Hts Hnm. subst ts m.
  split; [apply sorted_desc_enumerate_from|].
  split.
  { intros i d. rewrite <- enumerate_in. split; apply Permutation_in.
    - apply Permutation_sym, sorted_desc_perm.
    - apply sorted_desc_perm. }
  split.
  { rewrite <- (Permutation_length (sorted_desc_perm _)).
    rewrite <- (enumerate_from_durations 0 (tasks st)) at 2.
    rewrite length_map. reflexivity. }
  destruct (lpt_schedule_returns t_start t_end st Hm)
    as (st1 & Hret & Hg & Hmx & Ht & Hn & _).
  pose proof (lpt_schedule_consistent _ _ _ Hm Hret) as [Hs Hc _].
  unfold py_range in Hg.
  rewrite map_const_repeat, length_seq in Hg.
  exists st1. repeat split; auto; congruence.
Qed.

Lemma lpt_schedule_greedy_witness :
  StronglySorted lpt_before (sorted_desc (enumerate [5; 7; 5; 7]))
  /\ (forall i d, In (i, d) (sorted_desc (enumerate [5; 7; 5; 7]))
                  <-> nth_error [5; 7; 5; 7] i = Some d)
  /\ length (sorted_desc (enumerate [5; 7; 5; 7])) = 4%nat
  /\ exists st',
      lpt_schedule 0 1 (fresh [5; 7; 5; 7] 2)
      = Return st' (schedule st', makespan st', execution_time st')
      /\ greedy_assign (sorted_desc (enumerate [5; 7; 5; 7]))
                       (repeat [] 2, repeat 0 2)
                       (schedule st', machine_loads st')
      /\ py_max (machine_loads st') = Some (makespan st')
      /\ length (schedule st') = 2%nat
      /\ length (machine_loads st') = 2%nat.
Proof.
  apply (@lpt_schedule_greedy [5; 7; 5; 7] 2 0 1 (fresh [5; 7; 5; 7] 2));
    [lia | reflexivity | reflexivity].
Defined.

(** On the worked trace of the specification the order and the loads
    are these, and the local search finds nothing to move. *)
Example worked_trace :
  sorted_desc (enumerate [10; 5; 8; 7; 12; 15; 6; 9; 11; 4])
  = [tk 5 15; tk 4 12; tk 8 11; tk 0 10; tk 7 9; tk 2 8; tk 3 7; tk 6 6;
     tk 1 5; tk 9 4]
  /\ lpt_schedule 0 1 (fresh [10; 5; 8; 7; 12; 15; 6; 9; 11; 4] 3)
     = Return worked_trace_state (schedule worked_trace_state, 31, 1%Q)
  /\ local_search_optimization 100 worked_trace_state
     = Return worked_trace_state (31, 0).
Proof.
  repeat split; vm_compute; reflexivity.
Qed.

(** The balanced case: loads [[10; 10]] and no iteration performed. *)
Example balanced_case :
  lpt_schedule 0 1 (fresh [5; 5; 5; 5] 2)
  = Return balanced_state (schedule balanced_state, 10, 1%Q)
  /\ local_search_optimization 100 balanced_state
     = Return balanced_state (10, 0).
Proof.
  split; vm_compute; reflexivity.
Qed.

(** ** Local search never worsens the makespan *)

(** After [lpt_schedule], for every iteration cap, the makespan stored
    when [local_search_optimization] ends is at most the one
    [lpt_schedule] returned, and a makespan that the call returns is
    that stored value; with three machines or more the call does
    return.  Every move that a step makes lowers the stored makespan
    strictly. *)
Lemma stored_makespan_never_grows (ts : list Z) (m cap : Z) (t_start t_end : Q)
        (st : TaskScheduler) :
  1 <= m -> tasks st = ts -> num_machines st = m ->
  (exists st1 sched mk t,
      lpt_schedule t_start t_end st = Return st1 (sched, mk, t)
      /\ makespan (final_state (local_search_optimization cap st1)) <= mk
      /\ (forall st2 mk' its,
             local_search_optimization cap st1 = Return st2 (mk', its) ->
             mk' = makespan st2 /\ mk' <= mk)
      /\ (3 <= m ->
          exists st2 mk' its,
            local_search_optimization cap st1 = Return st2 (mk', its)))
  /\ (forall s s', ls_step s = Moved s' -> makespan s' < makespan s).
Proof.
  intros Hm Hts Hnm. subst ts m.
  split; [|intros s s'; apply ls_step_moved_decreases].
  destruct (lpt_schedule_returns t_start t_end st Hm)
    as (st1 & Hret & _ & _ & _ & Hn & _).
  pose proof (lpt_schedule_consistent _ _ _ Hm Hret) as Hc.
  exists st1, (schedule st1), (makespan st1), (execution_time st1).
  destruct (ls_loop_invariant (Z.to_nat cap) 0 Hc)
    as (_ & Hle & _ & _ & _ & Hret2).
  unfold local_search_optimization.
  split; [exact Hret|]. split; [exact Hle|]. split.
  - intros st2 mk' its E. destruct (Hret2 _ _ _ E) as (-> & _ & _).
    rewrite E in Hle. simpl in Hle. auto.
  - intros H3. apply ls_loop_returns; auto. lia.
Qed.

Lemma stored_makespan_never_grows_example :
  (exists st1 sched mk t,
      lpt_schedule 0 1 (fresh [7; 7; 6; 6; 5; 4; 4; 4; 4; 4] 4)
      = Return st1 (sched, mk, t)
      /\ makespan (final_state (local_search_optimization 100 st1)) <= mk
      /\ (forall st2 mk' its,
             local_search_optimization 100 st1 = Return st2 (mk', its) ->
             mk' = makespan st2 /\ mk' <= mk)
      /\ (3 <= 4 ->
          exists st2 mk' its,
            local_search_optimization 100 st1 = Return st2 (mk', its)))
  /\ (forall s s', ls_step s = Moved s' -> makespan s' < makespan s).
Proof.
  apply (@stored_makespan_never_grows [7; 7; 6; 6; 5; 4; 4; 4; 4; 4] 4 100 0 1
           (fresh [7; 7; 6; 6; 5; 4; 4; 4; 4; 4] 4));
    [lia | reflexivity | reflexivity].
Defined.

(** C4, at the tasks [[5; 3]] on two machines: [lpt_schedule] returns
    makespan 5, and [local_search_optimization] with cap 10 then raises
    [ValueError] at its first pass, so that it returns no makespan to
    set against 5.  The object keeps makespan 5, and with cap 0 the
    call returns [(5, 0)]. *)
Theorem monotonic_improvement_fails :
  lpt_schedule 0 1 (fresh [5; 3] 2)
  = Return two_tasks_two_machines ([[tk 0 5]; [tk 1 3]], 5, 1%Q)
  /\ local_search_optimization 10 two_tasks_two_machines
     = Raise two_tasks_two_machines ValueError
  /\ ~ (exists st mk its,
          local_search_optimization 10 two_tasks_two_machines
          = Return st (mk, its))
  /\ makespan two_tasks_two_machines = 5
  /\ local_search_optimization 0 two_tasks_two_machines
     = Return two_tasks_two_machines (5, 0).
Proof.
  assert (local_search_optimization 10 two_tasks_two_machines
          = Raise two_tasks_two_machines ValueError) as Hraise
      by (vm_compute; reflexivity).
  split; [vm_compute; reflexivity|]. split; [exact Hraise|].
  split; [|split; [reflexivity | vm_compute; reflexivity]].
  intros (st & mk & its & H). rewrite Hraise in H. discriminate.
Qed.

(** There the longest task of machine 0 goes to machine 1 and the
    makespan falls from 6 to 4; the next step finds no improvement. *)
Example unbalanced_moves :
  ls_step unbalanced
  = Moved (mkScheduler [2; 2; 2; 1; 3] 3
                       [[tk 1 2; tk 2 2]; [tk 3 1; tk 0 2]; [tk 4 3]]
                       [4; 3; 3] 4 0)
  /\ local_search_optimization 100 unbalanced
     = Return (mkScheduler [2; 2; 2; 1; 3] 3
                 [[tk 1 2; tk 2 2]; [tk 3 1; tk 0 2]; [tk 4 3]]
                 [4; 3; 3] 4 0) (4, 1).
Proof.
  split; vm_compute; reflexivity.
Qed.

(** ** When no machine is left over *)

Lemma ls_loop_first_step_raises remaining iterations st e :
  ls_step st = Raised st e ->
  ls_loop (S remaining) iterations st = Raise st e.
Proof.
  intros H. simpl. rewrite H. reflexivity.
Qed.

Lemma positive_cap cap : 0 < cap -> exists r, Z.to_nat cap = S r.
Proof.
  intros H. exists (Nat.pred (Z.to_nat cap)). lia.
Qed.

(** C5. Two machines with unequal loads, the more loaded one holding a
    task: every index of [range(2)] is the bottleneck or the least
    loaded machine, the inner [max] receives no item, and
    [local_search_optimization] raises [ValueError] for every positive
    cap, leaving the object as it was. *)
Theorem two_machines_unequal_loads_raise (st : TaskScheduler) (cap a b : Z)
        (s0 s1 : list task) :
  num_machines st = 2 ->
  machine_loads st = [a; b] ->
  schedule st = [s0; s1] ->
  a <> b ->
  (if a <? b then s1 else s0) <> [] ->
  0 < cap ->
  local_search_optimization cap st = Raise st ValueError.
Proof.
  intros Hn Hl Hs Hab Hseq Hcap.
  destruct (positive_cap Hcap) as [r Hr].
  unfold local_search_optimization. rewrite Hr.
  apply ls_loop_first_step_raises.
  unfold ls_step. rewrite Hl, Hs, Hn. simpl.
  destruct (Z.ltb_spec a b) as [Hlt|Hge].
  - replace (Z.max a b) with b by lia. replace (Z.min a b) with a by lia.
    destruct (Z.eqb_spec a b) as [->|_]; [lia|].
    rewrite !Z.eqb_refl. simpl.
    destruct (largest_task_index s1) as [idx|] eqn:Eidx.
    + destruct (@nth_error_of_range _ s1 idx) as [t ->];
        [eapply largest_task_index_range; eauto|].
      reflexivity.
    + destruct s1; [congruence | discriminate].
  - replace (Z.max a b) with a by lia. replace (Z.min a b) with b by lia.
    rewrite Z.eqb_refl.
    destruct (Z.eqb_spec a b) as [->|_]; [lia|].
    rewrite Z.eqb_refl. simpl.
    destruct (largest_task_index s0) as [idx|] eqn:Eidx.
    + destruct (@nth_error_of_range _ s0 idx) as [t ->];
        [eapply largest_task_index_range; eauto|].
      reflexivity.
    + destruct s0; [congruence | discriminate].
Qed.

(** The example of the claim: the single task [[3]] on two machines. *)
Example one_task_two_machines_reached :
  lpt_schedule 0 1 (fresh [3] 2)
  = Return one_task_two_machines ([[tk 0 3]; []], 3, 1%Q).
Proof. vm_compute; reflexivity. Qed.

Lemma two_machines_unequal_loads_raise_witness :
  local_search_optimization 1 one_task_two_machines
  = Raise one_task_two_machines ValueError.
Proof.
  apply (@two_machines_unequal_loads_raise one_task_two_machines 1 3 0
           [tk 0 3] []);
    [reflexivity | reflexivity | reflexivity | lia
     | simpl; discriminate | lia].
Defined.

(** ** A single machine *)

(** On one machine the greedy assignment lines the tasks up in their
    processing order. *)
Lemma greedy_assign_single ts :
  forall s x a',
    greedy_assign ts ([s], [x]) a' ->
    a' = ([s ++ ts], [x + py_sum (map duration ts)]).
Proof.
  induction ts as [|t rest IH]; intros s x a' H; inversion H; subst.
  - simpl. rewrite app_nil_r, Z.add_0_r. reflexivity.
  - match goal with
    | [ Hl : nth_error [x] ?k = Some ?l |- _ ] =>
      destruct k as [|k]; [|destruct k; discriminate];
        simpl in Hl; injection Hl as <-
    end.
    match goal with
    | [ Hs : nth_error [s] 0 = Some _ |- _ ] =>
      simpl in Hs; injection Hs as <-
    end.
    match goal with
    | [ Hg : greedy_assign rest _ _ |- _ ] => simpl in Hg; apply IH in Hg
    end.
    subst a'. simpl. rewrite <- app_assoc. simpl.
    rewrite Z.add_assoc. reflexivity.
Qed.

(** With one machine the makespan after [lpt_schedule] is the total
    work, and with a task to schedule and a positive cap
    [local_search_optimization] raises [ValueError]: machine [0] is the
    bottleneck and the target at once, and the inner [max] receives no
    item. *)
Lemma single_machine_raises t_start t_end cap st :
  num_machines st = 1 -> tasks st <> [] -> 0 < cap ->
  exists st1,
    lpt_schedule t_start t_end st
    = Return st1 (schedule st1, py_sum (tasks st), execution_time st1)
    /\ makespan st1 = py_sum (tasks st)
    /\ local_search_optimization cap st1 = Raise st1 ValueError.
Proof.
  intros Hn Hts Hcap.
  destruct (lpt_schedule_returns t_start t_end st)
    as (st1 & Hret & Hg & Hmx & Ht & Hn1 & _); [lia|].
  rewrite Hn in Hg. simpl in Hg.
  apply greedy_assign_single in Hg. simpl in Hg.
  injection Hg as Hs Hl.
  rewrite sorted_desc_durations in Hl.
  rewrite Hl in Hmx. simpl in Hmx. injection Hmx as Hmk.
  exists st1. rewrite Hmk. split; [exact Hret|].
  split; [reflexivity|].
  destruct (positive_cap Hcap) as [r Hr].
  unfold local_search_optimization. rewrite Hr.
  apply ls_loop_first_step_raises.
  unfold ls_step. rewrite Hl, Hs, Hn1, Hn. simpl.
  rewrite Z.eqb_refl. simpl.
  destruct (largest_task_index _) as [idx|] eqn:Eidx.
  - destruct (@nth_error_of_range _
                (sorted_desc (enumerate (tasks st))) idx) as [t ->];
      [eapply largest_task_index_range; eauto|].
    reflexivity.
  - exfalso. destruct (sorted_desc (enumerate (tasks st))) eqn:E;
      [|discriminate].
    apply (f_equal (@length task)) in E.
    rewrite <- (Permutation_length (sorted_desc_perm _)) in E.
    rewrite <- (enumerate_from_durations 0 (tasks st)) in Hts.
    unfold enumerate in E. destruct (enumerate_from 0 (tasks st));
      [apply Hts; reflexivity | discriminate].
Qed.

(** C6, at the tasks [[4; 2; 7]] on one machine with the default cap of
    100: the makespan after [lpt_schedule] is the total work 13, and
    [local_search_optimization] then raises [ValueError] instead of
    returning with 0 iterations. *)
Theorem single_machine_local_search_fails :
  lpt_schedule 0 1 (fresh [4; 2; 7] 1)
  = Return three_tasks_one_machine
           ([[tk 2 7; tk 0 4; tk 1 2]], 13, 1%Q)
  /\ makespan three_tasks_one_machine = py_sum [4; 2; 7]
  /\ local_search_optimization 100 three_tasks_one_machine
     = Raise three_tasks_one_machine ValueError
  /\ local_search_optimization 0 three_tasks_one_machine
     = Return three_tasks_one_machine (13, 0).
Proof.
  repeat split; vm_compute; reflexivity.
Qed.

(** ** Statistics of an empty task list *)

(** Before [max(self.tasks)] is reached, the method divides the total
    work by the machine count and takes the variance and the standard
    deviation of the loads.  On idle machines none of these raises. *)
Lemma int_truediv_zero m :
  m <> 0 -> exists s, int_truediv 0 m = inr (S754_zero s).
Proof.
  intros Hm. unfold int_truediv.
  destruct (Z.eqb_spec m 0) as [|_]; [contradiction|].
  destruct m as [|p|p]; [contradiction| |]; simpl; eauto.
Qed.

Lemma py_sum_zeros l : Forall (fun load => load = 0) l -> py_sum l = 0.
Proof.
  induction 1 as [|x l Hx _ IH]; simpl; [reflexivity | lia].
Qed.

Lemma py_sum_squares_zeros l :
  Forall (fun load => load = 0) l -> py_sum (map (fun x => x * x) l) = 0.
Proof.
  induction 1 as [|x l Hx _ IH]; simpl; [reflexivity | nia].
Qed.

Lemma Qred_zero (q : Q) : (q == 0)%Q -> Qred q = (0 # 1)%Q.
Proof.
  intros H. rewrite (Qred_complete _ _ H). reflexivity.
Qed.

Lemma mean_square_zeros l :
  Forall (fun load => load = 0) l ->
  Qred (ss l / ((Z.of_nat (length l) - 1) # 1)) = (0 # 1)%Q.
Proof.
  intros H. apply Qred_zero. unfold ss.
  rewrite (py_sum_zeros H), (py_sum_squares_zeros H).
  destruct (Z.of_nat (length l)) as [|c|c]; [reflexivity| |reflexivity].
  unfold Qdiv, Qmult, Qeq. simpl. lia.
Qed.

Lemma variance_zeros l :
  Forall (fun load => load = 0) l -> (1 < length l)%nat ->
  variance l = inr (PyInt 0).
Proof.
  intros H Hlen. unfold variance.
  destruct (Z.ltb_spec (Z.of_nat (length l)) 2) as [|_]; [lia|].
  unfold denominator, numerator. rewrite (mean_square_zeros H).
  reflexivity.
Qed.

Lemma stdev_zeros l :
  Forall (fun load => load = 0) l -> (1 < length l)%nat ->
  stdev l = inr (S754_zero false).
Proof.
  intros H Hlen. unfold stdev.
  destruct (Z.ltb_spec (Z.of_nat (length l)) 2) as [|_]; [lia|].
  unfold denominator, numerator. rewrite (mean_square_zeros H).
  vm_compute. reflexivity.
Qed.

Lemma traverse_returns {A B : Type} (f : A -> B) (l : list A) :
  traverse (fun a => inr (f a)) l = inr (map f l).
Proof.
  induction l as [|a l IH]; simpl; [reflexivity|].
  rewrite IH. reflexivity.
Qed.

(** Without tasks, on idle machines and with makespan 0, the first call
    that raises is [max(self.tasks)], with [ValueError]. *)
Lemma calculate_statistics_no_tasks st :
  tasks st = [] -> num_machines st <> 0 ->
  Forall (fun load => load = 0) (machine_loads st) -> makespan st = 0 ->
  calculate_statistics st = Raise st ValueError.
Proof.
  intros Ht Hn Hloads Hmk. unfold calculate_statistics.
  rewrite Ht, Hmk. simpl py_sum.
  destruct (int_truediv_zero Hn) as [s ->].
  change (0 <? 0) with false. cbv iota.
  rewrite (traverse_returns (fun _ => PyInt 0)).
  destruct (Nat.ltb_spec 1 (length (machine_loads st))) as [Hlen|_].
  - rewrite (variance_zeros Hloads Hlen), (stdev_zeros Hloads Hlen).
    reflexivity.
  - reflexivity.
Qed.

(** C7, at the empty task list on three machines: [lpt_schedule] gives
    makespan 0 and three empty sequences, and [calculate_statistics]
    then raises [ValueError] instead of returning the statistics. *)
Theorem empty_input_statistics_fail :
  lpt_schedule 0 1 (fresh [] 3)
  = Return no_task_three_machines ([[]; []; []], 0, 1%Q)
  /\ schedule no_task_three_machines = [[]; []; []]
  /\ makespan no_task_three_machines = 0
  /\ calculate_statistics no_task_three_machines
     = Raise no_task_three_machines ValueError.
Proof.
  split; [vm_compute; reflexivity|].
  split; [reflexivity|]. split; [reflexivity|].
  apply calculate_statistics_no_tasks;
    [reflexivity | discriminate | repeat constructor | reflexivity].
Qed.

(** ** The statistics on three schedules *)

(** The range of the floats ends between these two integers: the first
    is converted to the largest float, the second is not converted. *)
Example float_range :
  float_of_int (2 ^ 1024 - 2 ^ 970 - 1)
  = inr (binary64 9007199254740991 971)
  /\ float_of_int (2 ^ 1024 - 2 ^ 970) = inl OverflowError
  /\ int_truediv (2 ^ 1025 - 2 ^ 971) 2 = inl OverflowError
  /\ int_truediv 7 3 = inr (binary64 5254199565265579 (-51))
  /\ int_truediv 0 (-3) = inr (S754_zero true).
Proof.
  repeat split; vm_compute; reflexivity.
Qed.

(** On the worked trace of the specification the method returns average
    load 29.0, standard deviation 1.7320508075688772, variance 3 (an
    [int]), utilizations 90.32258064516128 (twice) and 100.0, average
    utilization and efficiency 93.54838709677419, lower bound 29.0 and
    approximation ratio 1.0689655172413792. *)
Example worked_trace_statistics :
  calculate_statistics worked_trace_state
  = Return worked_trace_state
           (mkStatistics
              10 3 87 31
              (binary64 8162774324609024 (-48))
              (PyFloat (binary64 7800463371553962 (-52)))
              (PyInt 3)
              28 31
              [PyFloat (binary64 6355886570885780 (-46));
               PyFloat (binary64 6355886570885780 (-46));
               PyFloat (binary64 7036874417766400 (-46))]
              (PyFloat (binary64 6582882519845987 (-46)))
              (PyFloat (binary64 6582882519845987 (-46)))
              (PyFloat (binary64 8162774324609024 (-48)))
              (binary64 4814192705120185 (-52))
              1).
Proof.
  vm_compute. reflexivity.
Qed.

(** Seven tasks of duration 1 on three machines: the loads are 3, 2 and
    2, the average load is 2.3333333333333335, the variance
    0.3333333333333333, and rounding leaves the average utilization,
    77.77777777777777, one unit in the last place under the efficiency,
    77.77777777777779. *)
Example seven_unit_tasks_statistics :
  lpt_schedule 0 1 (fresh [1; 1; 1; 1; 1; 1; 1] 3)
  = Return seven_unit_tasks (schedule seven_unit_tasks, 3, 1%Q)
  /\ calculate_statistics seven_unit_tasks
     = Return seven_unit_tasks
              (mkStatistics
                 7 3 7 3
                 (binary64 5254199565265579 (-51))
                 (PyFloat (binary64 5200308914369308 (-53)))
                 (PyFloat (binary64 6004799503160661 (-54)))
                 2 3
                 [PyFloat (binary64 7036874417766400 (-46));
                  PyFloat (binary64 4691249611844266 (-46));
                  PyFloat (binary64 4691249611844266 (-46))]
                 (PyFloat (binary64 5473124547151644 (-46)))
                 (PyFloat (binary64 5473124547151645 (-46)))
                 (PyFloat (binary64 5254199565265579 (-51)))
                 (binary64 5790342378047780 (-52))
                 1).
Proof.
  split; vm_compute; reflexivity.
Qed.

(** One task of duration [10 ^ 400] on one machine: [lpt_schedule]
    returns, and [calculate_statistics] raises [OverflowError] when it
    divides the total work by the machine count. *)
Example one_huge_task_statistics :
  lpt_schedule 0 1 (fresh [10 ^ 400] 1)
  = Return one_huge_task (schedule one_huge_task, 10 ^ 400, 1%Q)
  /\ int_truediv (py_sum (tasks one_huge_task)) (num_machines one_huge_task)
     = inl OverflowError
  /\ calculate_statistics one_huge_task = Raise one_huge_task OverflowError.
Proof.
  repeat split; vm_compute; reflexivity.
Qed.

(** ** Construction *)

(** C8, as the specification has it, fails at the tasks [[5; -1]] with
    no machine: the constructor returns an object. *)
Lemma construction_unchecked_counterexample :
  init [5; -1] 0 = inr (mkScheduler [5; -1] 0 [] [] 0 0)
  /\ ~ (exists e, init [5; -1] 0 = inl e).
Proof.
  split; [reflexivity|]. intros [e H]. discriminate.
Qed.

(** C8, amended. The constructor tests nothing: for every task list and
    every machine count it returns an object holding both, with one
    empty sequence and one zero load per machine (none when the count
    is not positive) and makespan 0. *)
Theorem construction_always_succeeds (ts : list Z) (m : Z) :
  exists st,
    init ts m = inr st
    /\ tasks st = ts
    /\ num_machines st = m
    /\ schedule st = repeat [] (Z.to_nat m)
    /\ machine_loads st = repeat 0 (Z.to_nat m)
    /\ makespan st = 0.
Proof.
  eexists. split; [reflexivity|]. simpl. repeat split.
  unfold py_range. rewrite map_const_repeat, length_seq. reflexivity.
Qed.

(** The invalid configuration shows only when [lpt_schedule] runs:
    without a machine the first [heappop] raises [IndexError], or
    [max] of no load raises [ValueError] when there is no task. *)
Example no_machine_lpt_schedule :
  lpt_schedule 0 1 (fresh [5; 1] 0) = Raise (fresh [5; 1] 0) IndexError
  /\ lpt_schedule 0 1 (fresh [] 0) = Raise (fresh [] 0) ValueError.
Proof.
  split; vm_compute; reflexivity.
Qed.

(** ** The move policy of the local search *)

(** [l.index(max(l))] is the bottleneck and [l.index(min(l))] the least
    loaded machine. *)
Lemma py_index_max_bottleneck l hi k :
  py_max l = Some hi -> py_index hi l = Some k -> bottleneck l k.
Proof.
  intros Hmax Hk. apply py_max_spec in Hmax. destruct Hmax as [_ Hub].
  apply py_index_spec in Hk. destruct Hk as [Hk Hfirst].
  exists hi. split; auto. intros i li Hi.
  pose proof (Hub _ (nth_error_In _ _ Hi)).
  destruct (Z.eq_dec li hi) as [->|]; [|lia].
  right. split; auto.
  destruct (le_lt_dec k i); auto. exfalso. exact (Hfirst i l0 Hi).
Qed.

Lemma py_index_min_least_loaded l lo k :
  py_min l = Some lo -> py_index lo l = Some k -> least_loaded l k.
Proof.
  intros Hmin Hk. apply py_min_spec in Hmin. destruct Hmin as [_ Hlb].
  apply py_index_spec in Hk. destruct Hk as [Hk Hfirst].
  exists lo. split; auto. intros i li Hi.
  pose proof (Hlb _ (nth_error_In _ _ Hi)).
  destruct (Z.eq_dec li lo) as [->|]; [|lia].
  right. split; auto.
  destruct (le_lt_dec k i); auto. exfalso. exact (Hfirst i l0 Hi).
Qed.

Lemma argmax_from_first s :
  forall best_i best_d i,
    let r := argmax_from best_i best_d i s in
    (r = best_i
     /\ forall j u, nth_error s j = Some u -> duration u <= best_d)
    \/ ((i <= r)%nat
        /\ exists t, nth_error s (r - i) = Some t
             /\ best_d < duration t
             /\ forall j u, nth_error s j = Some u ->
                            duration u < duration t
                            \/ (duration u = duration t
                                /\ (r <= i + j)%nat)).
Proof.
  induction s as [|t0 rest IH]; intros best_i best_d i; simpl.
  - left. split; auto. intros [|j] u; discriminate.
  - destruct (Z.ltb_spec best_d (duration t0)) as [Hlt|Hge].
    + right.
      destruct (IH i (duration t0) (S i)) as [[Hr Hall]|(Hr & t & Ht & Hd & Hall)].
      * rewrite Hr. split; [lia|]. exists t0.
        rewrite Nat.sub_diag. simpl. repeat split; auto.
        intros [|j] u Hu; simpl in Hu.
        -- injection Hu as <-. right. split; auto. lia.
        -- specialize (Hall _ _ Hu).
           destruct (Z.eq_dec (duration u) (duration t0));
             [right; split; auto; lia | left; lia].
      * split; [lia|]. exists t.
        replace (argmax_from i (duration t0) (S i) rest - i)%nat
          with (S (argmax_from i (duration t0) (S i) rest - S i))
          by lia.
        simpl. repeat split; auto; [lia|].
        intros [|j] u Hu; simpl in Hu.
        -- injection Hu as <-. left. lia.
        -- destruct (Hall _ _ Hu) as [|[? ?]]; [left; auto|].
           right. split; auto. lia.
    + destruct (IH best_i best_d (S i)) as [[Hr Hall]|(Hr & t & Ht & Hd & Hall)].
      * left. split; auto.
        intros [|j] u Hu; simpl in Hu.
        -- injection Hu as <-. lia.
        -- eauto.
      * right. split; [lia|]. exists t.
        replace (argmax_from best_i best_d (S i) rest - i)%nat
          with (S (argmax_from best_i best_d (S i) rest - S i))
          by lia.
        simpl. repeat split; auto.
        intros [|j] u Hu; simpl in Hu.
        -- injection Hu as <-. left. lia.
        -- destruct (Hall _ _ Hu) as [|[? ?]]; [left; auto|].
           right. split; auto. lia.
Qed.

Lemma largest_task_index_first s idx :
  largest_task_index s = Some idx -> first_largest s idx.
Proof.
  destruct s as [|t0 rest]; [discriminate|]. simpl. intros [= <-].
  destruct (argmax_from_first rest 0 (duration t0) 1)
    as [[Hr Hall]|(Hr & t & Ht & Hd & Hall)].
  - rewrite Hr. exists t0. split; auto.
    intros [|j] u Hu; simpl in Hu.
    + injection Hu as <-. right. split; auto.
    + specialize (Hall _ _ Hu).
      destruct (Z.eq_dec (duration u) (duration t0));
        [right; split; auto; lia | left; lia].
  - exists t.
    destruct (argmax_from 0 (duration t0) 1 rest) as [|r] eqn:E; [lia|].
    simpl in *. rewrite Nat.sub_0_r in Ht. split; auto.
    intros [|j] u Hu; simpl in Hu.
    + injection Hu as <-. left. lia.
    + destruct (Hall _ _ Hu) as [|[? ?]]; [left; auto|].
      right. split; auto.
Qed.

Lemma fold_max_swap t x y :
  fold_left Z.max t (Z.max y x) = Z.max (fold_left Z.max t x) y.
Proof.
  revert x; induction t as [|z t IH]; intros x; simpl; [lia|].
  replace (Z.max (Z.max y x) z) with (Z.max y (Z.max x z)) by lia.
  apply IH.
Qed.

(** The code follows that policy, except that it raises [ValueError]
    where the policy has no other machine to look at. *)
Lemma ls_step_policy st :
  ls_step st = policy_step st \/ ls_step st = Raised st ValueError.
Proof.
  unfold ls_step, policy_step.
  destruct (py_max (machine_loads st)) as [hi|]; auto.
  destruct (py_index hi (machine_loads st)) as [kmax|]; auto.
  destruct (nth_error (schedule st) kmax) as [seq_max|]; auto.
  destruct (largest_task_index seq_max) as [idx|]; auto.
  destruct (nth_error seq_max idx) as [t|]; auto.
  destruct (py_min (machine_loads st)) as [lo|]; auto.
  destruct (py_index lo (machine_loads st)) as [kmin|]; auto.
  destruct (nth_error (machine_loads st) kmax) as [load_max|]; auto.
  destruct (nth_error (machine_loads st) kmin) as [load_min|]; auto.
  destruct (other_loads _ _ _ _) as [e|[|x others]]; auto.
  left. unfold hypothetical_makespan, py_max.
  simpl fold_left. rewrite fold_max_swap.
  replace (Z.max (fold_left Z.max others x)
                 (Z.max (load_max - duration t) (load_min + duration t)))
    with (Z.max (Z.max (fold_left Z.max others x)
                       (load_max - duration t))
                (load_min + duration t)) by lia.
  reflexivity.
Qed.

(** With three machines or more the code and the policy agree. *)
Lemma ls_step_policy_three st :
  consistent st -> 3 <= num_machines st -> ls_step st = policy_step st.
Proof.
  intros Hc Hm. destruct (ls_step_policy st) as [H|H]; auto.
  exfalso. exact (ls_step_no_raise Hc Hm H).
Qed.

(** What a move of the code consists of, in the words of the
    specification. *)
Lemma move_follows_policy st st' :
  move st st' ->
  exists max_machine min_machine idx t load_max load_min others,
    bottleneck (machine_loads st) max_machine
    /\ least_loaded (machine_loads st) min_machine
    /\ nth_error (machine_loads st) max_machine = Some load_max
    /\ nth_error (machine_loads st) min_machine = Some load_min
    /\ (exists seq_max, nth_error (schedule st) max_machine = Some seq_max
                        /\ first_largest seq_max idx
                        /\ nth_error seq_max idx = Some t)
    /\ (forall x, In x others <->
                  exists i, (i < Z.to_nat (num_machines st))%nat
                            /\ i <> max_machine /\ i <> min_machine
                            /\ nth_error (machine_loads st) i = Some x)
    /\ makespan st'
       = hypothetical_makespan others (load_max - duration t)
                               (load_min + duration t)
    /\ makespan st' < makespan st.
Proof.
  intros [].
  exists max_machine, min_machine, largest_task_idx, task_to_move,
    load_max, load_min, others.
  split; [eapply py_index_max_bottleneck; eauto|].
  split; [eapply py_index_min_least_loaded; eauto|].
  split; [eapply py_index_found; eauto|].
  split; [eapply py_index_found; eauto|].
  split.
  { exists seq_max. repeat split; auto.
    apply largest_task_index_first; auto. }
  split.
  { intros x. rewrite (other_loads_spec _ _ _ _ mv_rest x).
    unfold py_range. split; intros (i & Hi & Hrest); exists i;
      (split; [|exact Hrest]).
    - apply in_seq in Hi. lia.
    - apply in_seq. lia. }
  split; auto.
  rewrite mv_new_makespan. unfold hypothetical_makespan.
  destruct others as [|x others]; [discriminate|].
  simpl in mv_rest_max. injection mv_rest_max as <-.
  simpl. rewrite fold_max_swap. lia.
Qed.

(** C3, at the tasks [[2; 2; 2; 1]] on two machines: after
    [lpt_schedule] the loads are [[4; 3]]; the policy of the
    specification finds the hypothetical makespan 5, not below 4, and
    stops, while the code raises [ValueError] in that iteration. *)
Theorem local_search_policy_fails :
  lpt_schedule 0 1 (fresh [2; 2; 2; 1] 2)
  = Return four_tasks_two_machines
           ([[tk 0 2; tk 2 2]; [tk 1 2; tk 3 1]], 4, 1%Q)
  /\ hypothetical_makespan [] (4 - 2) (3 + 2) = 5
  /\ policy_step four_tasks_two_machines = Stopped
  /\ ls_step four_tasks_two_machines
     = Raised four_tasks_two_machines ValueError
  /\ local_search_optimization 100 four_tasks_two_machines
     = Raise four_tasks_two_machines ValueError.
Proof.
  repeat split; vm_compute; reflexivity.
Qed.

(** ** Determinism *)

(** The local search neither reads nor writes [execution_time]. *)
Lemma ls_step_execution_time st t :
  ls_step (set_execution_time st t)
  = map_step (fun s => set_execution_time s t) (ls_step st).
Proof.
  unfold ls_step. simpl.
  repeat match goal with
         | |- context [match ?x with _ => _ end] => destruct x; simpl
         end;
    reflexivity.
Qed.

Lemma ls_loop_execution_time remaining t :
  forall iterations st,
    ls_loop remaining iterations (set_execution_time st t)
    = map_outcome (fun s => set_execution_time s t)
                  (ls_loop remaining iterations st).
Proof.
  induction remaining as [|r IH]; intros iterations st; simpl; auto.
  rewrite ls_step_execution_time.
  destruct (ls_step st) as [st1 e| |st1]; simpl; auto.
Qed.

Lemma observe_execution_time t o :
  observe (map_outcome (fun s => set_execution_time s t) o) = observe o.
Proof.
  destruct o; reflexivity.
Qed.

(** C10. Two runs on the same task durations, machine count and
    iteration cap show the same schedule, loads, makespan and result,
    whatever the clock reads during each run and whatever each object
    held before. *)
Theorem determinism (ts : list Z) (m cap : Z)
        (ta_start ta_end tb_start tb_end : Q) (sa sb : TaskScheduler) :
  1 <= m ->
  tasks sa = ts -> num_machines sa = m ->
  tasks sb = ts -> num_machines sb = m ->
  observe (run ta_start ta_end cap sa) = observe (run tb_start tb_end cap sb).
Proof.
  intros Hm Hta Hna Htb Hnb. unfold run.
  destruct (lpt_schedule_returns ta_start ta_end sa)
    as (a1 & -> & Hga & Hma & Hta1 & Hna1 & _); [lia|].
  destruct (lpt_schedule_returns tb_start tb_end sb)
    as (b1 & -> & Hgb & Hmb & Htb1 & Hnb1 & _); [lia|].
  rewrite Hta, Hna in Hga. rewrite Htb, Hnb in Hgb.
  pose proof (greedy_assign_functional Hga Hgb) as E.
  injection E as Es El.
  assert (makespan a1 = makespan b1) as Ek by congruence.
  assert (b1 = set_execution_time a1 (execution_time b1)) as ->.
  { destruct a1, b1; unfold set_execution_time; simpl in *.
    congruence. }
  unfold local_search_optimization.
  rewrite ls_loop_execution_time, observe_execution_time. reflexivity.
Qed.

Lemma determinism_witness :
  observe (run 0 1 100 (fresh [10; 5; 8; 7; 12; 15; 6; 9; 11; 4] 3))
  = observe (run 3 8 100 (used [10; 5; 8; 7; 12; 15; 6; 9; 11; 4] 3)).
Proof.
  apply (@determinism [10; 5; 8; 7; 12; 15; 6; 9; 11; 4] 3 100 0 1 3 8
           (fresh [10; 5; 8; 7; 12; 15; 6; 9; 11; 4] 3)
           (used [10; 5; 8; 7; 12; 15; 6; 9; 11; 4] 3));
    [lia | reflexivity | reflexivity | reflexivity | reflexivity].
Defined.

(** * Further properties of the code *)

(** ** Lists under update and removal *)

Lemma map_update {A B : Type} (f : A -> B) (l : list A) k x :
  map f (update l k x) = update (map f l) k (f x).
Proof.
  revert k; induction l as [|y l IH]; intros [|k]; simpl; auto.
  rewrite IH. reflexivity.
Qed.

Lemma in_update {A : Type} (l : list A) k x y :
  In y (update l k x) -> y = x \/ In y l.
Proof.
  revert k; induction l as [|z l IH]; intros [|k]; simpl; auto.
  - intros [<-|H]; auto.
  - intros [<-|H]; auto. destruct (IH _ H); auto.
Qed.

Lemma concat_update_perm {A : Type} (l : list (list A)) k s s' :
  nth_error l k = Some s ->
  Permutation (concat (update l k s') ++ s) (concat l ++ s').
Proof.
  revert k; induction l as [|y l IH]; intros [|k] H; simpl in *;
    try discriminate.
  - injection H as ->. rewrite <- !app_assoc.
    rewrite (Permutation_app_comm s' (concat l ++ s)), <- app_assoc.
    apply Permutation_app_swap_app.
  - rewrite <- !app_assoc. apply Permutation_app_head. apply IH, H.
Qed.

Lemma remove_nth_perm {A : Type} (l : list A) k x :
  nth_error l k = Some x -> Permutation l (x :: remove_nth l k).
Proof.
  revert k; induction l as [|y l IH]; intros [|k] H; simpl in *;
    try discriminate.
  - injection H as ->. reflexivity.
  - rewrite perm_swap. constructor. apply IH, H.
Qed.

Lemma seq_load_app s1 s2 : seq_load (s1 ++ s2) = seq_load s1 + seq_load s2.
Proof.
  unfold seq_load. rewrite map_app. apply py_sum_app.
Qed.

Lemma seq_load_perm s1 s2 : Permutation s1 s2 -> seq_load s1 = seq_load s2.
Proof.
  intros H. unfold seq_load. apply py_sum_perm, Permutation_map, H.
Qed.

Lemma nth_error_map_seq_load sched k s :
  nth_error sched k = Some s ->
  nth_error (map seq_load sched) k = Some (seq_load s).
Proof.
  intros H. rewrite nth_error_map, H. reflexivity.
Qed.

(** ** What the greedy assignment keeps *)

Lemma greedy_assign_loads_match ts a a' :
  greedy_assign ts a a' ->
  snd a = map seq_load (fst a) -> snd a' = map seq_load (fst a').
Proof.
  induction 1 as [|t rest sched loads k seq_k l a' _ Hs Hl _ IH]; auto.
  simpl in *. intros E. apply IH.
  rewrite map_update, seq_load_app. subst loads.
  rewrite (nth_error_map_seq_load _ _ Hs) in Hl. injection Hl as <-.
  f_equal. f_equal. unfold seq_load. simpl. lia.
Qed.

Lemma greedy_assign_partition ts a a' :
  greedy_assign ts a a' ->
  Permutation (concat (fst a')) (concat (fst a) ++ ts).
Proof.
  induction 1 as [|t rest sched loads k seq_k l a' _ Hs _ _ IH]; simpl.
  - rewrite app_nil_r. reflexivity.
  - simpl in IH. rewrite IH.
    change (t :: rest) with ([t] ++ rest). rewrite app_assoc.
    apply Permutation_app_tail.
    apply Permutation_app_inv_r with (l := seq_k).
    rewrite (concat_update_perm _ _ (seq_k ++ [t]) Hs).
    rewrite <- !app_assoc. apply Permutation_app_head.
    apply Permutation_app_comm.
Qed.

Lemma concat_repeat_nil {A : Type} n : concat (repeat (@nil A) n) = [].
Proof.
  induction n; simpl; auto.
Qed.

Lemma map_seq_load_repeat_nil n :
  map seq_load (repeat [] n) = repeat 0 n.
Proof.
  induction n; simpl; f_equal; auto.
Qed.

(** [lpt_schedule] leaves every task on one machine and every load equal
    to the work of its sequence. *)
Lemma lpt_schedule_well_formed t_start t_end st st' v :
  1 <= num_machines st ->
  lpt_schedule t_start t_end st = Return st' v ->
  consistent st' /\ loads_match st' /\ partitions st'.
Proof.
  intros Hm Hrun.
  pose proof (lpt_schedule_consistent _ _ _ Hm Hrun) as Hc.
  destruct (lpt_schedule_returns t_start t_end st Hm)
    as (st1 & Hret & Hg & _ & Ht & _).
  rewrite Hret in Hrun. injection Hrun as <- _.
  unfold py_range in Hg. rewrite map_const_repeat, length_seq in Hg.
  split; [exact Hc|]. split.
  - unfold loads_match.
    apply (greedy_assign_loads_match Hg). simpl.
    symmetry. apply map_seq_load_repeat_nil.
  - unfold partitions. rewrite Ht.
    rewrite (greedy_assign_partition Hg). simpl.
    rewrite concat_repeat_nil. simpl.
    apply Permutation_sym, sorted_desc_perm.
Qed.

(** ** What a move keeps *)

(** On a consistent object the bottleneck and the target of a move are
    two machines. *)
Lemma move_distinct st st' :
  consistent st -> move st st' ->
  forall hi lo kmax kmin,
    py_max (machine_loads st) = Some hi ->
    py_index hi (machine_loads st) = Some kmax ->
    py_min (machine_loads st) = Some lo ->
    py_index lo (machine_loads st) = Some kmin ->
    kmax <> kmin.
Proof.
  intros [Hs Hc Hmk] [] hi lo kmax kmin Hhi Hkmax Hlo Hkmin E.
  rewrite mv_hi in Hhi. injection Hhi as <-.
  rewrite mv_lo in Hlo. injection Hlo as <-.
  rewrite mv_hi_at in Hkmax. injection Hkmax as <-.
  rewrite mv_lo_at in Hkmin. injection Hkmin as <-.
  pose proof (py_index_found _ _ mv_hi_at) as Hmax.
  pose proof (py_index_found _ _ mv_lo_at) as Hmin.
  rewrite E in Hmax. assert (load_min = load_max) by congruence.
  subst load_min.
  rewrite mv_hi in Hmk. injection Hmk as Hmk.
  destruct (proj1 (py_max_spec _ _) mv_hi) as [_ Hub].
  destruct (proj1 (py_min_spec _ _) mv_lo) as [_ Hlb].
  destruct (proj1 (py_max_spec _ _) mv_rest_max) as [Hom_in _].
  apply (other_loads_spec _ _ _ _ mv_rest) in Hom_in.
  destruct Hom_in as (i & _ & _ & _ & Hi).
  apply nth_error_In in Hi.
  specialize (Hub _ Hi). specialize (Hlb _ Hi). lia.
Qed.

Lemma move_well_formed st st' :
  consistent st -> loads_match st -> move st st' ->
  loads_match st'
  /\ Permutation (concat (schedule st')) (concat (schedule st)).
Proof.
  intros Hc Hlm Hmove. pose proof Hmove as Hmove'. destruct Hmove.
  pose proof (move_distinct Hc Hmove' mv_hi mv_hi_at mv_lo mv_lo_at)
    as Hne.
  pose proof (py_index_found _ _ mv_hi_at) as Hmax.
  pose proof (py_index_found _ _ mv_lo_at) as Hmin.
  pose proof (remove_nth_perm _ _ mv_moved) as Hrem.
  rewrite nth_error_update_neq in mv_target by auto.
  unfold loads_match in *. split.
  - rewrite mv_loads, mv_schedule, !map_update, <- Hlm.
    rewrite Hlm in Hmax, Hmin.
    rewrite (nth_error_map_seq_load _ _ mv_seq) in Hmax.
    rewrite (nth_error_map_seq_load _ _ mv_target) in Hmin.
    injection Hmax as <-. injection Hmin as <-.
    rewrite (seq_load_perm Hrem), seq_load_app.
    change (task_to_move :: remove_nth seq_max largest_task_idx)
      with ([task_to_move] ++ remove_nth seq_max largest_task_idx).
    rewrite seq_load_app.
    assert (seq_load [task_to_move] = duration task_to_move) as ->
        by (unfold seq_load; simpl; lia).
    f_equal. f_equal. lia.
  - rewrite mv_schedule.
    set (s1 := update (schedule st) max_machine
                      (remove_nth seq_max largest_task_idx)).
    assert (nth_error s1 min_machine = Some seq_min) as Hs1
        by (unfold s1; rewrite nth_error_update_neq; auto).
    pose proof (concat_update_perm _ _ (seq_min ++ [task_to_move]) Hs1)
      as P2.
    pose proof (concat_update_perm _ _
                  (remove_nth seq_max largest_task_idx) mv_seq) as P1.
    fold s1 in P1.
    apply Permutation_app_inv_r with (l := seq_min).
    rewrite P2.
    apply Permutation_app_inv_r
      with (l := remove_nth seq_max largest_task_idx).
    transitivity (concat s1 ++ seq_max ++ seq_min).
    + rewrite <- !app_assoc. apply Permutation_app_head.
      rewrite (Permutation_app_comm seq_max seq_min).
      apply Permutation_app_head. simpl. symmetry. exact Hrem.
    + rewrite app_assoc, P1. rewrite <- !app_assoc.
      apply Permutation_app_head, Permutation_app_comm.
Qed.

(** On a consistent object a step that raises has changed nothing. *)
Lemma ls_step_raised_same st st' e :
  consistent st -> ls_step st = Raised st' e -> st' = st.
Proof.
  intros [Hs Hc Hmk]. unfold ls_step.
  destruct (py_max (machine_loads st)) as [hi|];
    [|intros [= <- _]; reflexivity].
  destruct (py_index hi (machine_loads st)) as [kmax|] eqn:Ekmax;
    [|intros [= <- _]; reflexivity].
  destruct (nth_error (schedule st) kmax) as [seq_max|];
    [|intros [= <- _]; reflexivity].
  destruct (largest_task_index seq_max) as [idx|]; [|discriminate].
  destruct (nth_error seq_max idx) as [t|];
    [|intros [= <- _]; reflexivity].
  destruct (py_min (machine_loads st)) as [lo|];
    [|intros [= <- _]; reflexivity].
  destruct (py_index lo (machine_loads st)) as [kmin|] eqn:Ekmin;
    [|intros [= <- _]; reflexivity].
  pose proof (nth_error_in_range _ _ (py_index_found _ _ Ekmin)) as Hlt.
  rewrite (py_index_found _ _ Ekmax), (py_index_found _ _ Ekmin).
  destruct (other_loads _ _ _ _) as [e'|others];
    [intros [= <- _]; reflexivity|].
  destruct (py_max others) as [om|]; [|intros [= <- _]; reflexivity].
  destruct (_ <? _); [|discriminate]. simpl.
  destruct (@nth_error_of_range _
              (update (schedule st) kmax (remove_nth seq_max idx)) kmin)
    as [seq_min ->]; [rewrite update_length; lia|].
  discriminate.
Qed.

(** However the loop of the local search ends, the object is consistent,
    its loads match its sequences, and the tasks have only changed
    machines. *)
Lemma ls_loop_well_formed remaining :
  forall iterations st,
    consistent st -> loads_match st ->
    consistent (final_state (ls_loop remaining iterations st))
    /\ loads_match (final_state (ls_loop remaining iterations st))
    /\ Permutation
         (concat (schedule (final_state (ls_loop remaining iterations st))))
         (concat (schedule st))
    /\ tasks (final_state (ls_loop remaining iterations st)) = tasks st.
Proof.
  induction remaining as [|r IH]; intros iterations st Hc Hlm; simpl.
  - repeat split; auto; apply Hc.
  - destruct (ls_step st) as [st1 e| |st1] eqn:Estep; simpl.
    + rewrite (ls_step_raised_same Hc Estep). auto.
    + auto.
    + pose proof (ls_step_moved _ Estep) as Hmove.
      destruct (move_consistent Hc Hmove) as [Hc1 _].
      destruct (move_well_formed Hc Hlm Hmove) as [Hlm1 Hp1].
      destruct (IH (iterations + 1) st1 Hc1 Hlm1) as (H1 & H2 & H3 & H4).
      repeat split; try apply H1; auto.
      * rewrite H3. exact Hp1.
      * rewrite H4. destruct Hmove. auto.
Qed.

(** X1. With at least one machine, the sequences that [lpt_schedule]
    builds hold every task of the input exactly once, as the pair of its
    input position and its duration; this is still so in the object that
    [local_search_optimization] leaves, for every cap, whether the call
    returns or raises. *)
Theorem tasks_partitioned (ts : list Z) (m cap : Z) (t_start t_end : Q)
        (st : TaskScheduler) :
  1 <= m -> tasks st = ts -> num_machines st = m ->
  exists st1 v,
    lpt_schedule t_start t_end st = Return st1 v
    /\ Permutation (concat (schedule st1)) (enumerate ts)
    /\ Permutation
         (concat (schedule
                    (final_state (local_search_optimization cap st1))))
         (enumerate ts).
Proof.
  intros Hm Hts Hnm. subst ts m.
  destruct (lpt_schedule_returns t_start t_end st Hm)
    as (st1 & Hret & _ & _ & Ht & _).
  destruct (lpt_schedule_well_formed _ _ _ Hm Hret) as (Hc & Hlm & Hp).
  unfold partitions in Hp. rewrite Ht in Hp.
  exists st1, (schedule st1, makespan st1, execution_time st1).
  split; [exact Hret|]. split; [exact Hp|].
  destruct (ls_loop_well_formed (Z.to_nat cap) 0 Hc Hlm)
    as (_ & _ & Hperm & _).
  unfold local_search_optimization. rewrite Hperm. exact Hp.
Qed.

Lemma tasks_partitioned_witness :
  exists st1 v,
    lpt_schedule 0 1 (fresh [10; 5; 8; 7; 12; 15; 6; 9; 11; 4] 3)
    = Return st1 v
    /\ Permutation (concat (schedule st1))
                   (enumerate [10; 5; 8; 7; 12; 15; 6; 9; 11; 4])
    /\ Permutation
         (concat (schedule
                    (final_state (local_search_optimization 100 st1))))
         (enumerate [10; 5; 8; 7; 12; 15; 6; 9; 11; 4]).
Proof.
  apply (@tasks_partitioned [10; 5; 8; 7; 12; 15; 6; 9; 11; 4] 3 100 0 1
           (fresh [10; 5; 8; 7; 12; 15; 6; 9; 11; 4] 3));
    [lia | reflexivity | reflexivity].
Defined.

(** X2. From any object that has one sequence and one load per machine,
    the maximum load as makespan and loads equal to the work of the
    sequences, [local_search_optimization] leaves, for every cap and
    however it ends, an object of which the same holds, with the same
    tasks overall: it only moves tasks from one machine to another. *)
Theorem local_search_keeps_schedule_valid (cap : Z) (st : TaskScheduler) :
  consistent st -> loads_match st ->
  consistent (final_state (local_search_optimization cap st))
  /\ machine_loads (final_state (local_search_optimization cap st))
     = map seq_load
           (schedule (final_state (local_search_optimization cap st)))
  /\ Permutation
       (concat (schedule (final_state (local_search_optimization cap st))))
       (concat (schedule st))
  /\ py_sum (machine_loads (final_state (local_search_optimization cap st)))
     = py_sum (machine_loads st).
Proof.
  intros Hc Hlm. unfold local_search_optimization.
  destruct (ls_loop_well_formed (Z.to_nat cap) 0 Hc Hlm)
    as (H1 & H2 & H3 & _).
  destruct (ls_loop_invariant (Z.to_nat cap) 0 Hc) as (H4 & _).
  repeat split; auto; apply H1.
Qed.

Lemma local_search_keeps_schedule_valid_witness :
  consistent (final_state (local_search_optimization 100 unbalanced))
  /\ machine_loads (final_state (local_search_optimization 100 unbalanced))
     = map seq_load
           (schedule (final_state
                        (local_search_optimization 100 unbalanced)))
  /\ Permutation
       (concat (schedule (final_state
                            (local_search_optimization 100 unbalanced))))
       (concat (schedule unbalanced))
  /\ py_sum (machine_loads
               (final_state (local_search_optimization 100 unbalanced)))
     = py_sum (machine_loads unbalanced).
Proof.
  apply (@local_search_keeps_schedule_valid 100 unbalanced);
    [constructor; reflexivity | reflexivity].
Defined.

(** ** Bounds on the makespan *)

Lemma py_sum_le_length_max l hi :
  (forall x, In x l -> x <= hi) -> py_sum l <= Z.of_nat (length l) * hi.
Proof.
  induction l as [|y l IH]; intros H.
  - simpl. lia.
  - change (py_sum (y :: l)) with (y + py_sum l).
    change (length (y :: l)) with (S (length l)).
    pose proof (H y (or_introl eq_refl)).
    assert (py_sum l <= Z.of_nat (length l) * hi)
      by (apply IH; intros x Hx; apply H; right; exact Hx).
    lia.
Qed.

Lemma py_sum_ge_length_min l lo :
  (forall x, In x l -> lo <= x) -> Z.of_nat (length l) * lo <= py_sum l.
Proof.
  induction l as [|y l IH]; intros H.
  - simpl. lia.
  - change (py_sum (y :: l)) with (y + py_sum l).
    change (length (y :: l)) with (S (length l)).
    pose proof (H y (or_introl eq_refl)).
    assert (Z.of_nat (length l) * lo <= py_sum l)
      by (apply IH; intros x Hx; apply H; right; exact Hx).
    lia.
Qed.

Lemma py_sum_seq_loads sched :
  py_sum (map seq_load sched) = seq_load (concat sched).
Proof.
  induction sched as [|s sched IH]; simpl; auto.
  rewrite seq_load_app, IH. reflexivity.
Qed.

Lemma seq_load_member s t :
  (forall u, In u s -> 0 <= duration u) -> In t s ->
  duration t <= seq_load s.
Proof.
  induction s as [|y s IH]; intros Hpos [].
  - subst y. unfold seq_load. simpl.
    assert (0 <= py_sum (map duration s)).
    { clear IH. induction s as [|z s IHs]; simpl; [lia|].
      pose proof (Hpos z (or_intror (or_introl eq_refl))).
      assert (0 <= py_sum (map duration s)); [|lia].
      apply IHs. intros u [<-|Hu]; apply Hpos; simpl; auto. }
    lia.
  - unfold seq_load. simpl.
    pose proof (Hpos y (or_introl eq_refl)).
    assert (duration t <= seq_load s)
      by (apply IH; auto; intros u Hu; apply Hpos; right; exact Hu).
    unfold seq_load in *. lia.
Qed.

Lemma enumerate_durations_in l t : In t (enumerate l) -> In (duration t) l.
Proof.
  destruct t as [i d]. intros H. apply enumerate_in in H.
  simpl. eapply nth_error_In; eauto.
Qed.

Lemma consistent_count st :
  consistent st ->
  1 <= num_machines st
  /\ Z.of_nat (length (machine_loads st)) = num_machines st.
Proof.
  intros [Hs Hc Hmk].
  destruct (machine_loads st) as [|x l] eqn:E; [discriminate|].
  simpl length in *. lia.
Qed.

(** An object that is consistent, partitions its tasks and has matching
    loads cannot have a makespan below the average load or below a
    task. *)
Lemma well_formed_lower_bounds st :
  consistent st -> loads_match st -> partitions st ->
  Forall (fun d => 0 <= d) (tasks st) ->
  py_sum (tasks st) <= num_machines st * makespan st
  /\ forall d, In d (tasks st) -> d <= makespan st.
Proof.
  intros Hc Hlm Hp Hpos.
  destruct (consistent_count Hc) as [Hm Hlen].
  destruct (proj1 (py_max_spec _ _) (c_makespan Hc)) as [_ Hub].
  unfold loads_match in Hlm. unfold partitions in Hp.
  rewrite Forall_forall in Hpos.
  split.
  - rewrite <- Hlen.
    rewrite <- (sorted_desc_durations (tasks st)).
    assert (py_sum (machine_loads st)
            = py_sum (map duration (sorted_desc (enumerate (tasks st)))))
      as <-.
    { rewrite Hlm, py_sum_seq_loads. apply seq_load_perm.
      rewrite Hp. apply sorted_desc_perm. }
    apply py_sum_le_length_max, Hub.
  - intros d Hd. apply In_nth_error in Hd. destruct Hd as [i Hi].
    apply enumerate_in in Hi.
    apply (Permutation_in _ (Permutation_sym Hp)) in Hi.
    apply in_concat in Hi. destruct Hi as (s & Hs & Hin).
    assert (duration (i, d) <= seq_load s) as Hle.
    { apply seq_load_member; auto. intros u Hu. apply Hpos.
      apply enumerate_durations_in.
      apply (Permutation_in _ Hp). apply in_concat. eauto. }
    simpl in Hle.
    assert (seq_load s <= makespan st); [|lia].
    apply Hub. rewrite Hlm. apply in_map. exact Hs.
Qed.

(** X3. With non-negative durations and at least one machine, the
    makespan after [lpt_schedule], and the one left by
    [local_search_optimization] for any cap, is at least the average
    load ([m] times the makespan covers the total work) and at least
    the duration of every task. *)
Theorem makespan_lower_bounds (ts : list Z) (m cap : Z) (t_start t_end : Q)
        (st : TaskScheduler) :
  Forall (fun d => 0 <= d) ts ->
  1 <= m -> tasks st = ts -> num_machines st = m ->
  exists st1 v,
    lpt_schedule t_start t_end st = Return st1 v
    /\ py_sum ts <= m * makespan st1
    /\ (forall d, In d ts -> d <= makespan st1)
    /\ py_sum ts
       <= m * makespan (final_state (local_search_optimization cap st1))
    /\ (forall d, In d ts ->
                  d <= makespan
                         (final_state (local_search_optimization cap st1))).
Proof.
  intros Hpos Hm Hts Hnm. subst ts m.
  destruct (lpt_schedule_returns t_start t_end st Hm)
    as (st1 & Hret & _ & _ & Ht & Hn & _).
  destruct (lpt_schedule_well_formed _ _ _ Hm Hret) as (Hc & Hlm & Hp).
  exists st1, (schedule st1, makespan st1, execution_time st1).
  split; [exact Hret|].
  rewrite <- Ht, <- Hn in *.
  destruct (well_formed_lower_bounds Hc Hlm Hp Hpos) as [H1 H2].
  split; [exact H1|]. split; [exact H2|].
  unfold local_search_optimization.
  destruct (ls_loop_well_formed (Z.to_nat cap) 0 Hc Hlm)
    as (Hc2 & Hlm2 & Hp2 & Ht2).
  destruct (ls_loop_invariant (Z.to_nat cap) 0 Hc)
    as (_ & _ & _ & Hn2 & _).
  rewrite <- Ht2, <- Hn2.
  apply well_formed_lower_bounds; auto.
  - unfold partitions. rewrite Hp2, Ht2. exact Hp.
  - rewrite Ht2. exact Hpos.
Qed.

Lemma makespan_lower_bounds_witness :
  exists st1 v,
    lpt_schedule 0 1 (fresh [10; 5; 8; 7; 12; 15; 6; 9; 11; 4] 3)
    = Return st1 v
    /\ py_sum [10; 5; 8; 7; 12; 15; 6; 9; 11; 4] <= 3 * makespan st1
    /\ (forall d, In d [10; 5; 8; 7; 12; 15; 6; 9; 11; 4] ->
                  d <= makespan st1)
    /\ py_sum [10; 5; 8; 7; 12; 15; 6; 9; 11; 4]
       <= 3 * makespan (final_state (local_search_optimization 100 st1))
    /\ (forall d, In d [10; 5; 8; 7; 12; 15; 6; 9; 11; 4] ->
                  d <= makespan
                         (final_state
                            (local_search_optimization 100 st1))).
Proof.
  apply (@makespan_lower_bounds [10; 5; 8; 7; 12; 15; 6; 9; 11; 4] 3 100
           0 1 (fresh [10; 5; 8; 7; 12; 15; 6; 9; 11; 4] 3));
    [repeat constructor; lia | lia | reflexivity | reflexivity].
Defined.

(** The least loaded machine carries at most the average load. *)
Lemma least_loaded_below_average loads k l :
  least_loaded loads k -> nth_error loads k = Some l ->
  Z.of_nat (length loads) * l <= py_sum loads.
Proof.
  intros (l' & Hk & Hmin) Hl. rewrite Hk in Hl. injection Hl as ->.
  apply py_sum_ge_length_min. intros x Hx.
  apply In_nth_error in Hx. destruct Hx as [i Hi].
  destruct (Hmin _ _ Hi); lia.
Qed.

(** Placing tasks of duration between [0] and [D] greedily on [m]
    machines keeps every load within [(m - 1) * D] of [m] times the
    average. *)
Lemma greedy_assign_bound m D ts a a' :
  greedy_assign ts a a' ->
  1 <= m -> Z.of_nat (length (snd a)) = m ->
  (forall t, In t ts -> 0 <= duration t <= D) ->
  (forall x, In x (snd a) -> m * x <= py_sum (snd a) + (m - 1) * D) ->
  forall x, In x (snd a') -> m * x <= py_sum (snd a') + (m - 1) * D.
Proof.
  intros H Hm.
  induction H as [|t rest sched loads k seq_k l a' Hk Hs Hl _ IH];
    intros Hlen Hd Hinv; auto.
  simpl in *. apply IH.
  - rewrite update_length. exact Hlen.
  - intros u Hu. apply Hd. right. exact Hu.
  - pose proof (least_loaded_below_average Hk Hl) as Havg.
    rewrite Hlen in Havg.
    pose proof (Hd t (or_introl eq_refl)) as Ht.
    rewrite (py_sum_update _ _ _ Hl).
    intros x Hx. apply in_update in Hx. destruct Hx as [->|Hx].
    + nia.
    + specialize (Hinv x Hx). lia.
Qed.

(** X4. With durations between [0] and [D] and at least one machine,
    [m] times the makespan that [lpt_schedule] returns is at most the
    total work plus [(m - 1) * D]: no machine exceeds the average load
    by more than [(m - 1) / m] of the longest task.  The makespan left
    by [local_search_optimization] obeys the same bound. *)
Theorem lpt_makespan_upper_bound (ts : list Z) (m cap D : Z)
        (t_start t_end : Q) (st : TaskScheduler) :
  Forall (fun d => 0 <= d <= D) ts -> 0 <= D ->
  1 <= m -> tasks st = ts -> num_machines st = m ->
  exists st1 sched mk t,
    lpt_schedule t_start t_end st = Return st1 (sched, mk, t)
    /\ m * mk <= py_sum ts + (m - 1) * D
    /\ m * makespan (final_state (local_search_optimization cap st1))
       <= py_sum ts + (m - 1) * D.
Proof.
  intros Hd HD Hm Hts Hnm. subst ts m.
  destruct (lpt_schedule_returns t_start t_end st Hm)
    as (st1 & Hret & Hg & Hmx & _ & _).
  pose proof (lpt_schedule_consistent _ _ _ Hm Hret) as Hc.
  exists st1, (schedule st1), (makespan st1), (execution_time st1).
  split; [exact Hret|].
  assert (num_machines st * makespan st1
          <= py_sum (tasks st) + (num_machines st - 1) * D) as Hbound.
  { pose proof (greedy_assign_sum Hg) as Hsum. simpl in Hsum.
    rewrite py_sum_repeat_zero, sorted_desc_durations in Hsum.
    rewrite <- (Z.add_0_l (py_sum (tasks st))), <- Hsum.
    apply (greedy_assign_bound (D := D) Hg); auto.
    - simpl. rewrite repeat_length. lia.
    - intros t Ht.
      apply (Permutation_in _ (Permutation_sym (sorted_desc_perm _)))
        in Ht.
      apply enumerate_durations_in in Ht.
      rewrite Forall_forall in Hd. apply Hd, Ht.
    - simpl. intros x Hx. apply repeat_spec in Hx. subst x.
      rewrite py_sum_repeat_zero. nia.
    - simpl. apply py_max_spec in Hmx. tauto. }
  split; [exact Hbound|].
  destruct (ls_loop_invariant (Z.to_nat cap) 0 Hc) as (_ & Hle & _).
  unfold local_search_optimization. nia.
Qed.

Lemma lpt_makespan_upper_bound_witness :
  exists st1 sched mk t,
    lpt_schedule 0 1 (fresh [10; 5; 8; 7; 12; 15; 6; 9; 11; 4] 3)
    = Return st1 (sched, mk, t)
    /\ 3 * mk <= py_sum [10; 5; 8; 7; 12; 15; 6; 9; 11; 4] + (3 - 1) * 15
    /\ 3 * makespan (final_state (local_search_optimization 100 st1))
       <= py_sum [10; 5; 8; 7; 12; 15; 6; 9; 11; 4] + (3 - 1) * 15.
Proof.
  apply (@lpt_makespan_upper_bound [10; 5; 8; 7; 12; 15; 6; 9; 11; 4] 3
           100 15 0 1 (fresh [10; 5; 8; 7; 12; 15; 6; 9; 11; 4] 3));
    [repeat constructor; lia | lia | lia | reflexivity | reflexivity].
Defined.

(** ** After the greedy assignment the local search has nothing to do *)

Lemma settled_initial n loads : settled (repeat [] n) loads.
Proof.
  intros i seq_i t l Hs. apply nth_error_In, repeat_spec in Hs.
  destruct seq_i; discriminate.
Qed.

Lemma greedy_assign_settled ts a a' :
  greedy_assign ts a a' ->
  (forall t, In t ts -> 0 <= duration t) ->
  settled (fst a) (snd a) -> settled (fst a') (snd a').
Proof.
  induction 1 as [|t rest sched loads k seq_k l a' Hk Hs Hl _ IH];
    intros Hpos Hset; auto.
  simpl in *. apply IH; [intros u Hu; apply Hpos; auto|].
  pose proof (Hpos t (or_introl eq_refl)) as Ht.
  destruct Hk as (l' & Hl' & Hmin). rewrite Hl in Hl'.
  injection Hl' as <-.
  assert (forall x, In x loads -> l <= x) as Hleast.
  { intros x Hx. apply In_nth_error in Hx. destruct Hx as [j Hj].
    destruct (Hmin _ _ Hj); lia. }
  intros i seq_i u li Hsi Hli x Hx.
  apply in_update in Hx.
  destruct (Nat.eq_dec i k) as [->|Hik].
  - rewrite nth_error_update_eq in Hsi
      by (eapply nth_error_in_range; eauto).
    rewrite nth_error_update_eq in Hli
      by (eapply nth_error_in_range; eauto).
    injection Hli as <-. injection Hsi as Hsi.
    apply app_inj_tail in Hsi. destruct Hsi as [_ <-].
    destruct Hx as [->|Hx]; [lia|]. specialize (Hleast _ Hx). lia.
  - rewrite nth_error_update_neq in Hsi by auto.
    rewrite nth_error_update_neq in Hli by auto.
    pose proof (Hset _ _ _ _ Hsi Hli) as Hold.
    destruct Hx as [->|Hx]; [|auto].
    specialize (Hold l (nth_error_In _ _ Hl)). lia.
Qed.

(** In a settled, consistent object no step of the local search moves a
    task: the target would end at least as loaded as the bottleneck
    is. *)
Lemma settled_no_move st st' :
  consistent st -> settled (schedule st) (machine_loads st) ->
  ls_step st <> Moved st'.
Proof.
  intros Hc Hset Hstep. apply ls_step_moved in Hstep. destruct Hstep.
  pose proof (py_index_found _ _ mv_hi_at) as Hmax.
  pose proof (py_index_found _ _ mv_lo_at) as Hmin.
  pose proof (c_makespan Hc) as Hmk. rewrite mv_hi in Hmk.
  injection Hmk as Hmk.
  destruct (largest_task_index_first _ mv_largest) as (t0 & Ht0 & Hlargest).
  rewrite mv_moved in Ht0. injection Ht0 as <-.
  assert (seq_max <> []) as Hne
      by (intros ->; destruct largest_task_idx; discriminate).
  destruct (exists_last Hne) as (body & tl & ->).
  pose proof (Hset _ _ _ _ mv_seq Hmax _ (nth_error_In _ _ Hmin)) as Hlast.
  assert (duration tl <= duration task_to_move) as Hdur.
  { assert (In tl (body ++ [tl])) as Hin
        by (apply in_or_app; right; left; reflexivity).
    apply In_nth_error in Hin. destruct Hin as [j Hj].
    destruct (Hlargest _ _ Hj); lia. }
  lia.
Qed.

(** On a consistent object the only exception of a step is the
    [ValueError] of [max] without items. *)
Lemma ls_step_raises_value_error st st' e :
  consistent st -> ls_step st = Raised st' e -> e = ValueError.
Proof.
  intros [Hs Hc Hmk]. unfold ls_step. rewrite Hmk.
  destruct (proj1 (py_max_spec _ _) Hmk) as [Hin _].
  destruct (py_index_of_member _ _ Hin) as [kmax Ekmax]. rewrite Ekmax.
  pose proof (py_index_found _ _ Ekmax) as Hmax.
  pose proof (nth_error_in_range _ _ Hmax) as Hmax_lt.
  destruct (@nth_error_of_range _ (schedule st) kmax) as [seq_max Eseq];
    [lia|]. rewrite Eseq.
  destruct (largest_task_index seq_max) as [idx|] eqn:Eidx; [|discriminate].
  destruct (@nth_error_of_range _ seq_max idx) as [t Et];
    [eapply largest_task_index_range; eauto|]. rewrite Et.
  destruct (py_min_nonempty (l := machine_loads st)) as [lo Elo].
  { intros E. rewrite E in Hin. exact Hin. }
  rewrite Elo.
  destruct (proj1 (py_min_spec _ _) Elo) as [Hin_lo _].
  destruct (py_index_of_member _ _ Hin_lo) as [kmin Ekmin]. rewrite Ekmin.
  pose proof (py_index_found _ _ Ekmin) as Hmin.
  pose proof (nth_error_in_range _ _ Hmin) as Hmin_lt.
  rewrite Hmax, Hmin.
  destruct (other_loads_defined (machine_loads st) kmax kmin
                                (py_range (num_machines st)))
    as [os Eos].
  { intros i Hi. unfold py_range in Hi. apply in_seq in Hi. lia. }
  rewrite Eos.
  destruct (py_max os) as [om|]; [|intros [= _ <-]; reflexivity].
  destruct (_ <? _); [|discriminate]. simpl.
  destruct (@nth_error_of_range _
              (update (schedule st) kmax (remove_nth seq_max idx)) kmin)
    as [seq_min Emin]; [rewrite update_length; lia|].
  rewrite Emin. discriminate.
Qed.

(** X5. With non-negative durations and at least one machine, the
    local search never improves on [lpt_schedule]: for every cap,
    [local_search_optimization] either returns the makespan of
    [lpt_schedule] with 0 iterations or raises [ValueError], and in
    both cases leaves the object exactly as [lpt_schedule] left it;
    with three machines or more it returns. *)
Theorem local_search_idle_after_lpt (ts : list Z) (m cap : Z)
        (t_start t_end : Q) (st : TaskScheduler) :
  Forall (fun d => 0 <= d) ts ->
  1 <= m -> tasks st = ts -> num_machines st = m ->
  exists st1 sched mk t,
    lpt_schedule t_start t_end st = Return st1 (sched, mk, t)
    /\ (local_search_optimization cap st1 = Return st1 (mk, 0)
        \/ local_search_optimization cap st1 = Raise st1 ValueError)
    /\ (3 <= m -> local_search_optimization cap st1 = Return st1 (mk, 0)).
Proof.
  intros Hpos Hm Hts Hnm. subst ts m.
  destruct (lpt_schedule_returns t_start t_end st Hm)
    as (st1 & Hret & Hg & _ & _ & Hn & _).
  pose proof (lpt_schedule_consistent _ _ _ Hm Hret) as Hc.
  exists st1, (schedule st1), (makespan st1), (execution_time st1).
  split; [exact Hret|].
  assert (settled (schedule st1) (machine_loads st1)) as Hset.
  { apply (greedy_assign_settled Hg).
    - intros u Hu.
      apply (Permutation_in _ (Permutation_sym (sorted_desc_perm _)))
        in Hu.
      apply enumerate_durations_in in Hu.
      rewrite Forall_forall in Hpos. apply Hpos, Hu.
    - simpl. unfold py_range. rewrite map_const_repeat.
      apply settled_initial. }
  unfold local_search_optimization.
  destruct (Z.to_nat cap) as [|r]; simpl; [auto|].
  destruct (ls_step st1) as [st2 e| |st2] eqn:Estep.
  - rewrite (ls_step_raised_same Hc Estep),
      (ls_step_raises_value_error Hc Estep).
    split; [auto|]. intros H3. exfalso.
    apply (ls_step_no_raise Hc) with (st' := st2) (e := e); [lia|].
    exact Estep.
  - auto.
  - exfalso. exact (settled_no_move Hc Hset Estep).
Qed.

Lemma local_search_idle_after_lpt_witness :
  exists st1 sched mk t,
    lpt_schedule 0 1 (fresh [10; 5; 8; 7; 12; 15; 6; 9; 11; 4] 3)
    = Return st1 (sched, mk, t)
    /\ (local_search_optimization 100 st1 = Return st1 (mk, 0)
        \/ local_search_optimization 100 st1 = Raise st1 ValueError)
    /\ (3 <= 3 ->
        local_search_optimization 100 st1 = Return st1 (mk, 0)).
Proof.
  apply (@local_search_idle_after_lpt [10; 5; 8; 7; 12; 15; 6; 9; 11; 4]
           3 100 0 1 (fresh [10; 5; 8; 7; 12; 15; 6; 9; 11; 4] 3));
    [repeat constructor; lia | lia | reflexivity | reflexivity].
Defined.

(** With a negative duration the local search can move a task after
    [lpt_schedule]: the hypothesis above is needed. *)
Example negative_duration_moves :
  exists st1 v st2,
    lpt_schedule 0 1 (fresh [5; -3; 1] 3) = Return st1 v
    /\ machine_loads st1 = [5; 1; -3]
    /\ local_search_optimization 100 st1 = Return st2 (2, 1)
    /\ machine_loads st2 = [0; 1; 2].
Proof.
  exists (mkScheduler [5; -3; 1] 3 [[tk 0 5]; [tk 2 1]; [tk 1 (-3)]]
                      [5; 1; -3] 5 1).
  exists ([[tk 0 5]; [tk 2 1]; [tk 1 (-3)]], 5, 1%Q).
  exists (mkScheduler [5; -3; 1] 3 [[]; [tk 2 1]; [tk 1 (-3); tk 0 5]]
                      [0; 1; 2] 2 1).
  repeat split; vm_compute; reflexivity.
Qed.

(** ** Counting the iterations *)

Lemma ls_loop_accounting remaining :
  forall iterations st st' mk k,
    ls_loop remaining iterations st = Return st' (mk, k) ->
    iterations <= k <= iterations + Z.of_nat remaining
    /\ mk = makespan st'
    /\ makespan st' + (k - iterations) <= makespan st.
Proof.
  induction remaining as [|r IH]; intros iterations st st' mk k; simpl.
  - intros [= <- <- <-]. lia.
  - destruct (ls_step st) as [st1 e| |st1] eqn:Estep.
    + discriminate.
    + intros [= <- <- <-]. lia.
    + intros Hrun. apply ls_step_moved_decreases in Estep.
      destruct (IH _ _ _ _ _ Hrun) as (H1 & H2 & H3). lia.
Qed.

(** X6. Whatever the object holds, when [local_search_optimization]
    returns [(makespan, iterations)], the count lies between 0 and the
    cap (it is 0 for a cap that is not positive), the makespan returned
    is the stored one, and it is below the makespan at the call by at
    least the number of iterations. *)
Theorem local_search_iterations_pay (cap : Z) (st st' : TaskScheduler)
        (mk its : Z) :
  local_search_optimization cap st = Return st' (mk, its) ->
  0 <= its <= Z.max 0 cap
  /\ mk = makespan st'
  /\ mk + its <= makespan st.
Proof.
  unfold local_search_optimization. intros H.
  destruct (ls_loop_accounting _ _ _ H) as (H1 & H2 & H3). lia.
Qed.

Lemma local_search_iterations_pay_witness :
  0 <= 1 <= Z.max 0 100
  /\ 4 = makespan (mkScheduler [2; 2; 2; 1; 3] 3
                     [[tk 1 2; tk 2 2]; [tk 3 1; tk 0 2]; [tk 4 3]]
                     [4; 3; 3] 4 0)
  /\ 4 + 1 <= makespan unbalanced.
Proof.
  apply (@local_search_iterations_pay 100 unbalanced
           (mkScheduler [2; 2; 2; 1; 3] 3
              [[tk 1 2; tk 2 2]; [tk 3 1; tk 0 2]; [tk 4 3]]
              [4; 3; 3] 4 0) 4 1).
  vm_compute. reflexivity.
Defined.

(** ** Without machines *)

Lemma sorted_desc_nonempty x l : sorted_desc (x :: l) <> [].
Proof.
  intros E. apply (f_equal (@length task)) in E.
  rewrite <- (Permutation_length (sorted_desc_perm (x :: l))) in E.
  discriminate.
Qed.

(** X7. On an object whose machine count is not positive,
    [lpt_schedule] never returns: with a task to place the first
    [heappop] raises [IndexError], and without any task [max] of the
    empty load list raises [ValueError].  By then the call has replaced
    the schedule and the loads by empty lists; the makespan and the
    execution time are as before. *)
Theorem lpt_schedule_without_machines (t_start t_end : Q)
        (st : TaskScheduler) :
  num_machines st <= 0 ->
  lpt_schedule t_start t_end st
  = Raise (mkScheduler (tasks st) (num_machines st) [] []
                       (makespan st) (execution_time st))
          (match tasks st with
           | [] => ValueError
           | _ :: _ => IndexError
           end).
Proof.
  intros Hm. unfold lpt_schedule, py_range, heapify.
  replace (Z.to_nat (num_machines st)) with 0%nat by lia. simpl.
  unfold enumerate.
  destruct (tasks st) as [|d ts] eqn:Et; simpl.
  - unfold set_machine_loads, set_schedule. simpl. rewrite Et.
    reflexivity.
  - destruct (insert_desc (0%nat, d) (sorted_desc (enumerate_from 1 ts)))
      as [|[task_id task_duration] rest] eqn:E.
    + exfalso. apply (@sorted_desc_nonempty (0%nat, d)
                                            (enumerate_from 1 ts)).
      exact E.
    + simpl. unfold set_machine_loads, set_schedule. simpl. rewrite Et.
      reflexivity.
Qed.

Lemma lpt_schedule_without_machines_witness :
  lpt_schedule 0 1 (used [5; 1] (-2))
  = Raise (mkScheduler (tasks (used [5; 1] (-2)))
                       (num_machines (used [5; 1] (-2))) [] []
                       (makespan (used [5; 1] (-2)))
                       (execution_time (used [5; 1] (-2))))
          (match tasks (used [5; 1] (-2)) with
           | [] => ValueError
           | _ :: _ => IndexError
           end).
Proof.
  apply (@lpt_schedule_without_machines 0 1 (used [5; 1] (-2))).
  simpl. lia.
Defined.

(** ** What the statistics can raise *)

(** A positive number of [d] binary digits is at least [2 ^ (d - 1)]. *)
Lemma digits2_pos_lower p : 2 ^ (Zpos (digits2_pos p) - 1) <= Zpos p.
Proof.
  induction p as [p IH|p IH|]; simpl digits2_pos.
  - rewrite Pos2Z.inj_succ.
    replace (Z.succ (Zpos (digits2_pos p)) - 1)
      with (Z.succ (Zpos (digits2_pos p) - 1)) by lia.
    rewrite Z.pow_succ_r by lia. lia.
  - rewrite Pos2Z.inj_succ.
    replace (Z.succ (Zpos (digits2_pos p)) - 1)
      with (Z.succ (Zpos (digits2_pos p) - 1)) by lia.
    rewrite Z.pow_succ_r by lia. lia.
  - simpl. lia.
Qed.

(** One step of the rounding shift halves the mantissa. *)
Lemma shr_1_half r : 0 <= shr_m r -> shr_m (shr_1 r) = shr_m r / 2.
Proof.
  destruct r as [m r s]. simpl. intros Hm.
  destruct m as [|[p|p|]|p]; simpl; try reflexivity; try lia.
  - apply Z.div_unique with 1; lia.
  - apply Z.div_unique with 0; lia.
Qed.

Lemma pow_xO p : 2 ^ Zpos p~0 = 2 ^ Zpos p * 2 ^ Zpos p.
Proof.
  rewrite <- Z.pow_add_r by lia. f_equal. lia.
Qed.

Lemma pow_xI p : 2 ^ Zpos p~1 = 2 * (2 ^ Zpos p * 2 ^ Zpos p).
Proof.
  rewrite <- Z.pow_add_r, <- Z.pow_succ_r by lia. f_equal. lia.
Qed.

Lemma iter_shr_1 p : forall r,
  0 <= shr_m r -> shr_m (iter_pos shr_1 p r) = shr_m r / 2 ^ Zpos p.
Proof.
  induction p as [p IH|p IH|]; intros r Hr; simpl iter_pos.
  - assert (0 <= shr_m (shr_1 r)) as H1
        by (rewrite shr_1_half by exact Hr; apply Z.div_pos; lia).
    assert (0 <= shr_m (iter_pos shr_1 p (shr_1 r))) as H2
        by (rewrite IH by exact H1; apply Z.div_pos; lia).
    rewrite IH, IH, shr_1_half by assumption.
    rewrite !Z.div_div by lia. f_equal.
    rewrite pow_xI. ring.
  - assert (0 <= shr_m (iter_pos shr_1 p r)) as H2
        by (rewrite IH by exact Hr; apply Z.div_pos; lia).
    rewrite IH, IH by assumption.
    rewrite !Z.div_div by lia. f_equal.
    rewrite pow_xO. ring.
  - rewrite shr_1_half by exact Hr. reflexivity.
Qed.

Lemma shr_m_of_loc m l : shr_m (shr_record_of_loc m l) = m.
Proof.
  destruct l as [|[| |]]; reflexivity.
Qed.

(** Above the least exponent the shift that brings a mantissa to 53
    bits leaves it positive. *)
Lemma shr_fexp_positive m e l :
  0 < m -> emin mant_dig max_exp <= e ->
  0 < shr_m (fst (shr_fexp mant_dig max_exp m e l))
  /\ emin mant_dig max_exp <= snd (shr_fexp mant_dig max_exp m e l).
Proof.
  intros Hm He. unfold shr_fexp, shr.
  destruct (fexp mant_dig max_exp (Zdigits2 m + e) - e) as [|n|n] eqn:En;
    simpl fst; simpl snd; try (rewrite shr_m_of_loc; lia).
  rewrite iter_shr_1 by (rewrite shr_m_of_loc; lia).
  rewrite shr_m_of_loc.
  destruct m as [|p|p]; try lia. simpl Zdigits2 in En.
  pose proof (digits2_pos_lower p) as Hd.
  unfold fexp in En.
  assert (Zpos n = Zpos (digits2_pos p) - mant_dig) as Hn by lia.
  split; [|lia].
  apply Z.div_str_pos. split; [lia|].
  apply Z.le_trans with (2 ^ (Zpos (digits2_pos p) - 1)); [|exact Hd].
  apply Z.pow_le_mono_r; [lia|]. unfold mant_dig in Hn. lia.
Qed.

Lemma round_nearest_even_positive m l : 0 < m -> 0 < round_nearest_even m l.
Proof.
  intros Hm. destruct l as [|[| |]]; simpl; try lia.
  destruct (Z.even m); lia.
Qed.

Lemma binary_round_aux_nonzero sx m e l s :
  0 < m -> emin mant_dig max_exp <= e ->
  binary_round_aux mant_dig max_exp sx m e l <> S754_zero s.
Proof.
  intros Hm He. unfold binary_round_aux.
  destruct (shr_fexp_positive l Hm He) as [H1 H2].
  destruct (shr_fexp mant_dig max_exp m e l) as [mrs' e']. simpl in H1, H2.
  pose proof (round_nearest_even_positive (loc_of_shr_record mrs') H1) as H3.
  destruct (shr_fexp_positive loc_Exact H3 H2) as [H4 _].
  destruct (shr_fexp mant_dig max_exp _ e' loc_Exact) as [mrs'' e''].
  simpl in H4.
  destruct (shr_m mrs'') as [|q|q]; try lia.
  destruct (e'' <=? max_exp - mant_dig); discriminate.
Qed.

(** [float(z)] is not zero unless [z] is. *)
Lemma float_of_int_nonzero z x s :
  z <> 0 -> float_of_int z = inr x -> x <> S754_zero s.
Proof.
  intros Hz. unfold float_of_int, binary_normalize, binary_round.
  assert (forall sx p, binary_round_aux mant_dig max_exp sx
             (Zpos (fst (shl_align p 0 (fexp mant_dig max_exp (Zpos (digits2_pos p) + 0)))))
             (snd (shl_align p 0 (fexp mant_dig max_exp (Zpos (digits2_pos p) + 0))))
             loc_Exact <> S754_zero s) as Hround.
  { intros sx p. apply binary_round_aux_nonzero; [lia|].
    unfold shl_align.
    destruct (fexp mant_dig max_exp (Zpos (digits2_pos p) + 0) - 0) eqn:E;
      simpl snd; unfold fexp, emin, mant_dig, max_exp in *; lia. }
  destruct z as [|p|p]; [contradiction| |].
  - specialize (Hround false p).
    destruct (shl_align p 0 _) as [mz ez]. simpl in Hround.
    destruct (binary_round_aux _ _ _ _ _ _); simpl; intros [= <-]; auto;
      discriminate.
  - specialize (Hround true p).
    destruct (shl_align p 0 _) as [mz ez]. simpl in Hround.
    destruct (binary_round_aux _ _ _ _ _ _); simpl; intros [= <-]; auto;
      discriminate.
Qed.

(** What each operation can raise. *)
Lemma int_truediv_raises a b e :
  int_truediv a b = inl e ->
  (e = ZeroDivisionError /\ b = 0) \/ e = OverflowError.
Proof.
  unfold int_truediv. destruct (Z.eqb_spec b 0) as [Hb|_].
  - intros [= <-]. auto.
  - destruct (SFdiv _ _ _ _); simpl; intros [= <-]. auto.
Qed.

Lemma float_of_int_raises z e : float_of_int z = inl e -> e = OverflowError.
Proof.
  unfold float_of_int.
  destruct (binary_normalize _ _ _ _ _); simpl; intros [= <-]. reflexivity.
Qed.

Lemma float_truediv_returns x y :
  (forall s, y <> S754_zero s) -> exists r, float_truediv x y = inr r.
Proof.
  intros Hy. unfold float_truediv.
  destruct y as [s| | |]; eauto. destruct (Hy s eq_refl).
Qed.

Lemma float_mul_hundred x : exists p, float_mul_int x 100 = inr p.
Proof.
  unfold float_mul_int.
  destruct (float_of_int 100) as [e|y] eqn:E;
    [vm_compute in E; discriminate|].
  simpl. eauto.
Qed.

Lemma float_gt_int_nonzero x s : float_gt_int x 0 = true -> x <> S754_zero s.
Proof.
  intros H ->. destruct s; vm_compute in H; discriminate.
Qed.

(** A division by a positive integer raises nothing but
    [OverflowError]. *)
Lemma truediv_by_positive a k e :
  0 < k -> truediv a (PyInt k) = inl e -> e = OverflowError.
Proof.
  intros Hk. destruct a as [z|x]; cbn [truediv to_float bind].
  - intros H. destruct (int_truediv_raises _ _ H) as [[_ ->]|]; [lia|auto].
  - destruct (float_of_int k) as [e'|y] eqn:E; cbn [bind].
    + intros [= <-]. exact (float_of_int_raises _ E).
    + destruct (@float_truediv_returns x y) as [r ->]; [|discriminate].
      intros s. apply (float_of_int_nonzero (z := k)); [lia | exact E].
Qed.

Lemma percentage_raises a k e :
  0 < k -> percentage a k = inl e -> e = OverflowError.
Proof.
  intros Hk. unfold percentage.
  destruct (truediv a (PyInt k)) as [e'|r] eqn:E; cbn [bind].
  - intros [= <-]. exact (truediv_by_positive _ Hk E).
  - destruct (float_mul_hundred r) as [p ->]. discriminate.
Qed.

Lemma truediv_by_greater_than_zero k b e :
  number_gt b (PyInt 0) = true ->
  truediv (PyInt k) b = inl e -> e = OverflowError.
Proof.
  intros Hb. destruct b as [z|x]; cbn [truediv to_float bind number_gt] in *.
  - intros H. destruct (int_truediv_raises _ _ H) as [[_ ->]|];
      [discriminate|auto].
  - destruct (float_of_int k) as [e'|y] eqn:E; cbn [bind].
    + intros [= <-]. exact (float_of_int_raises _ E).
    + destruct (@float_truediv_returns y x) as [r ->]; [|discriminate].
      intros s. apply float_gt_int_nonzero. exact Hb.
Qed.

Lemma float_of_fraction_raises q e :
  float_of_fraction q = inl e -> e = OverflowError.
Proof.
  unfold float_of_fraction. intros H.
  destruct (int_truediv_raises _ _ H) as [[_ H0]|]; [|auto].
  unfold denominator in H0. discriminate.
Qed.

Lemma variance_raises l e :
  variance l = inl e ->
  (e = StatisticsError /\ (length l < 2)%nat) \/ e = OverflowError.
Proof.
  unfold variance.
  destruct (Z.ltb_spec (Z.of_nat (length l)) 2) as [Hn|_].
  - intros [= <-]. left. split; [reflexivity | lia].
  - destruct (denominator _ =? 1); [discriminate|].
    destruct (float_of_fraction _) as [e'|x] eqn:E; cbn [bind]; [|discriminate].
    intros [= <-]. right. exact (float_of_fraction_raises _ E).
Qed.

Lemma float_sqrt_of_frac_raises n m e :
  float_sqrt_of_frac n m = inl e -> e = OverflowError.
Proof.
  unfold float_sqrt_of_frac.
  set (q := (bit_length n - bit_length m - sqrt_bit_width) / 2).
  destruct (Z.leb_spec 0 q) as [Hq|Hq]; intros H;
    destruct (int_truediv_raises _ _ H) as [[_ H0]|]; auto.
  - discriminate.
  - rewrite Z.shiftl_1_l in H0.
    assert (0 < 2 ^ (- q)) by (apply Z.pow_pos_nonneg; lia). lia.
Qed.

Lemma stdev_raises l e :
  stdev l = inl e ->
  (e = StatisticsError /\ (length l < 2)%nat) \/ e = OverflowError.
Proof.
  unfold stdev.
  destruct (Z.ltb_spec (Z.of_nat (length l)) 2) as [Hn|_].
  - intros [= <-]. left. split; [reflexivity | lia].
  - intros H. right. exact (float_sqrt_of_frac_raises _ _ H).
Qed.

Lemma mean_raises l e :
  mean l = inl e -> (e = StatisticsError /\ l = []) \/ e = OverflowError.
Proof.
  unfold mean.
  destruct (Z.ltb_spec (Z.of_nat (length l)) 1) as [Hn|Hn].
  - intros [= <-]. left. split; [reflexivity|].
    destruct l; [reflexivity | simpl in Hn; lia].
  - destruct (partials l 0 None) as [total [special|]].
    + destruct (float_of_int (Z.of_nat (length l))) as [e'|d] eqn:E; cbn [bind].
      * intros [= <-]. right. exact (float_of_int_raises _ E).
      * destruct (@float_truediv_returns special d) as [r ->];
          [|discriminate].
        intros s. apply (float_of_int_nonzero (z := Z.of_nat (length l)));
          [lia | exact E].
    + destruct (existsb is_float l || _); [|discriminate].
      destruct (float_of_fraction _) as [e'|x] eqn:E; cbn [bind]; [|discriminate].
      intros [= <-]. right. exact (float_of_fraction_raises _ E).
Qed.

Lemma traverse_raises {A B : Type} (f : A -> result B) l e :
  traverse f l = inl e -> exists a, In a l /\ f a = inl e.
Proof.
  induction l as [|a l IH]; simpl; [discriminate|].
  destruct (f a) as [e'|b] eqn:E; cbn [bind].
  - intros [= <-]. exists a. auto.
  - destruct (traverse f l) as [e'|bs]; simpl; [|discriminate].
    intros [= <-]. destruct (IH eq_refl) as (a' & Hin & Ha'). eauto.
Qed.

Lemma traverse_length {A B : Type} (f : A -> result B) l bs :
  traverse f l = inr bs -> length bs = length l.
Proof.
  revert bs. induction l as [|a l IH]; simpl; intros bs.
  - intros [= <-]. reflexivity.
  - destruct (f a) as [e'|b]; simpl; [discriminate|].
    destruct (traverse f l) as [e'|bs']; simpl; [discriminate|].
    intros [= <-]. simpl. rewrite (IH bs' eq_refl). reflexivity.
Qed.

Lemma py_max_none l : py_max l = None -> l = [].
Proof.
  destruct l; [reflexivity | discriminate].
Qed.

Lemma py_min_none l : py_min l = None -> l = [].
Proof.
  destruct l; [reflexivity | discriminate].
Qed.

(** The method line by line: the first call that raises decides the
    exception. *)
Lemma calculate_statistics_cases st :
  (exists e,
      calculate_statistics st = Raise st e
      /\ ((e = ZeroDivisionError /\ num_machines st = 0)
          \/ (e = OverflowError /\ num_machines st <> 0)
          \/ (e = ValueError /\ num_machines st <> 0
              /\ (tasks st = [] \/ machine_loads st = []))))
  \/ (exists s,
         calculate_statistics st = Return st s
         /\ num_machines st <> 0
         /\ tasks st <> []
         /\ machine_loads st <> []
         /\ total_tasks s = length (tasks st)
         /\ stat_num_machines s = num_machines st
         /\ total_work s = py_sum (tasks st)
         /\ stat_makespan s = makespan st
         /\ int_truediv (py_sum (tasks st)) (num_machines st)
            = inr (average_load s)
         /\ py_min (machine_loads st) = Some (min_load s)
         /\ py_max (machine_loads st) = Some (max_load s)
         /\ length (utilizations s) = length (machine_loads st)
         /\ stat_execution_time s = execution_time st).
Proof.
  unfold calculate_statistics.
  destruct (int_truediv (py_sum (tasks st)) (num_machines st))
    as [e|average_load] eqn:E1; cbn [bind].
  { left. exists e. split; [reflexivity|].
    destruct (int_truediv_raises _ _ E1) as [[-> H0]| ->]; auto.
    right. left. split; [reflexivity|]. intros H0. rewrite H0 in E1.
    unfold int_truediv in E1. simpl in E1. discriminate. }
  assert (num_machines st <> 0) as Hm.
  { intros H0. rewrite H0 in E1. unfold int_truediv in E1. simpl in E1.
    discriminate. }
  assert (forall e, e = OverflowError ->
            (e = ZeroDivisionError /\ num_machines st = 0)
            \/ (e = OverflowError /\ num_machines st <> 0)
            \/ (e = ValueError /\ num_machines st <> 0
                /\ (tasks st = [] \/ machine_loads st = []))) as Hover
      by (intros e ->; auto).
  destruct (if (1 <? length (machine_loads st))%nat
            then variance (machine_loads st) else inr (PyInt 0))
    as [e|load_variance] eqn:E2; cbn [bind].
  { left. exists e. split; [reflexivity|]. apply Hover.
    destruct (Nat.ltb_spec 1 (length (machine_loads st))) as [Hlen|_];
      [|discriminate].
    destruct (variance_raises _ E2) as [[_ H]|]; [lia|assumption]. }
  destruct (if (1 <? length (machine_loads st))%nat
            then x <- stdev (machine_loads st) ;; inr (PyFloat x)
            else inr (PyInt 0))
    as [e|load_std_dev] eqn:E3; cbn [bind].
  { left. exists e. split; [reflexivity|]. apply Hover.
    destruct (Nat.ltb_spec 1 (length (machine_loads st))) as [Hlen|_];
      [|discriminate].
    destruct (stdev (machine_loads st)) as [e'|x] eqn:E; cbn [bind] in E3;
      [|discriminate].
    injection E3 as <-.
    destruct (stdev_raises _ E) as [[_ H]|]; [lia|assumption]. }
  destruct (traverse _ (machine_loads st)) as [e|utilizations] eqn:E4;
    cbn [bind].
  { left. exists e. split; [reflexivity|]. apply Hover.
    destruct (traverse_raises _ _ E4) as (load & _ & H).
    destruct (Z.ltb_spec 0 (makespan st)) as [Hk|_]; [|discriminate].
    exact (percentage_raises _ Hk H). }
  destruct (if 0 <? makespan st
            then percentage (PyFloat average_load) (makespan st)
            else inr (PyInt 0))
    as [e|efficiency] eqn:E5; cbn [bind].
  { left. exists e. split; [reflexivity|]. apply Hover.
    destruct (Z.ltb_spec 0 (makespan st)) as [Hk|_]; [|discriminate].
    exact (percentage_raises _ Hk E5). }
  destruct (py_max (tasks st)) as [longest|] eqn:E6; cbn [or_raise bind].
  2:{ left. exists ValueError. split; [reflexivity|].
      right. right. split; [reflexivity|]. split; [exact Hm|].
      left. exact (py_max_none _ E6). }
  destruct (if number_gt (max_of_two (PyFloat average_load) (PyInt longest))
                         (PyInt 0)
            then truediv (PyInt (makespan st))
                         (max_of_two (PyFloat average_load) (PyInt longest))
            else inr float_one)
    as [e|approximation_ratio] eqn:E7; cbn [bind].
  { left. exists e. split; [reflexivity|]. apply Hover.
    destruct (number_gt _ (PyInt 0)) eqn:Hgt; [|discriminate].
    exact (truediv_by_greater_than_zero _ _ Hgt E7). }
  destruct (py_min (machine_loads st)) as [lo|] eqn:E8; cbn [or_raise bind].
  2:{ left. exists ValueError. split; [reflexivity|].
      right. right. split; [reflexivity|]. split; [exact Hm|].
      right. exact (py_min_none _ E8). }
  destruct (py_max (machine_loads st)) as [hi|] eqn:E9; cbn [or_raise bind].
  2:{ left. exists ValueError. split; [reflexivity|].
      right. right. split; [reflexivity|]. split; [exact Hm|].
      right. exact (py_max_none _ E9). }
  pose proof (traverse_length _ _ E4) as Hlen.
  destruct (mean utilizations) as [e|average_utilization] eqn:E10;
    cbn [bind].
  { left. exists e. split; [reflexivity|]. apply Hover.
    destruct (mean_raises _ E10) as [[_ ->]|]; [|assumption].
    destruct (machine_loads st); [discriminate | simpl in Hlen; lia]. }
  right. eexists. split; [reflexivity|]. simpl.
  split; [exact Hm|].
  split; [intros H; rewrite H in E6; discriminate|].
  split; [intros H; rewrite H in E8; discriminate|].
  repeat split; auto.
Qed.

(** X8. [calculate_statistics] never changes the object.  It raises
    [ZeroDivisionError] exactly when the machine count is 0; the other
    exceptions it can raise are [OverflowError] and, only without tasks
    or without loads, [ValueError]: the guards on the number of loads
    keep [StatisticsError] out.  When it returns there are tasks and
    loads, and the entries that are integers are the number of tasks,
    their total duration, the stored makespan and the least and the
    greatest load, next to one utilization per load. *)
Theorem calculate_statistics_outcome (st : TaskScheduler) :
  final_state (calculate_statistics st) = st
  /\ (calculate_statistics st = Raise st ZeroDivisionError
      <-> num_machines st = 0)
  /\ (forall e,
         calculate_statistics st = Raise st e ->
         e = ZeroDivisionError \/ e = OverflowError
         \/ (e = ValueError
             /\ (tasks st = [] \/ machine_loads st = [])))
  /\ (forall s,
         calculate_statistics st = Return st s ->
         num_machines st <> 0
         /\ tasks st <> []
         /\ machine_loads st <> []
         /\ total_tasks s = length (tasks st)
         /\ stat_num_machines s = num_machines st
         /\ total_work s = py_sum (tasks st)
         /\ stat_makespan s = makespan st
         /\ int_truediv (py_sum (tasks st)) (num_machines st)
            = inr (average_load s)
         /\ py_min (machine_loads st) = Some (min_load s)
         /\ py_max (machine_loads st) = Some (max_load s)
         /\ length (utilizations s) = length (machine_loads st)
         /\ stat_execution_time s = execution_time st).
Proof.
  destruct (calculate_statistics_cases st)
    as [(e & -> & He)|(s & -> & Hs)].
  - split; [reflexivity|]. split; [|split].
    + split.
      * intros [= ->].
        destruct He as [[_ H]|[[H _]|(H & _)]]; [exact H|discriminate..].
      * intros H0.
        destruct He as [[-> _]|[[_ H]|(_ & H & _)]];
          [reflexivity|contradiction..].
    + intros e' [= <-].
      destruct He as [[H _]|[[H _]|(H & _ & H')]]; auto.
    + intros s [=].
  - split; [reflexivity|]. split; [|split].
    + split; [intros [=]|]. intros H0. destruct Hs as [H _]. contradiction.
    + intros e [=].
    + intros s' [= <-]. exact Hs.
Qed.

(** ** The size of rounded results *)

Lemma digits2_pos_upper p : Zpos p < 2 ^ Zpos (digits2_pos p).
Proof.
  induction p as [p IH|p IH|]; simpl digits2_pos;
    try (rewrite Pos2Z.inj_succ, Z.pow_succ_r by lia; lia).
  reflexivity.
Qed.

(** The number of binary digits of a positive number. *)
Lemma Zdigits2_log2 m : 0 < m -> Zdigits2 m = Z.log2 m + 1.
Proof.
  intros Hm. destruct m as [|p|p]; try lia. simpl Zdigits2.
  pose proof (digits2_pos_lower p). pose proof (digits2_pos_upper p).
  assert (Z.log2 (Zpos p) = Zpos (digits2_pos p) - 1); [|lia].
  apply Z.log2_unique; [lia|].
  replace (Z.succ (Zpos (digits2_pos p) - 1)) with (Zpos (digits2_pos p))
    by lia.
  lia.
Qed.

Lemma Zdigits2_nonneg m : 0 <= Zdigits2 m.
Proof.
  destruct m; simpl; lia.
Qed.

Lemma Zdigits2_below m k : 0 <= m -> 0 <= k -> m < 2 ^ k -> Zdigits2 m <= k.
Proof.
  intros Hm Hk Hlt. destruct (Z.eq_dec m 0) as [->|Hne]; [simpl; lia|].
  rewrite Zdigits2_log2 by lia.
  assert (Z.log2 m < k) by (apply Z.log2_lt_pow2; lia). lia.
Qed.

Lemma Zdigits2_above m : 0 <= m -> m < 2 ^ Zdigits2 m.
Proof.
  intros Hm. destruct (Z.eq_dec m 0) as [->|Hne]; [simpl; lia|].
  rewrite Zdigits2_log2 by lia.
  destruct (Z.log2_spec m) as [_ H]; [lia|]. exact H.
Qed.

Lemma Zdigits2_least m : 0 < m -> 2 ^ (Zdigits2 m - 1) <= m.
Proof.
  intros Hm. rewrite Zdigits2_log2 by lia.
  replace (Z.log2 m + 1 - 1) with (Z.log2 m) by lia.
  destruct (Z.log2_spec m) as [H _]; [lia|]. exact H.
Qed.

Lemma Zdigits2_mono a b : 0 <= a -> a <= b -> Zdigits2 a <= Zdigits2 b.
Proof.
  intros Ha Hab. apply Zdigits2_below; [lia | apply Zdigits2_nonneg|].
  pose proof (@Zdigits2_above b). lia.
Qed.

Lemma Zdigits2_succ m : 0 <= m -> Zdigits2 (m + 1) <= Zdigits2 m + 1.
Proof.
  intros Hm. apply Zdigits2_below; [lia| pose proof (Zdigits2_nonneg m); lia|].
  pose proof (Zdigits2_above Hm) as H.
  rewrite Z.pow_add_r by (pose proof (Zdigits2_nonneg m); lia).
  lia.
Qed.

(** Shifting [n] digits out leaves [n] digits fewer, if any. *)
Lemma Zdigits2_div m n :
  0 <= m -> 0 <= n -> 0 < m / 2 ^ n -> Zdigits2 (m / 2 ^ n) = Zdigits2 m - n.
Proof.
  intros Hm Hn Hq.
  assert (0 < 2 ^ n) as Hp by (apply Z.pow_pos_nonneg; lia).
  assert (0 < m).
  { destruct (Z.eq_dec m 0) as [->|]; [|lia].
    rewrite Z.div_0_l in Hq by lia. lia. }
  rewrite !Zdigits2_log2 by lia.
  rewrite <- Z.shiftr_div_pow2 by lia.
  rewrite Z.log2_shiftr by lia.
  assert (n <= Z.log2 m); [|lia].
  apply Z.log2_le_pow2; [lia|].
  destruct (Z.le_gt_cases (2 ^ n) m) as [|Hlt]; [assumption|].
  rewrite Z.div_small in Hq by lia. lia.
Qed.

(** The shift that [binary_round_aux] applies: up to the exponent that
    the format gives to a number of this size. *)
Lemma shr_fexp_spec m e l :
  0 <= m ->
  snd (shr_fexp mant_dig max_exp m e l)
  = Z.max e (fexp mant_dig max_exp (Zdigits2 m + e))
  /\ shr_m (fst (shr_fexp mant_dig max_exp m e l))
     = m / 2 ^ (snd (shr_fexp mant_dig max_exp m e l) - e).
Proof.
  intros Hm. unfold shr_fexp, shr.
  destruct (fexp mant_dig max_exp (Zdigits2 m + e) - e) as [|n|n] eqn:En;
    simpl fst; simpl snd.
  - split; [lia|]. rewrite shr_m_of_loc, Z.sub_diag, Z.pow_0_r, Z.div_1_r.
    reflexivity.
  - split; [lia|].
    rewrite iter_shr_1 by (rewrite shr_m_of_loc; lia).
    rewrite shr_m_of_loc. f_equal. f_equal. lia.
  - split; [lia|]. rewrite shr_m_of_loc, Z.sub_diag, Z.pow_0_r, Z.div_1_r.
    reflexivity.
Qed.

Lemma shifted_size m e e' :
  0 <= m -> e <= e' ->
  0 <= m / 2 ^ (e' - e)
  /\ Zdigits2 (m / 2 ^ (e' - e)) + e' <= Z.max (Zdigits2 m + e) e'.
Proof.
  intros Hm He.
  assert (0 < 2 ^ (e' - e)) by (apply Z.pow_pos_nonneg; lia).
  assert (0 <= m / 2 ^ (e' - e)) as H0 by (apply Z.div_pos; lia).
  split; [exact H0|].
  destruct (Z.eq_dec (m / 2 ^ (e' - e)) 0) as [->|Hne]; [simpl; lia|].
  rewrite Zdigits2_div by lia. lia.
Qed.

Lemma round_nearest_even_size m l :
  0 <= m ->
  0 <= round_nearest_even m l
  /\ Zdigits2 (round_nearest_even m l) <= Zdigits2 m + 1.
Proof.
  intros Hm. pose proof (Zdigits2_succ Hm).
  destruct l as [|[| |]]; simpl; try (split; lia).
  destruct (Z.even m); split; lia.
Qed.

(** The size of what [binary_round_aux] returns: one binary digit more
    than its argument at most, and finite below [2 ^ 1024]. *)
Lemma binary_round_aux_size sx mx ex lx :
  0 <= mx ->
  match binary_round_aux mant_dig max_exp sx mx ex lx with
  | S754_zero _ => True
  | S754_finite _ m e =>
    Zpos (digits2_pos m) + e
    <= Z.max (Zdigits2 mx + ex + 1) (Z.max (ex + 1) (-1073))
  | S754_infinity _ => 971 < ex \/ 1023 < Zdigits2 mx + ex
  | S754_nan => False
  end.
Proof.
  intros Hm. unfold binary_round_aux.
  destruct (shr_fexp_spec ex lx Hm) as [He1 Hm1].
  destruct (shr_fexp mant_dig max_exp mx ex lx) as [mrs' e1].
  simpl in He1, Hm1.
  assert (ex <= e1) as Hle1 by lia.
  destruct (shifted_size Hm Hle1) as [H1 H2]. rewrite <- Hm1 in H1, H2.
  destruct (round_nearest_even_size (loc_of_shr_record mrs') H1)
    as [H3 H4].
  set (m1 := round_nearest_even (shr_m mrs') (loc_of_shr_record mrs')) in *.
  destruct (shr_fexp_spec e1 loc_Exact H3) as [He2 Hm2].
  destruct (shr_fexp mant_dig max_exp m1 e1 loc_Exact) as [mrs'' e2].
  simpl in He2, Hm2.
  assert (e1 <= e2) as Hle2 by lia.
  destruct (shifted_size H3 Hle2) as [H5 H6]. rewrite <- Hm2 in H5, H6.
  unfold fexp, emin, mant_dig, max_exp in *.
  destruct (shr_m mrs'') as [|m|m] eqn:Em; [exact I| |lia].
  destruct (Z.leb_spec e2 (1024 - 53)) as [Hfin|Hinf].
  - simpl Zdigits2 in H6. lia.
  - lia.
Qed.

Lemma iter_xO m d : Zpos (Pos.iter xO m d) = Zpos m * 2 ^ Zpos d.
Proof.
  induction d as [|d IH] using Pos.peano_ind.
  - simpl. lia.
  - rewrite Pos.iter_succ, Pos2Z.inj_xO, IH, Pos2Z.inj_succ.
    rewrite Z.pow_succ_r by lia. ring.
Qed.

Lemma Zdigits2_shift m d :
  0 < m -> 0 <= d -> Zdigits2 (m * 2 ^ d) = Zdigits2 m + d.
Proof.
  intros Hm Hd.
  assert (0 < 2 ^ d) by (apply Z.pow_pos_nonneg; lia).
  rewrite !Zdigits2_log2 by nia.
  rewrite Z.log2_mul_pow2 by lia. lia.
Qed.

(** [float(z)] returns for an integer of at most 1023 bits. *)
Lemma float_of_int_returns z :
  Z.abs z < 2 ^ 1023 ->
  exists x, float_of_int z = inr x /\ below (Zdigits2 z + 1) x.
Proof.
  intros Hz. unfold float_of_int, binary_normalize, binary_round.
  assert (forall sx p,
             Zpos p < 2 ^ 1023 ->
             exists x,
               finite_or_overflow
                 (let '(mz, ez) :=
                      shl_align p 0
                        (fexp mant_dig max_exp (Zpos (digits2_pos p) + 0)) in
                  binary_round_aux mant_dig max_exp sx (Zpos mz) ez
                                   loc_Exact) = inr x
               /\ below (Zpos (digits2_pos p) + 1) x) as Hround.
  { intros sx p Hp.
    assert (Zpos (digits2_pos p) <= 1023) as Hd
        by (apply (@Zdigits2_below (Zpos p)); lia).
    unfold shl_align.
    destruct (fexp mant_dig max_exp (Zpos (digits2_pos p) + 0) - 0)
      as [|d|d] eqn:Ed.
    - pose proof (@binary_round_aux_size sx (Zpos p) 0 loc_Exact
                    ltac:(lia)) as H.
      destruct (binary_round_aux _ _ _ _ _ _);
        cbn [finite_or_overflow Zdigits2] in *;
        try (eexists; split; [reflexivity|]; cbn [below];
             first [exact I | lia]);
        exfalso; first [assumption | lia].
    - pose proof (@binary_round_aux_size sx (Zpos p) 0 loc_Exact
                    ltac:(lia)) as H.
      destruct (binary_round_aux _ _ _ _ _ _);
        cbn [finite_or_overflow Zdigits2] in *;
        try (eexists; split; [reflexivity|]; cbn [below];
             first [exact I | lia]);
        exfalso; first [assumption | lia].
    - pose proof (@binary_round_aux_size sx (Zpos (Pos.iter xO p d))
                     (fexp mant_dig max_exp (Zpos (digits2_pos p) + 0))
                     loc_Exact ltac:(lia)) as H.
      set (r := binary_round_aux _ _ _ _ _ _) in *.
      rewrite iter_xO, Zdigits2_shift in H by lia. cbn [Zdigits2] in H.
      unfold fexp, emin, mant_dig, max_exp in H, Ed.
      destruct r;
        cbn [finite_or_overflow Zdigits2] in *;
        try (eexists; split; [reflexivity|]; cbn [below];
             first [exact I | lia]);
        exfalso; first [assumption | lia]. }
  destruct z as [|p|p].
  - exists (S754_zero false). split; [reflexivity | exact I].
  - apply Hround. lia.
  - apply Hround. lia.
Qed.

Lemma div_eucl_div a b : Z.div_eucl a b = (a / b, a mod b).
Proof.
  unfold Z.div, Z.modulo. destruct (Z.div_eucl a b). reflexivity.
Qed.

(** The quotient that [SFdiv] hands to the rounding. *)
Lemma SFdiv_core_binary_size m1 e1 m2 e2 :
  0 < m1 -> 0 < m2 ->
  let '(q, e', _) := SFdiv_core_binary mant_dig max_exp m1 e1 m2 e2 in
  0 <= q /\ e' <= e1 - e2
  /\ Zdigits2 q + e'
     <= Z.max (Zdigits2 m1 + e1 - (Zdigits2 m2 + e2) + 1) e'.
Proof.
  intros H1 H2. unfold SFdiv_core_binary.
  set (e' := Z.min (fexp mant_dig max_exp
                      (Zdigits2 m1 + e1 - (Zdigits2 m2 + e2))) (e1 - e2)).
  set (s := e1 - e2 - e').
  assert (0 <= s) as Hs by (unfold s, e'; lia).
  set (m' := match s with
             | 0 => m1
             | Zpos _ => Z.shiftl m1 s
             | Zneg _ => 0
             end).
  assert (m' = m1 * 2 ^ s) as Hm'.
  { unfold m'. destruct s as [|p|p] eqn:Es; [rewrite Z.pow_0_r; lia| |lia].
    rewrite Z.shiftl_mul_pow2 by lia. reflexivity. }
  rewrite div_eucl_div.
  assert (0 < 2 ^ s) by (apply Z.pow_pos_nonneg; lia).
  assert (0 <= m' / m2) as Hq by (apply Z.div_pos; nia).
  split; [exact Hq|]. split; [unfold e'; lia|].
  destruct (Z.eq_dec (m' / m2) 0) as [->|Hne]; [simpl; lia|].
  assert (m2 <= m') as Hge.
  { destruct (Z.le_gt_cases m2 m') as [|Hlt]; [assumption|].
    rewrite Z.div_small in Hne by lia. lia. }
  pose proof (Zdigits2_least H2) as Hlow.
  assert (0 <= m1) as H1' by lia.
  pose proof (Zdigits2_above H1') as Hup.
  pose proof (Zdigits2_nonneg m1). 
  assert (1 <= Zdigits2 m2)
    by (rewrite Zdigits2_log2 by lia; pose proof (Z.log2_nonneg m2); lia).
  assert (m' < 2 ^ (Zdigits2 m1 + s))
    by (rewrite Hm', Z.pow_add_r by lia; nia).
  assert (Zdigits2 m2 - 1 < Zdigits2 m1 + s) as Hexp.
  { apply (Z.pow_lt_mono_r_iff 2); lia. }
  assert (Zdigits2 (m' / m2) <= Zdigits2 m1 + s - Zdigits2 m2 + 1);
    [|unfold s in *; lia].
  apply Zdigits2_below; [lia|lia|].
  apply Z.div_lt_upper_bound; [lia|].
  apply Z.lt_le_trans with (2 ^ (Zdigits2 m1 + s)); [assumption|].
  replace (Zdigits2 m1 + s)
    with ((Zdigits2 m2 - 1) + (Zdigits2 m1 + s - Zdigits2 m2 + 1)) at 1
    by lia.
  rewrite Z.pow_add_r by lia.
  apply Z.mul_le_mono_nonneg_r; [|exact Hlow].
  apply Z.pow_nonneg. lia.
Qed.

Lemma Zdigits2_unrounded_nonzero z : z <> 0 -> 1 <= Zdigits2 z.
Proof.
  destruct z; simpl; lia.
Qed.

(** [a / b] returns when [a] has at most 1022 bits more than [b], with
    about as many bits before the binary point. *)
Lemma int_truediv_returns a b :
  b <> 0 -> Zdigits2 a - Zdigits2 b <= 1022 ->
  exists x,
    int_truediv a b = inr x
    /\ below (Z.max (Zdigits2 a - Zdigits2 b + 2) 1) x.
Proof.
  intros Hb Hd. unfold int_truediv.
  destruct (Z.eqb_spec b 0) as [|_]; [contradiction|].
  assert (forall sa pa sb pb,
             Zpos (digits2_pos pa) - Zpos (digits2_pos pb) <= 1022 ->
             exists x,
               finite_or_overflow
                 (SFdiv mant_dig max_exp (S754_finite sa pa 0)
                        (S754_finite sb pb 0)) = inr x
               /\ below (Z.max (Zpos (digits2_pos pa)
                                - Zpos (digits2_pos pb) + 2) 1) x) as Hdiv.
  { intros sa pa sb pb Hlen. unfold SFdiv.
    pose proof (@SFdiv_core_binary_size (Zpos pa) 0 (Zpos pb) 0
                  ltac:(lia) ltac:(lia)) as Hcore.
    destruct (SFdiv_core_binary mant_dig max_exp (Zpos pa) 0 (Zpos pb) 0)
      as [[mz ez] lz].
    destruct Hcore as (Hq & He & Hsize). cbn [Zdigits2] in Hsize.
    pose proof (@binary_round_aux_size (xorb sa sb) mz ez lz Hq) as H.
    destruct (binary_round_aux _ _ _ _ _ _); cbn [finite_or_overflow] in *;
      try (eexists; split; [reflexivity|]; cbn [below];
           first [exact I | lia]);
      exfalso; first [assumption | lia]. }
  destruct a as [|pa|pa], b as [|pb|pb]; try contradiction;
    cbn [unrounded Zdigits2] in *;
    try (apply Hdiv; assumption);
    eexists; (split; [reflexivity | exact I]).
Qed.

Lemma Zdigits2_mul a b :
  0 < a -> 0 < b -> Zdigits2 (a * b) <= Zdigits2 a + Zdigits2 b.
Proof.
  intros Ha Hb.
  pose proof (Zdigits2_nonneg a). pose proof (Zdigits2_nonneg b).
  apply Zdigits2_below; [nia|lia|].
  rewrite Z.pow_add_r by lia.
  pose proof (@Zdigits2_above a ltac:(lia)).
  pose proof (@Zdigits2_above b ltac:(lia)). nia.
Qed.

(** The size of a product. *)
Lemma SFmul_below x y kx ky :
  below kx x -> below ky y ->
  below (Z.max (kx + ky + 1) (-1073)) (SFmul mant_dig max_exp x y).
Proof.
  destruct x as [sx|sx| |sx mx ex], y as [sy|sy| |sy my ey];
    try (intros; exact I).
  cbn [below SFmul]. intros Hx Hy.
  pose proof (@binary_round_aux_size (xorb sx sy) (Zpos (mx * my))
                (ex + ey) loc_Exact ltac:(lia)) as H.
  pose proof (@Zdigits2_mul (Zpos mx) (Zpos my) ltac:(lia) ltac:(lia))
    as Hmul.
  rewrite <- Pos2Z.inj_mul in Hmul. cbn [Zdigits2] in H, Hmul.
  destruct (binary_round_aux _ _ _ _ _ _); cbn [below]; try exact I.
  lia.
Qed.

Lemma float_of_int_hundred : float_of_int 100 = inr float_hundred.
Proof.
  vm_compute. reflexivity.
Qed.

(** A percentage of integers returns, and is finite or an infinity. *)
Lemma percentage_returns load k :
  k <> 0 -> Zdigits2 load - Zdigits2 k <= 1022 ->
  exists u,
    percentage (PyInt load) k = inr (PyFloat u)
    /\ below (Z.max (Zdigits2 load - Zdigits2 k + 10) 9) u.
Proof.
  intros Hk Hd. unfold percentage. cbn [truediv].
  destruct (int_truediv_returns _ Hk Hd) as (x & -> & Hx). cbn [bind].
  unfold float_mul_int. rewrite float_of_int_hundred. cbn [bind].
  eexists. split; [reflexivity|].
  assert (below 7 float_hundred) as Hh by (vm_compute; discriminate).
  pose proof (@SFmul_below x float_hundred _ _ Hx Hh) as H.
  destruct (SFmul _ _ x float_hundred); cbn [below] in *; try exact I. lia.
Qed.

(** ** The mean of bounded items *)

Lemma as_integer_ratio_within x k q :
  0 <= k -> below k x -> as_integer_ratio x = Some q -> within k q.
Proof.
  intros Hk Hx. destruct x as [s|s| |s m e]; try discriminate.
  - intros [= <-]. unfold within, Qle. simpl.
    assert (0 < 2 ^ k) by (apply Z.pow_pos_nonneg; lia). lia.
  - cbn [below] in Hx. cbn [as_integer_ratio]. intros [= <-].
    pose proof (digits2_pos_upper m) as Hm.
    assert (0 < 2 ^ k) by (apply Z.pow_pos_nonneg; lia).
    destruct e as [|p|p].
    + assert (2 ^ Zpos (digits2_pos m) <= 2 ^ k)
        by (apply Z.pow_le_mono_r; lia).
      unfold within, Qle. destruct s; simpl; lia.
    + assert (Zpos m * 2 ^ Zpos p < 2 ^ k).
      { apply Z.lt_le_trans with (2 ^ (Zpos (digits2_pos m) + Zpos p)).
        - rewrite Z.pow_add_r by lia.
          assert (0 < 2 ^ Zpos p) by (apply Z.pow_pos_nonneg; lia). nia.
        - apply Z.pow_le_mono_r; lia. }
      unfold within, Qle. destruct s; cbn [Qnum Qden inject_Z Qopp];
        rewrite ?Z.mul_1_r; lia.
    + assert (Zpos m < 2 ^ (k + Zpos p)).
      { apply Z.lt_le_trans with (2 ^ Zpos (digits2_pos m)); [exact Hm|].
        apply Z.pow_le_mono_r; lia. }
      rewrite Z.pow_add_r in H0 by lia.
      unfold within, Qle. destruct s; cbn [Qnum Qden inject_Z Qopp];
        rewrite ?Z.mul_1_r, Pos2Z.inj_pow; cbn [Z.opp]; lia.
Qed.

Lemma exact_ratio_within a k q :
  0 <= k -> item_within k a -> exact_ratio a = Some q -> within k q.
Proof.
  intros Hk Ha. destruct a as [z|x]; cbn [exact_ratio item_within] in *.
  - intros [= <-]. unfold within, Qle. simpl. lia.
  - apply as_integer_ratio_within; assumption.
Qed.

(** Once an infinity or a NaN has been met, the sum stays special. *)
Lemma partials_special data : forall finite y,
  exists total z, partials data finite (Some y) = (total, Some z).
Proof.
  induction data as [|a t IH]; intros finite y; cbn [partials]; eauto.
  destruct (exact_ratio a) as [q|]; [apply IH|].
  destruct a as [z|x]; apply IH.
Qed.

Lemma partials_within k data : forall finite total,
  0 <= k -> Forall (item_within k) data ->
  partials data finite None = (total, None) ->
  (finite - inject_Z (Z.of_nat (length data) * 2 ^ k) <= total
   /\ total <= finite + inject_Z (Z.of_nat (length data) * 2 ^ k))%Q.
Proof.
  induction data as [|a t IH]; intros finite total Hk Hall; cbn [partials].
  - intros [= <-]. simpl. unfold inject_Z. split; lra.
  - inversion Hall as [|a' t' Ha Ht]; subst.
    destruct (exact_ratio a) as [q|] eqn:Eq.
    + intros H. destruct (IH _ _ Hk Ht H) as [H1 H2].
      destruct (exact_ratio_within _ Hk Ha Eq) as [H3 H4].
      assert (inject_Z (Z.of_nat (length (a :: t)) * 2 ^ k)
              == inject_Z (Z.of_nat (length t) * 2 ^ k) + inject_Z (2 ^ k))%Q
        as Hlen.
      { rewrite <- inject_Z_plus. apply inject_Z_injective.
        change (length (a :: t)) with (S (length t)). lia. }
      rewrite Hlen. split; lra.
    + destruct a as [z|x].
      * intros H. destruct (partials_special t finite (S754_zero false))
          as (t1 & z1 & _). cbn [exact_ratio] in Eq. discriminate.
      * intros H. destruct (partials_special t finite x) as (t1 & z1 & H').
        pose proof (eq_trans (eq_sym H) H') as C. discriminate.
Qed.

Lemma Zdigits2_abs z : Zdigits2 (Z.abs z) = Zdigits2 z.
Proof.
  destruct z; reflexivity.
Qed.

(** A fraction within [2 ^ k] is converted to a float. *)
Lemma float_of_fraction_returns q k :
  0 <= k <= 1022 -> within k q -> exists x, float_of_fraction q = inr x.
Proof.
  intros Hk [Hlo Hhi]. unfold float_of_fraction.
  destruct (@int_truediv_returns (numerator q) (denominator q))
    as (x & Hx & _); [unfold denominator; lia| |eauto].
  unfold numerator, denominator.
  rewrite <- (Qred_correct q) in Hlo, Hhi.
  destruct (Qred q) as [num den]. cbn [Qnum Qden].
  unfold Qle in Hlo, Hhi. cbn [Qnum Qden inject_Z Qopp] in Hlo, Hhi.
  rewrite Z.mul_1_r in Hlo, Hhi.
  assert (0 < 2 ^ k) by (apply Z.pow_pos_nonneg; lia).
  pose proof (@Zdigits2_above (Zpos den) ltac:(lia)) as Hden.
  pose proof (Zdigits2_nonneg (Zpos den)).
  assert (Zdigits2 (Z.abs num) <= k + Zdigits2 (Zpos den)).
  { apply Zdigits2_below; [lia|lia|].
    rewrite Z.pow_add_r by lia. nia. }
  rewrite Zdigits2_abs in *. lia.
Qed.

(** [mean] returns on items that are within [2 ^ 1022] where they are
    finite. *)
Lemma mean_returns data k :
  data <> [] -> Z.of_nat (length data) < 2 ^ 1023 -> 0 <= k <= 1022 ->
  Forall (item_within k) data ->
  exists a, mean data = inr a.
Proof.
  intros Hne Hlen Hk Hall. unfold mean.
  assert (1 <= Z.of_nat (length data)) as Hn
      by (destruct data; [contradiction | simpl; lia]).
  destruct (Z.ltb_spec (Z.of_nat (length data)) 1) as [|_]; [lia|].
  destruct (partials data 0 None) as [total [special|]] eqn:E.
  - destruct (@float_of_int_returns (Z.of_nat (length data)))
      as (d & Hd & _); [lia|].
    rewrite Hd. cbn [bind].
    destruct (@float_truediv_returns special d) as [r ->];
      [|cbn [bind]; eauto].
    intros s. apply (float_of_int_nonzero (z := Z.of_nat (length data)));
      [lia | exact Hd].
  - destruct (existsb is_float data || _); [|eauto].
    destruct (@float_of_fraction_returns
                (total / (Z.of_nat (length data) # 1)) k Hk)
      as [x ->]; [|cbn [bind]; eauto].
    destruct (@partials_within k data 0 total ltac:(lia) Hall E)
      as [Hlo Hhi].
    set (n := Z.of_nat (length data)) in *.
    assert (0 < n # 1)%Q as Hpos by (unfold Qlt; simpl; lia).
    assert (~ (n # 1 == 0)%Q) as Hnz by (intros H0; rewrite H0 in Hpos; lra).
    assert (inject_Z (n * 2 ^ k) == inject_Z (2 ^ k) * (n # 1))%Q as Hmul.
    { unfold Qeq. simpl. lia. }
    assert (total / (n # 1) * (n # 1) == total)%Q as Hv
        by (unfold Qdiv; rewrite <- Qmult_assoc, (Qmult_comm (/ (n # 1))),
              Qmult_inv_r by exact Hnz; ring).
    split.
    + apply (Qmult_le_r _ _ (n # 1) Hpos). rewrite Hv.
      setoid_replace (- inject_Z (2 ^ k) * (n # 1))%Q
        with (- (inject_Z (2 ^ k) * (n # 1)))%Q by ring.
      rewrite <- Hmul. lra.
    + apply (Qmult_le_r _ _ (n # 1) Hpos). rewrite Hv, <- Hmul. lra.
Qed.

(** ** Variance and standard deviation of bounded loads *)

Lemma int_truediv_small a b :
  b <> 0 -> Z.abs a < 2 ^ 1022 -> exists x, int_truediv a b = inr x.
Proof.
  intros Hb Ha.
  destruct (@int_truediv_returns a b Hb) as (x & Hx & _); [|eauto].
  pose proof (Zdigits2_unrounded_nonzero Hb).
  assert (Zdigits2 (Z.abs a) <= 1022)
    by (apply Zdigits2_below; lia).
  rewrite Zdigits2_abs in *. lia.
Qed.

(** Lowest terms are not larger terms. *)
Lemma Qred_smaller q :
  Z.abs (Qnum (Qred q)) <= Z.abs (Qnum q)
  /\ Zpos (Qden (Qred q)) <= Zpos (Qden q).
Proof.
  destruct q as [a d]. unfold Qred.
  pose proof (Z.ggcd_correct_divisors a (Zpos d)) as Hdiv.
  pose proof (Z.ggcd_gcd a (Zpos d)) as Hg.
  pose proof (Z.gcd_nonneg a (Zpos d)) as Hg0.
  destruct (Z.ggcd a (Zpos d)) as [g [aa bb]]. simpl in Hg.
  destruct Hdiv as [Ha Hd]. rewrite <- Hg in Hg0.
  assert (0 < g) as Hgpos.
  { destruct (Z.eq_dec g 0) as [E|]; [|lia].
    rewrite E, Z.mul_0_l in Hd. lia. }
  assert (0 < bb) as Hbpos.
  { destruct (Z.le_gt_cases bb 0) as [Hle|]; [|assumption].
    assert (g * bb <= 0) by nia. lia. }
  cbn [snd Qnum Qden]. rewrite Z2Pos.id by lia.
  split.
  - rewrite Ha, Z.abs_mul, (Z.abs_eq g) by lia.
    pose proof (Z.abs_nonneg aa). nia.
  - rewrite Hd. nia.
Qed.

Lemma bit_length_pow z : 2 ^ bit_length z <= 2 * Z.abs z + 1.
Proof.
  unfold bit_length. destruct (Z.eqb_spec z 0) as [->|Hz]; [simpl; lia|].
  rewrite Z.pow_add_r, Z.pow_1_r by (try apply Z.log2_nonneg; lia).
  destruct (Z.log2_spec (Z.abs z)) as [H _]; lia.
Qed.

Lemma bit_length_nonneg z : 0 <= bit_length z.
Proof.
  unfold bit_length. destruct (z =? 0); [lia|].
  pose proof (Z.log2_nonneg (Z.abs z)). lia.
Qed.

Lemma integer_sqrt_of_frac_rto_size n m :
  0 < m -> 0 <= integer_sqrt_of_frac_rto n m <= Z.abs n + 1.
Proof.
  intros Hm. unfold integer_sqrt_of_frac_rto.
  set (a := Z.sqrt (n / m)).
  assert (0 <= a <= Z.abs n) as Ha.
  { unfold a. split; [apply Z.sqrt_nonneg|].
    destruct (Z.le_gt_cases 0 n) as [Hn|Hn].
    - assert (0 <= n / m) by (apply Z.div_pos; lia).
      apply Z.le_trans with (n / m); [apply Z.sqrt_le_lin; lia|].
      rewrite Z.abs_eq by lia.
      apply Z.div_le_upper_bound; [lia|nia].
    - rewrite Z.sqrt_neg; [lia|].
      apply Z.div_lt_upper_bound; lia. }
  set (c := if a * a * m =? n then 0 else 1).
  assert (0 <= c <= 1) by (unfold c; destruct (a * a * m =? n); lia).
  pose proof (Z.add_lor_land a c) as Hadd.
  assert (0 <= Z.land a c) by (apply Z.land_nonneg; lia).
  assert (0 <= Z.lor a c) by (apply Z.lor_nonneg; lia).
  lia.
Qed.

(** [_float_sqrt_of_frac] returns on fractions of moderate size. *)
Lemma float_sqrt_of_frac_returns n m :
  Z.abs n < 2 ^ 400 -> 0 < m < 2 ^ 200 ->
  exists x, float_sqrt_of_frac n m = inr x.
Proof.
  intros Hn Hm. unfold float_sqrt_of_frac.
  set (q := (bit_length n - bit_length m - sqrt_bit_width) / 2).
  pose proof (bit_length_pow n) as Hbn. pose proof (bit_length_pow m) as Hbm.
  pose proof (bit_length_nonneg n). pose proof (bit_length_nonneg m).
  assert (2 * q <= bit_length n - bit_length m - sqrt_bit_width
          < 2 * q + 2) as Hq.
  { unfold q.
    pose proof (Z.mul_div_le (bit_length n - bit_length m - sqrt_bit_width)
                             2 ltac:(lia)).
    pose proof (Z.mul_succ_div_gt
                  (bit_length n - bit_length m - sqrt_bit_width)
                  2 ltac:(lia)).
    lia. }
  unfold sqrt_bit_width, mant_dig in Hq.
  destruct (Z.leb_spec 0 q) as [Hq0|Hq0].
  - apply int_truediv_small; [lia|].
    rewrite Z.shiftl_mul_pow2 by lia.
    assert (0 < Z.shiftl m (2 * q))
      by (rewrite Z.shiftl_mul_pow2 by lia;
          assert (0 < 2 ^ (2 * q)) by (apply Z.pow_pos_nonneg; lia); nia).
    pose proof (@integer_sqrt_of_frac_rto_size n (Z.shiftl m (2 * q))
                  ltac:(lia)) as Hr.
    assert (2 ^ q <= 2 ^ bit_length n) by (apply Z.pow_le_mono_r; lia).
    assert (0 < 2 ^ q) by (apply Z.pow_pos_nonneg; lia).
    pose proof (Z.abs_nonneg n).
    rewrite Z.abs_eq by nia.
    apply Z.le_lt_trans with ((2 ^ 400 + 1) * (2 * 2 ^ 400 + 1));
      [|reflexivity].
    apply Z.mul_le_mono_nonneg; lia.
  - apply int_truediv_small.
    + rewrite Z.shiftl_1_l.
      assert (0 < 2 ^ (- q)) by (apply Z.pow_pos_nonneg; lia). lia.
    + rewrite Z.shiftl_mul_pow2 by lia.
      pose proof (@integer_sqrt_of_frac_rto_size (n * 2 ^ (- 2 * q)) m
                    ltac:(lia)) as Hr.
      assert (2 ^ (- 2 * q) <= 2 ^ (bit_length m + 110)) as Hpow
        by (apply Z.pow_le_mono_r; lia).
      rewrite Z.pow_add_r in Hpow by lia.
      assert (0 < 2 ^ (- 2 * q)) by (apply Z.pow_pos_nonneg; lia).
      rewrite Z.abs_mul, (Z.abs_eq (2 ^ (- 2 * q))) in Hr by lia.
      rewrite Z.abs_eq by lia.
      apply Z.le_lt_trans
        with (2 ^ 400 * ((2 * 2 ^ 200 + 1) * 2 ^ 110) + 1); [|reflexivity].
      assert (2 ^ (- 2 * q) <= (2 * 2 ^ 200 + 1) * 2 ^ 110).
      { apply Z.le_trans with (2 ^ bit_length m * 2 ^ 110); [exact Hpow|].
        apply Z.mul_le_mono_nonneg_r; lia. }
      pose proof (Z.abs_nonneg n).
      assert (Z.abs n * 2 ^ (- 2 * q)
              <= 2 ^ 400 * ((2 * 2 ^ 200 + 1) * 2 ^ 110))
        by (apply Z.mul_le_mono_nonneg; lia).
      lia.
Qed.

Lemma py_sum_size l L :
  Forall (fun x => Z.abs x <= L) l ->
  Z.abs (py_sum l) <= Z.of_nat (length l) * L.
Proof.
  induction 1 as [|x l Hx _ IH]; [simpl; lia|].
  change (py_sum (x :: l)) with (x + py_sum l).
  change (length (x :: l)) with (S (length l)). lia.
Qed.

Lemma py_sum_squares_size l L :
  Forall (fun x => Z.abs x <= L) l ->
  0 <= py_sum (map (fun x => x * x) l) <= Z.of_nat (length l) * (L * L).
Proof.
  induction 1 as [|x l Hx _ IH]; [simpl; lia|].
  change (py_sum (map (fun x => x * x) (x :: l)))
    with (x * x + py_sum (map (fun x => x * x) l)).
  change (length (x :: l)) with (S (length l)).
  assert (0 <= x * x <= L * L) by nia. lia.
Qed.

(** The mean of the squared deviations of fewer than [2 ^ 64] loads of
    at most 128 bits, in lowest terms. *)
Lemma mean_square_size l :
  Forall (fun x => Z.abs x <= 2 ^ 128) l ->
  (2 <= length l)%nat -> Z.of_nat (length l) < 2 ^ 64 ->
  Z.abs (numerator (ss l / ((Z.of_nat (length l) - 1) # 1))) < 2 ^ 400
  /\ 0 < denominator (ss l / ((Z.of_nat (length l) - 1) # 1)) < 2 ^ 200.
Proof.
  intros Hall H2 Hn. unfold numerator, denominator.
  pose proof (py_sum_size Hall) as Hsx.
  pose proof (py_sum_squares_size Hall) as Hsxx.
  set (n := Z.of_nat (length l)) in *.
  set (sx := py_sum l) in *.
  set (sxx := py_sum (map (fun x => x * x) l)) in *.
  assert (2 <= n) as Hn2 by (unfold n; lia).
  pose proof (Qred_smaller (ss l / ((n - 1) # 1))) as [Hnum Hden].
  assert (Z.abs (Qnum (ss l / ((n - 1) # 1))) <= 2 ^ 128 * (2 ^ 256 * 2)
          /\ Zpos (Qden (ss l / ((n - 1) # 1))) <= 2 ^ 64 * 2 ^ 64)
    as [Hnum0 Hden0].
  { unfold ss. fold n sx sxx.
    destruct n as [|c|c] eqn:En; try lia.
    destruct (Z.pos c - 1) as [|p|p] eqn:Ep; try lia.
    unfold Qdiv, Qinv, Qmult. cbn [Qnum Qden].
    rewrite Z.mul_1_r, Pos2Z.inj_mul.
    assert (0 <= sx * sx <= (Zpos c * 2 ^ 128) * (Zpos c * 2 ^ 128)).
    { split; [nia|]. rewrite <- (Z.abs_square sx).
      pose proof (Z.abs_nonneg sx).
      apply Z.mul_le_mono_nonneg; lia. }
    assert (0 <= Zpos c * sxx <= Zpos c * (Zpos c * (2 ^ 128 * 2 ^ 128)))
      by (split; [nia|apply Z.mul_le_mono_nonneg_l; lia]).
    assert (Zpos c * (Zpos c * (2 ^ 128 * 2 ^ 128))
            <= 2 ^ 64 * (2 ^ 64 * (2 ^ 128 * 2 ^ 128))).
    { repeat apply Z.mul_le_mono_nonneg; lia. }
    assert ((Zpos c * 2 ^ 128) * (Zpos c * 2 ^ 128)
            <= (2 ^ 64 * 2 ^ 128) * (2 ^ 64 * 2 ^ 128))
      by (apply Z.mul_le_mono_nonneg; lia).
    split; [|apply Z.mul_le_mono_nonneg; lia].
    apply Z.le_trans with (2 ^ 64 * (2 ^ 64 * (2 ^ 128 * 2 ^ 128)));
      [lia | vm_compute; discriminate]. }
  split; [|split; [lia|]].
  - apply Z.le_lt_trans with (2 ^ 128 * (2 ^ 256 * 2)); [lia|reflexivity].
  - apply Z.le_lt_trans with (2 ^ 64 * 2 ^ 64); [lia|reflexivity].
Qed.

Lemma variance_returns l :
  Forall (fun x => Z.abs x <= 2 ^ 128) l ->
  (2 <= length l)%nat -> Z.of_nat (length l) < 2 ^ 64 ->
  exists v, variance l = inr v.
Proof.
  intros Hall H2 Hn. unfold variance.
  destruct (Z.ltb_spec (Z.of_nat (length l)) 2) as [|_]; [lia|].
  destruct (denominator _ =? 1); [eauto|].
  destruct (mean_square_size Hall H2 Hn) as [Hnum Hden].
  unfold float_of_fraction.
  destruct (@int_truediv_small
              (numerator (ss l / ((Z.of_nat (length l) - 1) # 1)))
              (denominator (ss l / ((Z.of_nat (length l) - 1) # 1))))
    as [x ->]; [lia| |cbn [bind]; eauto].
  apply Z.lt_trans with (2 ^ 400); [exact Hnum | reflexivity].
Qed.

Lemma stdev_returns l :
  Forall (fun x => Z.abs x <= 2 ^ 128) l ->
  (2 <= length l)%nat -> Z.of_nat (length l) < 2 ^ 64 ->
  exists x, stdev l = inr x.
Proof.
  intros Hall H2 Hn. unfold stdev.
  destruct (Z.ltb_spec (Z.of_nat (length l)) 2) as [|_]; [lia|].
  destruct (mean_square_size Hall H2 Hn) as [Hnum Hden].
  apply float_sqrt_of_frac_returns; assumption.
Qed.

(** ** The statistics after the greedy assignment *)

Lemma seq_load_nonneg s :
  (forall u, In u s -> 0 <= duration u) -> 0 <= seq_load s.
Proof.
  unfold seq_load. induction s as [|y s IH]; intros H; simpl; [lia|].
  pose proof (H y (or_introl eq_refl)).
  assert (0 <= py_sum (map duration s))
    by (apply IH; intros u Hu; apply H; right; exact Hu).
  lia.
Qed.

Lemma py_sum_nonneg l : Forall (fun d => 0 <= d) l -> 0 <= py_sum l.
Proof.
  induction 1; simpl; lia.
Qed.

(** The facts about the object after [lpt_schedule] on which the
    statistics rest. *)
Lemma lpt_schedule_bounds t_start t_end st st1 v longest :
  Forall (fun d => 0 <= d) (tasks st) ->
  1 <= num_machines st ->
  py_max (tasks st) = Some longest ->
  lpt_schedule t_start t_end st = Return st1 v ->
  consistent st1
  /\ tasks st1 = tasks st
  /\ num_machines st1 = num_machines st
  /\ py_sum (tasks st) <= num_machines st * makespan st1
  /\ longest <= makespan st1
  /\ num_machines st * makespan st1
     <= py_sum (tasks st) + (num_machines st - 1) * longest
  /\ 0 <= longest
  /\ (forall x, In x (machine_loads st1) -> 0 <= x).
Proof.
  intros Hpos Hm Hlong Hrun.
  destruct (lpt_schedule_returns t_start t_end st Hm)
    as (st' & Hret & Hg & Hmx & Ht & Hn & _).
  destruct (lpt_schedule_well_formed _ _ _ Hm Hrun) as (Hc & Hlm & Hp).
  rewrite Hret in Hrun. injection Hrun as <- _.
  apply py_max_spec in Hlong. destruct Hlong as [Hin Hub].
  pose proof Hpos as Hpos'. rewrite Forall_forall in Hpos'.
  assert (Forall (fun d => 0 <= d) (tasks st')) as Hpos1
      by (rewrite Ht; exact Hpos).
  destruct (well_formed_lower_bounds Hc Hlm Hp Hpos1) as [H1 H2].
  rewrite Ht, Hn in *.
  split; [exact Hc|]. split; [reflexivity|]. split; [reflexivity|].
  split; [exact H1|]. split; [apply H2, Hin|]. split.
  - pose proof (greedy_assign_sum Hg) as Hsum. simpl in Hsum.
    rewrite py_sum_repeat_zero, sorted_desc_durations in Hsum.
    rewrite <- (Z.add_0_l (py_sum (tasks st))), <- Hsum.
    apply (greedy_assign_bound (D := longest) Hg); auto.
    + simpl. rewrite repeat_length. lia.
    + intros t Hin_t.
      apply (Permutation_in _ (Permutation_sym (sorted_desc_perm _)))
        in Hin_t.
      apply enumerate_durations_in in Hin_t.
      split; [apply Hpos' | apply Hub]; exact Hin_t.
    + simpl. intros x Hx. apply repeat_spec in Hx. subst x.
      rewrite py_sum_repeat_zero.
      pose proof (Hpos' _ Hin). nia.
    + simpl. apply py_max_spec in Hmx. tauto.
  - split; [apply Hpos', Hin|].
    intros x Hx. unfold loads_match in Hlm. rewrite Hlm in Hx.
    apply in_map_iff in Hx. destruct Hx as (s & <- & Hs).
    apply seq_load_nonneg. intros u Hu. apply Hpos'.
    apply enumerate_durations_in. unfold partitions in Hp.
    rewrite Ht in Hp.
    apply (Permutation_in _ Hp). apply in_concat. eauto.
Qed.

Lemma member_le_sum l x :
  Forall (fun y => 0 <= y) l -> In x l -> x <= py_sum l.
Proof.
  induction 1 as [|y l Hy Hl IH]; intros Hin; [destruct Hin|].
  pose proof (py_sum_nonneg Hl). simpl.
  destruct Hin as [->|Hin]; [lia|]. specialize (IH Hin). lia.
Qed.

Lemma py_sum_below l b :
  Forall (fun d => 0 <= d < b) l -> py_sum l <= Z.of_nat (length l) * b.
Proof.
  induction 1 as [|y l Hy _ IH]; [simpl; lia|].
  change (py_sum (y :: l)) with (y + py_sum l).
  change (length (y :: l)) with (S (length l)). lia.
Qed.

Lemma below_mono k k' x : k <= k' -> below k x -> below k' x.
Proof.
  intros Hk. destruct x; cbn [below]; auto. lia.
Qed.

Lemma traverse_all {A B : Type} (f : A -> result B) (P : B -> Prop) l :
  (forall a, In a l -> exists b, f a = inr b /\ P b) ->
  exists bs, traverse f l = inr bs /\ Forall P bs.
Proof.
  induction l as [|a l IH]; intros H; cbn [traverse].
  - exists []. split; [reflexivity | constructor].
  - destruct (H a (or_introl eq_refl)) as (b & -> & Hb). cbn [bind].
    destruct IH as (bs & -> & Hbs); [intros a' Ha'; apply H; right; exact Ha'|].
    cbn [bind]. exists (b :: bs). split; [reflexivity | constructor; auto].
Qed.

(** A float divided by a positive integer of at most 1023 bits, as a
    percentage. *)
Lemma percentage_of_float_returns x k :
  0 < k < 2 ^ 1023 -> exists p, percentage (PyFloat x) k = inr p.
Proof.
  intros Hk. unfold percentage. cbn [truediv to_float].
  destruct (@float_of_int_returns k) as (y & Hy & _); [lia|].
  rewrite Hy. cbn [bind].
  destruct (@float_truediv_returns x y) as [r ->].
  { intros s. apply (float_of_int_nonzero (z := k)); [lia | exact Hy]. }
  cbn [bind]. destruct (float_mul_hundred r) as [p ->]. cbn [bind]. eauto.
Qed.

(** The approximation ratio. *)
Lemma approximation_ratio_returns k b :
  Z.abs k < 2 ^ 1022 ->
  exists r,
    (if number_gt b (PyInt 0) then truediv (PyInt k) b else inr float_one)
    = inr r.
Proof.
  intros Hk. destruct (number_gt b (PyInt 0)) eqn:Hgt; [|eauto].
  destruct b as [z|x]; cbn [truediv to_float number_gt] in *.
  - apply int_truediv_small; [|exact Hk].
    intros ->. discriminate.
  - destruct (@float_of_int_returns k) as (y & -> & _).
    { apply Z.lt_trans with (2 ^ 1022); [exact Hk | reflexivity]. }
    cbn [bind]. apply float_truediv_returns.
    intros s. apply float_gt_int_nonzero. exact Hgt.
Qed.

Lemma Zdigits2_bound z k : 0 <= k -> Z.abs z < 2 ^ k -> Zdigits2 z <= k.
Proof.
  intros Hk Hz. rewrite <- Zdigits2_abs. apply Zdigits2_below; lia.
Qed.

(** X9. Up to [2 ^ 64] tasks of durations from 0 up to [2 ^ 64], at least
    one of them, on up to [2 ^ 64] machines: after [lpt_schedule],
    [calculate_statistics] returns; no quotient leaves the range of the
    floats. *)
Theorem statistics_returned (ts : list Z) (m : Z) (t_start t_end : Q)
        (st : TaskScheduler) :
  ts <> [] -> Forall (fun d => 0 <= d < 2 ^ 64) ts ->
  Z.of_nat (length ts) < 2 ^ 64 -> 1 <= m < 2 ^ 64 ->
  tasks st = ts -> num_machines st = m ->
  exists st1 v s,
    lpt_schedule t_start t_end st = Return st1 v
    /\ calculate_statistics st1 = Return st1 s.
Proof.
  intros Hne Hd Hlen Hm Hts Hnm. subst ts m.
  destruct (lpt_schedule_returns t_start t_end st)
    as (st1 & Hret & Hg & Hmx & Ht & Hn & _); [lia|].
  destruct (py_max (tasks st)) as [longest|] eqn:Hlong;
    [|destruct (Hne (py_max_none _ Hlong))].
  assert (Forall (fun d => 0 <= d) (tasks st)) as Hpos
      by (eapply Forall_impl; [|exact Hd]; simpl; intros; lia).
  destruct (@lpt_schedule_bounds _ _ _ _ _ _ Hpos ltac:(lia) Hlong Hret)
    as (Hc & _ & _ & _ & _ & _ & _ & Hloads).
  pose proof (greedy_assign_sum Hg) as Hsum. simpl in Hsum.
  rewrite py_sum_repeat_zero, sorted_desc_durations in Hsum.
  pose proof (py_sum_below Hd) as Htotal.
  pose proof (py_sum_nonneg Hpos) as Htotal0.
  assert (py_sum (tasks st) < 2 ^ 128) as Htotal128.
  { apply Z.le_lt_trans with (Z.of_nat (length (tasks st)) * 2 ^ 64);
      [exact Htotal|].
    change (2 ^ 128) with (2 ^ 64 * 2 ^ 64).
    apply Z.mul_lt_mono_pos_r; [reflexivity | exact Hlen]. }
  assert (Forall (fun y => 0 <= y) (machine_loads st1)) as Hloads0
      by (apply Forall_forall; exact Hloads).
  assert (forall x, In x (machine_loads st1) -> 0 <= x < 2 ^ 128)
    as Hrange.
  { intros x Hx. split; [apply Hloads, Hx|].
    pose proof (@member_le_sum _ _ Hloads0 Hx). lia. }
  assert (Forall (fun x => Z.abs x <= 2 ^ 128) (machine_loads st1)) as Habs.
  { apply Forall_forall. intros x Hx. specialize (Hrange x Hx). lia. }
  pose proof (c_count Hc) as Hcount. rewrite Hn in Hcount.
  assert (Z.of_nat (length (machine_loads st1)) = num_machines st)
    as Hlen1 by lia.
  destruct (proj1 (py_max_spec _ _) Hmx) as [Hmk_in _].
  pose proof (Hrange _ Hmk_in) as Hmk.
  exists st1, (schedule st1, makespan st1, execution_time st1).
  unfold calculate_statistics. rewrite Ht, Hn, Hlong.
  destruct (@int_truediv_small (py_sum (tasks st)) (num_machines st))
    as [average_load ->]; [lia| |].
  { rewrite Z.abs_eq by lia.
    apply Z.lt_trans with (2 ^ 128); [exact Htotal128 | reflexivity]. }
  cbn [bind].
  assert (exists v sd,
             (if (1 <? length (machine_loads st1))%nat
              then variance (machine_loads st1) else inr (PyInt 0)) = inr v
             /\ (if (1 <? length (machine_loads st1))%nat
                 then x <- stdev (machine_loads st1) ;; inr (PyFloat x)
                 else inr (PyInt 0)) = inr sd) as (v & sd & -> & ->).
  { destruct (Nat.ltb_spec 1 (length (machine_loads st1))) as [H2|_];
      [|eauto].
    destruct (@variance_returns (machine_loads st1)) as [v ->];
      [exact Habs | lia | lia |].
    destruct (@stdev_returns (machine_loads st1)) as [sd ->];
      [exact Habs | lia | lia |].
    cbn [bind]. eauto. }
  cbn [bind].
  destruct (@traverse_all _ _
              (fun load => if 0 <? makespan st1
                           then percentage (PyInt load) (makespan st1)
                           else inr (PyInt 0))
              (item_within 138) (machine_loads st1))
    as (utilizations & Hut & Hitems).
  { intros load Hload. destruct (Z.ltb_spec 0 (makespan st1)) as [Hk|_].
    - pose proof (Hrange _ Hload) as Hl.
      assert (Zdigits2 load <= 128)
        by (apply Zdigits2_bound; lia).
      assert (1 <= Zdigits2 (makespan st1))
        by (apply Zdigits2_unrounded_nonzero; lia).
      destruct (@percentage_returns load (makespan st1)) as (u & -> & Hu);
        [lia|lia|].
      exists (PyFloat u). split; [reflexivity|]. cbn [item_within].
      apply (below_mono (k := Z.max (Zdigits2 load
                                     - Zdigits2 (makespan st1) + 10) 9));
        [lia | exact Hu].
    - exists (PyInt 0). split; [reflexivity|]. simpl. lia. }
  rewrite Hut. apply traverse_length in Hut. cbn [bind].
  assert (exists e,
             (if 0 <? makespan st1
              then percentage (PyFloat average_load) (makespan st1)
              else inr (PyInt 0)) = inr e) as (efficiency & ->).
  { destruct (Z.ltb_spec 0 (makespan st1)) as [Hk|_]; [|eauto].
    apply percentage_of_float_returns. split; [lia|].
    apply Z.lt_trans with (2 ^ 128); [lia | reflexivity]. }
  cbn [bind or_raise].
  destruct (@approximation_ratio_returns (makespan st1)
              (max_of_two (PyFloat average_load) (PyInt longest)))
    as [ratio ->].
  { rewrite Z.abs_eq by lia.
    apply Z.lt_trans with (2 ^ 128); [lia | reflexivity]. }
  cbn [bind]. rewrite Hmx.
  destruct (py_min (machine_loads st1)) as [lo|] eqn:Hmin.
  2:{ apply py_min_none in Hmin. rewrite Hmin in Hmk_in. destruct Hmk_in. }
  cbn [bind or_raise].
  destruct (@mean_returns utilizations 138) as [au ->];
    [| |lia|exact Hitems|].
  - intros E. rewrite E in Hut. simpl in Hut. lia.
  - rewrite Hut, Hlen1.
    apply Z.lt_trans with (2 ^ 64); [lia | reflexivity].
  - cbn [bind]. eexists. split; [exact Hret | reflexivity].
Qed.

Lemma statistics_returned_witness :
  exists st1 v s,
    lpt_schedule 0 1 (fresh [10; 5; 8; 7; 12; 15; 6; 9; 11; 4] 3)
    = Return st1 v
    /\ calculate_statistics st1 = Return st1 s.
Proof.
  apply (@statistics_returned [10; 5; 8; 7; 12; 15; 6; 9; 11; 4] 3 0 1
           (fresh [10; 5; 8; 7; 12; 15; 6; 9; 11; 4] 3));
    [discriminate | repeat constructor; lia | simpl; lia | lia
     | reflexivity | reflexivity].
Defined.

(** ** The order of the tasks on a machine *)

Lemma sorted_app_last (s : list task) t :
  StronglySorted lpt_before s ->
  (forall x, In x s -> lpt_before x t) ->
  StronglySorted lpt_before (s ++ [t]).
Proof.
  induction 1 as [|y s Hs IH Hy]; intros Hall; simpl.
  - repeat constructor.
  - constructor.
    + apply IH. intros x Hx. apply Hall. right. exact Hx.
    + rewrite Forall_forall in *. intros z Hz.
      apply in_app_or in Hz. destruct Hz as [Hz|[<-|[]]]; auto.
      apply Hall. left. reflexivity.
Qed.

Lemma greedy_assign_sequences_sorted ts a a' :
  greedy_assign ts a a' ->
  StronglySorted lpt_before ts ->
  (forall s, In s (fst a) ->
             StronglySorted lpt_before s
             /\ forall x y, In x s -> In y ts -> lpt_before x y) ->
  forall s, In s (fst a') -> StronglySorted lpt_before s.
Proof.
  induction 1 as [|t rest sched loads k seq_k l a' _ Hs _ _ IH];
    intros Hsorted Hinv.
  - intros s Hin. apply Hinv, Hin.
  - inversion Hsorted as [|? ? Hrest Ht]; subst.
    rewrite Forall_forall in Ht.
    simpl in *. apply IH; auto.
    intros s Hin. apply in_update in Hin. destruct Hin as [->|Hin].
    + destruct (Hinv seq_k (nth_error_In _ _ Hs)) as [Hsk Hbefore].
      split.
      * apply sorted_app_last; [exact Hsk|].
        intros x Hx. apply Hbefore; [exact Hx | left; reflexivity].
      * intros x y Hx Hy. apply in_app_or in Hx.
        destruct Hx as [Hx|[<-|[]]].
        -- apply Hbefore; [exact Hx | right; exact Hy].
        -- apply Ht, Hy.
    + destruct (Hinv s Hin) as [Hss Hbefore]. split; [exact Hss|].
      intros x y Hx Hy. apply Hbefore; [exact Hx | right; exact Hy].
Qed.

(** X11. With at least one machine, every sequence that [lpt_schedule]
    builds lists its tasks longest first, tasks of one duration in the
    order of their input positions: the longest task of a machine is
    the first of its sequence. *)
Theorem machine_sequences_descending (ts : list Z) (m : Z)
        (t_start t_end : Q) (st : TaskScheduler) :
  1 <= m -> tasks st = ts -> num_machines st = m ->
  exists st1 v,
    lpt_schedule t_start t_end st = Return st1 v
    /\ forall s, In s (schedule st1) -> StronglySorted lpt_before s.
Proof.
  intros Hm Hts Hnm. subst ts m.
  destruct (lpt_schedule_returns t_start t_end st Hm)
    as (st1 & Hret & Hg & _).
  exists st1, (schedule st1, makespan st1, execution_time st1).
  split; [exact Hret|].
  apply (greedy_assign_sequences_sorted Hg).
  - apply sorted_desc_enumerate_from.
  - simpl. intros s Hin. apply in_map_iff in Hin.
    destruct Hin as (_ & <- & _). split; [constructor|].
    intros x y [].
Qed.

Lemma machine_sequences_descending_witness :
  exists st1 v,
    lpt_schedule 0 1 (fresh [10; 5; 8; 7; 12; 15; 6; 9; 11; 4] 3)
    = Return st1 v
    /\ forall s, In s (schedule st1) -> StronglySorted lpt_before s.
Proof.
  apply (@machine_sequences_descending
           [10; 5; 8; 7; 12; 15; 6; 9; 11; 4] 3 0 1
           (fresh [10; 5; 8; 7; 12; 15; 6; 9; 11; 4] 3));
    [lia | reflexivity | reflexivity].
Defined.

(** ** The local search before any assignment *)

(** X12. On a freshly constructed scheduler with at least one machine,
    on which [lpt_schedule] has not run, [local_search_optimization]
    finds the bottleneck machine 0 empty and returns [(0, 0)] at once,
    leaving the object untouched, for every cap. *)
Theorem local_search_on_fresh_object (ts : list Z) (m cap : Z) :
  1 <= m ->
  local_search_optimization cap (fresh ts m) = Return (fresh ts m) (0, 0).
Proof.
  intros Hm. unfold local_search_optimization.
  destruct (Z.to_nat cap) as [|r]; [reflexivity|].
  simpl ls_loop.
  assert (ls_step (fresh ts m) = Stopped) as ->; [|reflexivity].
  unfold ls_step, fresh, py_range. simpl.
  destruct (Z.to_nat m) as [|n] eqn:E; [lia|]. simpl.
  assert (fold_left Z.max (repeat 0 n) 0 = 0) as ->.
  { clear. induction n; simpl; auto. }
  simpl. reflexivity.
Qed.

Lemma local_search_on_fresh_object_witness :
  local_search_optimization 100 (fresh [3; 1; 2] 2)
  = Return (fresh [3; 1; 2] 2) (0, 0).
Proof.
  apply (@local_search_on_fresh_object [3; 1; 2] 2 100). lia.
Defined.

(** ** As many machines as tasks *)






(** ** How far apart the loads can be *)

Lemma lpt_schedule_settled t_start t_end st st1 v :
  Forall (fun d => 0 <= d) (tasks st) ->
  1 <= num_machines st ->
  lpt_schedule t_start t_end st = Return st1 v ->
  settled (schedule st1) (machine_loads st1).
Proof.
  intros Hpos Hm Hrun.
  destruct (lpt_schedule_returns t_start t_end st Hm)
    as (st' & Hret & Hg & _).
  rewrite Hret in Hrun. injection Hrun as <- _.
  apply (greedy_assign_settled Hg).
  - intros u Hu.
    apply (Permutation_in _ (Permutation_sym (sorted_desc_perm _))) in Hu.
    apply enumerate_durations_in in Hu.
    rewrite Forall_forall in Hpos. apply Hpos, Hu.
  - simpl. unfold py_range. rewrite map_const_repeat.
    apply settled_initial.
Qed.

(** X14. With durations between [0] and [D] and at least one machine,
    after [lpt_schedule] the loads of any two machines differ by at
    most [D]: the load range is at most the longest task. *)
Theorem loads_within_longest_task (ts : list Z) (m D : Z)
        (t_start t_end : Q) (st : TaskScheduler) :
  Forall (fun d => 0 <= d <= D) ts -> 0 <= D ->
  1 <= m -> tasks st = ts -> num_machines st = m ->
  exists st1 v,
    lpt_schedule t_start t_end st = Return st1 v
    /\ forall x y, In x (machine_loads st1) -> In y (machine_loads st1) ->
                   x - y <= D.
Proof.
  intros Hd HD Hm Hts Hnm. subst ts m.
  destruct (lpt_schedule_returns t_start t_end st Hm)
    as (st1 & Hret & _ & _ & Ht & _).
  destruct (lpt_schedule_well_formed _ _ _ Hm Hret) as (Hc & Hlm & Hp).
  assert (Forall (fun d => 0 <= d) (tasks st)) as Hpos
      by (eapply Forall_impl; [|exact Hd]; simpl; intros; lia).
  pose proof (lpt_schedule_settled _ _ _ Hpos Hm Hret) as Hset.
  exists st1, (schedule st1, makespan st1, execution_time st1).
  split; [exact Hret|].
  rewrite Forall_forall in Hd.
  assert (forall s u, In s (schedule st1) -> In u s ->
                      0 <= duration u <= D) as Hdur.
  { intros s u Hs Hu. apply Hd. apply enumerate_durations_in.
    unfold partitions in Hp. rewrite Ht in Hp.
    apply (Permutation_in _ Hp). apply in_concat. eauto. }
  assert (forall y, In y (machine_loads st1) -> 0 <= y) as Hnonneg.
  { intros y Hy. unfold loads_match in Hlm. rewrite Hlm in Hy.
    apply in_map_iff in Hy. destruct Hy as (s & <- & Hs).
    apply seq_load_nonneg. intros u Hu. apply (Hdur s u Hs Hu). }
  intros x y Hx Hy.
  apply In_nth_error in Hx. destruct Hx as [i Hi].
  destruct (@nth_error_of_range _ (schedule st1) i) as [s Hs].
  { rewrite (c_schedule Hc). eapply nth_error_in_range; eauto. }
  destruct s as [|t0 s'].
  - unfold loads_match in Hlm. rewrite Hlm in Hi.
    rewrite (nth_error_map_seq_load _ _ Hs) in Hi. injection Hi as <-.
    unfold seq_load. simpl. specialize (Hnonneg _ Hy). lia.
  - assert (t0 :: s' <> []) as Hne by discriminate.
    destruct (exists_last Hne) as (body & t & E). rewrite E in Hs.
    pose proof (Hset _ _ _ _ Hs Hi _ Hy) as Hlast.
    assert (0 <= duration t <= D).
    { apply (Hdur (body ++ [t]) t); [eapply nth_error_In; eauto|].
      apply in_or_app. right. left. reflexivity. }
    lia.
Qed.

Lemma loads_within_longest_task_witness :
  exists st1 v,
    lpt_schedule 0 1 (fresh [10; 5; 8; 7; 12; 15; 6; 9; 11; 4] 3)
    = Return st1 v
    /\ forall x y, In x (machine_loads st1) -> In y (machine_loads st1) ->
                   x - y <= 15.
Proof.
  apply (@loads_within_longest_task [10; 5; 8; 7; 12; 15; 6; 9; 11; 4]
           3 15 0 1 (fresh [10; 5; 8; 7; 12; 15; 6; 9; 11; 4] 3));
    [repeat constructor; lia | lia | lia | reflexivity | reflexivity].
Defined.
